(** * email-previewer: feature extraction and compatibility classification

    A shallow embedding of [src/lib/feature-extractor.ts], [src/lib/caniemail.ts],
    the three index builders ([buildCssPropertyMap], [buildHtmlElementMap],
    [buildHtmlAttributeMap]) and the lists and the helper of
    [src/components/custom/compatibility-report.tsx], with the properties
    stated in the specification and further properties of the code.

    Conventions of the embedding.
    - A JavaScript string is a [string] of 8-bit code units read as Latin-1.
    - A JavaScript [Set<string>] is the list of its elements in insertion
      order (the order in which [for ... of] visits them).
    - A JavaScript [Map] that is only read with [get]/[has] and written with
      [set] is a [gmap].
    - A regular expression literal is a value of type [RegExp.regex]; the
      matcher is a backtracking matcher with the priorities of ECMAScript.
    - The PostCSS parser is outside the repository: the extractor is
      parameterised by it, and works on the tree the parser returns. *)

From Stdlib Require Import Ascii NArith.
From stdpp Require Import gmap strings list fin_maps.

Set Warnings "-register-all".

Local Open Scope stdpp_scope.

(* ===================================================================== *)
(** ** JavaScript strings                                                 *)
(* ===================================================================== *)

Module JsString.

Definition code (c : ascii) : N := N_of_ascii c.

Definition between (lo hi n : N) : bool := (lo <=? n)%N && (n <=? hi)%N.

(** [String.prototype.toLowerCase] on one Latin-1 code unit:
    A-Z and the accented capitals U+00C0..U+00DE (but not the
    multiplication sign U+00D7) move 32 places up. *)
Definition lowerChar (c : ascii) : ascii :=
  let n := code c in
  if between 65 90 n || (between 192 222 n && negb (n =? 215)%N)
  then ascii_of_N (n + 32) else c.

(** The [Canonicalize] operation of a case-insensitive, non-unicode
    regular expression: the upper case form, when it is one code unit
    of the same alphabet. *)
Definition canonChar (c : ascii) : ascii :=
  let n := code c in
  if between 97 122 n || (between 224 254 n && negb (n =? 247)%N)
  then ascii_of_N (n - 32) else c.

(** [WhiteSpace] and [LineTerminator] code units: the class [\s], and
    what [trim] removes. *)
Definition isSpace (c : ascii) : bool :=
  let n := code c in between 9 13 n || (n =? 32)%N || (n =? 160)%N.

Definition isDigit (c : ascii) : bool := between 48 57 (code c).

Fixpoint toLowerCase (s : string) : string :=
  match s with
  | EmptyString => EmptyString
  | String c s' => String (lowerChar c) (toLowerCase s')
  end.

Fixpoint take (n : nat) (s : string) : string :=
  match n, s with
  | S n', String c s' => String c (take n' s')
  | _, _ => EmptyString
  end.

(** [s.startsWith(p)] and the rest of [s] after [p]. *)
Fixpoint stripPrefix (p s : string) : option string :=
  match p, s with
  | EmptyString, _ => Some s
  | String a p', String b s' => if Ascii.eqb a b then stripPrefix p' s' else None
  | String _ _, EmptyString => None
  end.

Definition startsWith (s p : string) : bool :=
  match stripPrefix p s with Some _ => true | None => false end.

(** [s.includes(p)] *)
Fixpoint includes (s p : string) : bool :=
  startsWith s p ||
  match s with
  | EmptyString => false
  | String _ s' => includes s' p
  end.

Fixpoint trimStart (s : string) : string :=
  match s with
  | String c s' => if isSpace c then trimStart s' else s
  | EmptyString => EmptyString
  end.

(** the string without its trailing white space *)
Fixpoint trimEnd (s : string) : string :=
  match s with
  | EmptyString => EmptyString
  | String c s' =>
      match trimEnd s' with
      | EmptyString => if isSpace c then EmptyString else String c EmptyString
      | t => String c t
      end
  end.

Definition trim (s : string) : string := trimEnd (trimStart s).

(** [s.split(sep)] for a one-character separator: always at least one
    piece. *)
Fixpoint split (sep : ascii) (s : string) : list string :=
  match s with
  | EmptyString => [EmptyString]
  | String c s' =>
      if Ascii.eqb c sep then EmptyString :: split sep s'
      else match split sep s' with
           | piece :: pieces => String c piece :: pieces
           | [] => [String c EmptyString]
           end
  end.

Definition isEmpty (s : string) : bool :=
  match s with EmptyString => true | _ => false end.

(** Every character of the string satisfies the test. *)
Fixpoint allChars (p : ascii -> bool) (w : string) : bool :=
  match w with
  | EmptyString => true
  | String c w' => p c && allChars p w'
  end.

(** The string does not start with a character that satisfies the
    test. *)
Definition stopsAt (p : ascii -> bool) (s : string) : Prop :=
  match s with
  | EmptyString => True
  | String c _ => p c = false
  end.



(** The string is in lower case: [toLowerCase] leaves it as it is. *)
Definition isLowerCase (s : string) : Prop := toLowerCase s = s.


(** No character of the string is [x]. *)
Definition noneIs (x : ascii) (w : string) : bool :=
  allChars (fun c => negb (Ascii.eqb c x)) w.

End JsString.

(* ===================================================================== *)
(** ** Regular expressions                                                *)
(* ===================================================================== *)

Module RegExp.
Import JsString.

(** The members of a character class [[...]]. *)
Inductive citem : Type :=
| CChar (c : ascii)            (* a single character *)
| CRange (lo hi : ascii)       (* lo-hi *)
| CSpace                       (* \s *)
| CNotSpace                    (* \S *)
| CDigit.                      (* \d *)

Global Arguments CChar c%_char.
Global Arguments CRange (lo hi)%_char.

(** The fragment of the regular expression syntax the program uses.
    Repetition is only ever applied to a character class. *)
Inductive regex : Type :=
| REps                                              (* empty pattern *)
| RLit (l : string)                                 (* literal text *)
| RClass (invert : bool) (items : list citem)       (* [...] and [^...] *)
| RStar (greedy : bool) (invert : bool) (items : list citem)
                                                    (* [...]* and [...]*? *)
| RSeq (a b : regex)
| RAlt (a b : regex)                                (* a|b *)
| ROpt (a : regex)                                  (* (?:a)? *)
| RGroup (n : nat) (a : regex)                      (* n-th capture group *)
| RBol                                              (* ^ *)
| REol.                                             (* $ *)

(** [[...]+] *)
Definition RPlus (greedy invert : bool) (items : list citem) : regex :=
  RSeq (RClass invert items) (RStar greedy invert items).

Definition sameChar (icase : bool) (a b : ascii) : bool :=
  if icase then Ascii.eqb (canonChar a) (canonChar b) else Ascii.eqb a b.

Definition inRange (lo hi c : ascii) : bool := between (code lo) (code hi) (code c).

Definition itemMatches (icase : bool) (it : citem) (c : ascii) : bool :=
  match it with
  | CChar x => sameChar icase x c
  | CRange lo hi =>
      inRange lo hi c ||
      (icase && (inRange lo hi (lowerChar c) || inRange lo hi (canonChar c)))
  | CSpace => isSpace c
  | CNotSpace => negb (isSpace c)
  | CDigit => isDigit c
  end.

Definition classMatches (icase invert : bool) (items : list citem) (c : ascii) : bool :=
  xorb invert (existsb (fun it => itemMatches icase it c) items).

(** The state of a match in progress: the index reached in the subject,
    the text from that index on, and the captures made so far. *)
Record mstate : Type := MState {
  pos : nat;
  rest : string;
  caps : list (nat * string)
}.

Fixpoint stripLit (icase : bool) (l s : string) : option string :=
  match l, s with
  | EmptyString, _ => Some s
  | String a l', String b s' => if sameChar icase a b then stripLit icase l' s' else None
  | String _ _, EmptyString => None
  end.

(** Greedy repetition of a class: take one more character first, give
    it back when the continuation fails. *)
Fixpoint starGreedy {R} (p : ascii -> bool) (n : nat) (s : string)
    (k : nat -> string -> option R) : option R :=
  match s with
  | String c s' =>
      if p c then
        match starGreedy p (S n) s' k with
        | Some r => Some r
        | None => k n s
        end
      else k n s
  | EmptyString => k n s
  end.

(** Lazy repetition: try the continuation first. *)
Fixpoint starLazy {R} (p : ascii -> bool) (n : nat) (s : string)
    (k : nat -> string -> option R) : option R :=
  match k n s with
  | Some r => Some r
  | None =>
      match s with
      | String c s' => if p c then starLazy p (S n) s' k else None
      | EmptyString => None
      end
  end.

(** The matcher, in continuation-passing style: [run icase r st k] is
    the first success, in the priority order of a backtracking matcher,
    of matching [r] at [st] and then [k]. *)
Fixpoint run (icase : bool) (r : regex) (st : mstate)
    (k : mstate -> option mstate) : option mstate :=
  match r with
  | REps => k st
  | RLit l =>
      match stripLit icase l (rest st) with
      | Some s' => k {| pos := pos st + String.length l; rest := s'; caps := caps st |}
      | None => None
      end
  | RClass invert items =>
      match rest st with
      | String c s' =>
          if classMatches icase invert items c
          then k {| pos := S (pos st); rest := s'; caps := caps st |}
          else None
      | EmptyString => None
      end
  | RStar greedy invert items =>
      (if greedy then starGreedy else starLazy)
        (classMatches icase invert items) 0 (rest st)
        (fun n s' => k {| pos := pos st + n; rest := s'; caps := caps st |})
  | RSeq a b => run icase a st (fun st' => run icase b st' k)
  | RAlt a b =>
      match run icase a st k with
      | Some r => Some r
      | None => run icase b st k
      end
  | ROpt a =>
      match run icase a st k with
      | Some r => Some r
      | None => k st
      end
  | RGroup n a =>
      run icase a st (fun st' =>
        k {| pos := pos st'; rest := rest st';
             caps := (n, take (pos st' - pos st) (rest st)) :: caps st' |})
  | RBol => if Nat.eqb (pos st) 0 then k st else None
  | REol => if isEmpty (rest st) then k st else None
  end.

(** The result of [exec]: the index of the match, its text ([m[0]]),
    the captures, and where the match ends. *)
Record Match : Type := MkMatch {
  index : nat;
  text : string;
  groups : list (nat * string);
  lastIndex : nat;
  after : string
}.

(** [m[n]]: the text of the n-th group, [None] when it did not take
    part in the match. *)
Fixpoint lookupGroup (n : nat) (g : list (nat * string)) : option string :=
  match g with
  | [] => None
  | (i, t) :: g' => if Nat.eqb i n then Some t else lookupGroup n g'
  end.

Definition group (n : nat) (m : Match) : option string := lookupGroup n (groups m).

(** [m[n]] where the pattern guarantees the group took part. *)
Definition group' (n : nat) (m : Match) : string := default EmptyString (group n m).

(** A match starting exactly at index [i], where [s] is the subject
    from [i] on. *)
Definition matchAt (icase : bool) (r : regex) (i : nat) (s : string) : option Match :=
  match run icase r {| pos := i; rest := s; caps := [] |} Some with
  | Some st =>
      Some {| index := i; text := take (pos st - i) s; groups := caps st;
              lastIndex := pos st; after := rest st |}
  | None => None
  end.

(** [re.exec] from index [i] on: the leftmost index at which the
    pattern matches; [s] is the subject from [i] on. *)
Fixpoint execFrom (icase : bool) (r : regex) (i : nat) (s : string) : option Match :=
  match matchAt icase r i s with
  | Some m => Some m
  | None =>
      match s with
      | String _ s' => execFrom icase r (S i) s'
      | EmptyString => None
      end
  end.

(** [s.match(re)] and [re.test(s)] for a pattern without the [g] flag. *)
Definition exec (icase : bool) (r : regex) (s : string) : option Match :=
  execFrom icase r 0 s.

Definition test (icase : bool) (r : regex) (s : string) : bool :=
  match exec icase r s with Some _ => true | None => false end.

(** [while ((m = re.exec(s)) !== null) body(m)] for a pattern with the
    [g] flag: each search resumes where the last match ended. The body
    is itself a computation that may fail to finish. The loop runs at
    most [fuel] times; [None] when it has not finished by then. *)
Fixpoint execLoop {A} (fuel : nat) (icase : bool) (r : regex) (i : nat)
    (s : string) (body : Match -> A -> option A) (acc : A) : option A :=
  match fuel with
  | 0 => None
  | S fuel' =>
      match execFrom icase r i s with
      | None => Some acc
      | Some m =>
          match body m acc with
          | Some acc' => execLoop fuel' icase r (lastIndex m) (after m) body acc'
          | None => None
          end
      end
  end.

(** The loop over a whole subject. A pattern whose matches are never
    empty moves on by at least one character each time, so the loop
    body runs at most [length s] times. *)
Definition whileExec {A} (icase : bool) (r : regex) (s : string)
    (body : Match -> A -> option A) (acc : A) : option A :=
  execLoop (S (String.length s)) icase r 0 s body acc.

(** The successive matches of the loop, in order. *)
Definition execAllFrom (fuel : nat) (icase : bool) (r : regex) (i : nat)
    (s : string) : option (list Match) :=
  execLoop fuel icase r i s (fun m acc => Some (acc ++ [m])) [].

Definition execAll (icase : bool) (r : regex) (s : string) : option (list Match) :=
  execAllFrom (S (String.length s)) icase r 0 s.

(** [s.replace(re, by)] for a pattern without the [g] flag: the first
    match is replaced. *)
Definition replaceFirst (icase : bool) (r : regex) (s by_ : string) : string :=
  match exec icase r s with
  | Some m => take (index m) s +:+ by_ +:+ after m
  | None => s
  end.

(** [s.replace(re, by)] for a pattern with the [g] flag: every match
    is replaced; after an empty match the search moves one character
    on. *)
Fixpoint replaceAllFrom (fuel : nat) (icase : bool) (r : regex) (i : nat)
    (s by_ : string) : string :=
  match fuel with
  | 0 => s
  | S fuel' =>
      match execFrom icase r i s with
      | None => s
      | Some m =>
          take (index m - i) s +:+ by_ +:+
          (if Nat.eqb (lastIndex m) (index m) then
             match after m with
             | String c s' => String c (replaceAllFrom fuel' icase r (S (lastIndex m)) s' by_)
             | EmptyString => EmptyString
             end
           else replaceAllFrom fuel' icase r (lastIndex m) (after m) by_)
      end
  end.

Definition replaceAll (icase : bool) (r : regex) (s by_ : string) : string :=
  replaceAllFrom (S (String.length s)) icase r 0 s by_.

(** Patterns are written as the sequence of their parts. *)
Fixpoint RCat (rs : list regex) : regex :=
  match rs with
  | [] => REps
  | [r] => r
  | r :: rs' => RSeq r (RCat rs')
  end.

(** [\s*] and [\s+] *)
Definition spaces0 : regex := RStar true false [CSpace].
Definition spaces1 : regex := RPlus true false [CSpace].

(** The least number of characters a match of the pattern takes. *)
Fixpoint minLen (r : regex) : nat :=
  match r with
  | REps | RStar _ _ _ | ROpt _ | RBol | REol => 0
  | RLit l => String.length l
  | RClass _ _ => 1
  | RSeq a b => minLen a + minLen b
  | RAlt a b => Nat.min (minLen a) (minLen b)
  | RGroup _ a => minLen a
  end.

(** The texts a pattern can match, whatever the priorities: the
    language of the pattern, anchors and groups left aside. *)
Fixpoint lang (icase : bool) (r : regex) (w : string) : Prop :=
  match r with
  | REps | RBol | REol => w = EmptyString
  | RLit l => stripLit icase l w = Some EmptyString
  | RClass invert items =>
      exists c, w = String c EmptyString /\ classMatches icase invert items c = true
  | RStar _ invert items => allChars (classMatches icase invert items) w = true
  | RSeq a b => exists w1 w2, w = w1 +:+ w2 /\ lang icase a w1 /\ lang icase b w2
  | RAlt a b => lang icase a w \/ lang icase b w
  | ROpt a => lang icase a w \/ w = EmptyString
  | RGroup _ a => lang icase a w
  end.

End RegExp.

(* ===================================================================== *)
(** ** src/lib/caniemail.ts                                               *)
(* ===================================================================== *)

Module Caniemail.
Import JsString RegExp.

(** [enum SupportLevels]: the members are the strings of the data. *)
Definition YES : string := "y".
Definition PARTIAL : string := "a".
Definition NO : string := "n".
Definition UNKNOWN : string := "u".

Inductive Category : Type := CatCss | CatHtml | CatImage | CatOthers.

Global Instance Category_eq_dec : EqDecision Category.
Proof. solve_decision. Defined.

(** The innermost level of [stats] maps a version to a raw support
    code; the order of its keys matters, so it is the list of the
    object's entries in the order [Object.keys] gives them. *)
Record CanIEmailFeature : Type := MkFeature {
  category : Category;
  description : string;
  keywords : option string;
  lastTestDate : string;
  notes : option string;
  notesByNum : option (gmap string string);
  slug : string;
  stats : gmap string (gmap string (list (string * string)));
  tags : list string;
  testResultsUrl : option string;
  testUrl : string;
  title : string;
  url : string
}.

Inductive FeatureType : Type :=
| FtCss | FtCssAtRule | FtHtmlElement | FtHtmlAttribute.

Inductive Severity : Type := SevError | SevWarning | SevSuccess.

Record MajorClient : Type := MkClient {
  family : string;
  label : string;
  platform : string
}.

Global Instance MajorClient_eq_dec : EqDecision MajorClient.
Proof. solve_decision. Defined.

Definition MAJOR_CLIENTS : list MajorClient := [
  {| family := "gmail"; label := "Gmail"; platform := "desktop-webmail" |};
  {| family := "outlook"; label := "Outlook Windows"; platform := "windows" |};
  {| family := "outlook"; label := "Outlook Mac"; platform := "macos" |};
  {| family := "outlook"; label := "Outlook.com"; platform := "outlook-com" |};
  {| family := "apple-mail"; label := "Apple Mail"; platform := "macos" |};
  {| family := "apple-mail"; label := "iOS Mail"; platform := "ios" |};
  {| family := "yahoo"; label := "Yahoo"; platform := "desktop-webmail" |};
  {| family := "samsung-email"; label := "Samsung Email"; platform := "android" |}
].

Record Summary : Type := MkSummary {
  partial : list MajorClient;
  supported : list MajorClient;
  unknown : list MajorClient;
  unsupported : list MajorClient
}.

Record CompatibilityIssue : Type := MkIssue {
  feature : CanIEmailFeature;
  featureType : FeatureType;
  property : string;
  severity : Severity;
  summary : Summary
}.

Record SupportLevel : Type := MkSupport {
  level : string;
  note : option string;
  version : string
}.

(** [obj[key]] on an object given by its entries. *)
Fixpoint getProp (obj : list (string * string)) (key : string) : option string :=
  match obj with
  | [] => None
  | (k, v) :: obj' => if String.eqb k key then Some v else getProp obj' key
  end.

(** [/^([ynau])\s*(?:#(\d+))?$/] *)
Definition levelRegex : regex :=
  RCat [RBol;
        RGroup 1 (RClass false [CChar "y"; CChar "n"; CChar "a"; CChar "u"]);
        spaces0;
        ROpt (RSeq (RLit "#") (RGroup 2 (RPlus true false [CDigit])));
        REol].

Definition getSupportLevel (feature : CanIEmailFeature) (family platform : string)
    : option SupportLevel :=
  match stats feature !! family with
  | None => None
  | Some familyStats =>
      match familyStats !! platform with
      | None => None
      | Some platformStats =>
          match last (map fst platformStats) with
          | None => None
          | Some latestVersion =>
              if isEmpty latestVersion then None else
              match getProp platformStats latestVersion with
              | None => None
              | Some rawValue =>
                  match exec false levelRegex rawValue with
                  | None => Some {| level := UNKNOWN; note := None; version := latestVersion |}
                  | Some levelMatch =>
                      let level := group' 1 levelMatch in
                      let noteNum := group 2 levelMatch in
                      let note :=
                        match noteNum with
                        | Some num =>
                            if isEmpty num then None
                            else match notesByNum feature with
                                 | Some byNum => byNum !! num
                                 | None => None
                                 end
                        | None => None
                        end in
                      Some {| level := level; note := note; version := latestVersion |}
                  end
              end
          end
      end
  end.

Definition emptySummary : Summary :=
  {| partial := []; supported := []; unknown := []; unsupported := [] |}.

(** One turn of the loop over the panel. *)
Definition summaryStep (feature : CanIEmailFeature) (result : Summary)
    (client : MajorClient) : Summary :=
  let pushUnknown :=
    {| partial := partial result; supported := supported result;
       unknown := unknown result ++ [client]; unsupported := unsupported result |} in
  match getSupportLevel feature (family client) (platform client) with
  | None => pushUnknown
  | Some support =>
      if String.eqb (level support) UNKNOWN then pushUnknown
      else if String.eqb (level support) YES then
        {| partial := partial result; supported := supported result ++ [client];
           unknown := unknown result; unsupported := unsupported result |}
      else if String.eqb (level support) PARTIAL then
        {| partial := partial result ++ [client]; supported := supported result;
           unknown := unknown result; unsupported := unsupported result |}
      else
        {| partial := partial result; supported := supported result;
           unknown := unknown result; unsupported := unsupported result ++ [client] |}
  end.

Definition getFeatureSupportSummary (feature : CanIEmailFeature) : Summary :=
  foldl (summaryStep feature) emptySummary MAJOR_CLIENTS.

Global Arguments getFeatureSupportSummary : simpl never.

(** [Set.prototype.add]: a set keeps its elements in insertion order. *)
Definition setAdd (x : string) (s : list string) : list string :=
  if bool_decide (x ∈ s) then s else s ++ [x].

(** The two variables the closure [processFeatures] updates. *)
Record ClassifierState : Type := MkClassifier {
  issues : list CompatibilityIssue;
  processedSlugs : list string
}.

Definition severityOf (summary : Summary) : Severity :=
  if 0 <? length (unsupported summary) then SevError
  else if 0 <? length (partial summary) then SevWarning
  else SevSuccess.

(** One turn of the loop of [processFeatures]. *)
Definition processItem (featureMap : gmap string CanIEmailFeature)
    (featureType : FeatureType) (formatProperty : string -> string)
    (st : ClassifierState) (item : string) : ClassifierState :=
  match featureMap !! item with
  | None => st
  | Some feature =>
      if bool_decide (slug feature ∈ processedSlugs st) then st
      else
        let processed := setAdd (slug feature) (processedSlugs st) in
        let summary := getFeatureSupportSummary feature in
        let severity := severityOf summary in
        {| issues := issues st ++
             [{| feature := feature; featureType := featureType;
                 property := formatProperty item; severity := severity;
                 summary := summary |}];
           processedSlugs := processed |}
  end.

Definition processFeatures (items : list string)
    (featureMap : gmap string CanIEmailFeature) (featureType : FeatureType)
    (formatProperty : string -> string) (st : ClassifierState) : ClassifierState :=
  foldl (processItem featureMap featureType formatProperty) st items.

Definition createCompatibilityIssues
    (extractedCssProperties extractedCssAtRules
     extractedHtmlElements extractedHtmlAttributes : list string)
    (cssPropertyMap htmlElementMap htmlAttributeMap : gmap string CanIEmailFeature)
    : list CompatibilityIssue :=
  let st := {| issues := []; processedSlugs := [] |} in
  let st := processFeatures extractedCssProperties cssPropertyMap FtCss id st in
  let st := processFeatures extractedCssAtRules cssPropertyMap FtCssAtRule id st in
  let st := processFeatures extractedHtmlElements htmlElementMap FtHtmlElement
              (fun el => "<" +:+ el +:+ ">") st in
  let st := processFeatures extractedHtmlAttributes htmlAttributeMap FtHtmlAttribute id st in
  issues st.

(** *** Notions used to state the properties of the classifier *)

(** The four lists of a summary, one after the other. *)
Definition allBuckets (s : Summary) : list MajorClient :=
  supported s ++ partial s ++ unsupported s ++ unknown s.

(** What [processFeatures] does with a feature an identifier resolved
    to, given as the issue to emit. *)
Definition emit (st : ClassifierState) (i : CompatibilityIssue) : ClassifierState :=
  if bool_decide (slug (feature i) ∈ processedSlugs st) then st
  else {| issues := issues st ++ [i];
          processedSlugs := setAdd (slug (feature i)) (processedSlugs st) |}.

Definition issueSlug (i : CompatibilityIssue) : string := slug (feature i).

(** The issue an identifier gives rise to when it resolves to
    [feature]. *)
Definition issueOf (featureType : FeatureType) (formatProperty : string -> string)
    (item : string) (feature : CanIEmailFeature) : CompatibilityIssue :=
  let summary := getFeatureSupportSummary feature in
  {| feature := feature; featureType := featureType;
     property := formatProperty item; severity := severityOf summary;
     summary := summary |}.

(** The issues of the identifiers of one category that resolve in the
    mapping, in the order of the identifiers. *)
Definition resolved (items : list string) (featureMap : gmap string CanIEmailFeature)
    (featureType : FeatureType) (formatProperty : string -> string)
    : list CompatibilityIssue :=
  omap (fun item => issueOf featureType formatProperty item <$> featureMap !! item) items.

(** All of them, in the order the classifier goes through the four
    categories. *)
Definition candidates
    (extractedCssProperties extractedCssAtRules
     extractedHtmlElements extractedHtmlAttributes : list string)
    (cssPropertyMap htmlElementMap htmlAttributeMap : gmap string CanIEmailFeature)
    : list CompatibilityIssue :=
  resolved extractedCssProperties cssPropertyMap FtCss id ++
  resolved extractedCssAtRules cssPropertyMap FtCssAtRule id ++
  resolved extractedHtmlElements htmlElementMap FtHtmlElement
    (fun el => "<" +:+ el +:+ ">") ++
  resolved extractedHtmlAttributes htmlAttributeMap FtHtmlAttribute id.

(** [i] is the first of the list [l] with its slug. *)
Definition firstWithSlug (l : list CompatibilityIssue) (i : CompatibilityIssue) : Prop :=
  exists before later,
    l = before ++ i :: later /\
    forall j, j ∈ before -> issueSlug j <> issueSlug i.

(** The latest raw support value recorded for a client: the value of
    the last key of [stats[family][platform]], with that key. *)
Definition latestRawValue (feature : CanIEmailFeature) (family platform : string)
    : option (string * string) :=
  match stats feature !! family with
  | None => None
  | Some familyStats =>
      match familyStats !! platform with
      | None => None
      | Some platformStats =>
          match last (map fst platformStats) with
          | None => None
          | Some latestVersion =>
              match getProp platformStats latestVersion with
              | None => None
              | Some rawValue => Some (latestVersion, rawValue)
              end
          end
      end
  end.

(** The client has no usable record: no entry for its family, none
    for its platform, or a latest raw value that is not a support
    code. *)
Definition noUsableData (feature : CanIEmailFeature) (client : MajorClient) : Prop :=
  stats feature !! family client = None \/
  (exists familyStats,
      stats feature !! family client = Some familyStats /\
      familyStats !! platform client = None) \/
  (exists latestVersion rawValue,
      latestRawValue feature (family client) (platform client)
        = Some (latestVersion, rawValue) /\
      exec false levelRegex rawValue = None).

(** The client goes to the [unknown] list. *)
Definition goesUnknown (f : CanIEmailFeature) (c : MajorClient) : Prop :=
  match getSupportLevel f (family c) (platform c) with
  | None => True
  | Some support => level support = UNKNOWN
  end.

(** The state [createCompatibilityIssues] starts from. *)
Definition start : ClassifierState := {| issues := []; processedSlugs := [] |}.

End Caniemail.

(* ===================================================================== *)
(** ** The reference index builders                                       *)
(* ===================================================================== *)

Module FeatureMaps.
Import JsString RegExp Caniemail.

(** [Map.prototype.has] *)
Definition has (map : gmap string CanIEmailFeature) (key : string) : bool :=
  match map !! key with Some _ => true | None => false end.

(** [keywords.split(',').map((k) => k.trim().toLowerCase())] *)
Definition splitKeywords (keywords : string) : list string :=
  map (fun k => toLowerCase (trim k)) (split "," keywords).

(** [/^css-/], [/-/g], [/^html-/], [/-attribute$/] *)
Definition cssPrefixRegex : regex := RCat [RBol; RLit "css-"].
Definition dashRegex : regex := RLit "-".
Definition htmlPrefixRegex : regex := RCat [RBol; RLit "html-"].
Definition attributeSuffixRegex : regex := RCat [RLit "-attribute"; REol].

(** [/<([a-z0-9-]+)>/i] *)
Definition titleTagRegex : regex :=
  RCat [RLit "<";
        RGroup 1 (RPlus true false [CRange "a" "z"; CRange "0" "9"; CChar "-"]);
        RLit ">"].

(** [/^([a-z0-9-]+)\s+element/i] *)
Definition titleElementRegex : regex :=
  RCat [RBol;
        RGroup 1 (RPlus true false [CRange "a" "z"; CRange "0" "9"; CChar "-"]);
        spaces1;
        RLit "element"].

(** [/([a-z-]+)\s+attribute/i] *)
Definition titleAttributeRegex : regex :=
  RCat [RGroup 1 (RPlus true false [CRange "a" "z"; CChar "-"]);
        spaces1;
        RLit "attribute"].

(** The body of the loop of [buildCssPropertyMap]. *)
Definition cssPropertyStep (map : gmap string CanIEmailFeature)
    (feature : CanIEmailFeature) : gmap string CanIEmailFeature :=
  if negb (bool_decide (category feature = CatCss)) then map else
  let propertyName :=
    replaceAll false dashRegex
      (replaceFirst false cssPrefixRegex (slug feature) "") "-" in
  let map := <[propertyName := feature]> map in
  let titleLower := toLowerCase (title feature) in
  let map :=
    if negb (String.eqb titleLower propertyName)
    then <[titleLower := feature]> map else map in
  match keywords feature with
  | Some kws =>
      if isEmpty kws then map else
      foldl (fun map keyword =>
               if negb (isEmpty keyword) && negb (has map keyword)
               then <[keyword := feature]> map else map)
            map (splitKeywords kws)
  | None => map
  end.

Definition buildCssPropertyMap (features : list CanIEmailFeature)
    : gmap string CanIEmailFeature :=
  foldl cssPropertyStep ∅ features.

(** The body of the loop of [buildHtmlElementMap]. *)
Definition htmlElementStep (map : gmap string CanIEmailFeature)
    (feature : CanIEmailFeature) : gmap string CanIEmailFeature :=
  if negb (bool_decide (category feature = CatHtml)) then map else
  let slugElement :=
    toLowerCase (replaceFirst false htmlPrefixRegex (slug feature) "") in
  let map :=
    if negb (isEmpty slugElement) && negb (includes slugElement "attribute")
    then <[slugElement := feature]> map else map in
  let map :=
    match exec true titleTagRegex (title feature) with
    | Some titleMatch => <[toLowerCase (group' 1 titleMatch) := feature]> map
    | None => map
    end in
  let map :=
    match exec true titleElementRegex (title feature) with
    | Some elementMatch => <[toLowerCase (group' 1 elementMatch) := feature]> map
    | None => map
    end in
  match keywords feature with
  | Some kws =>
      if isEmpty kws then map else
      foldl (fun map keyword =>
               if negb (isEmpty keyword) && negb (includes keyword " ")
                  && negb (has map keyword)
               then <[keyword := feature]> map else map)
            map (splitKeywords kws)
  | None => map
  end.

Definition buildHtmlElementMap (features : list CanIEmailFeature)
    : gmap string CanIEmailFeature :=
  foldl htmlElementStep ∅ features.

(** The body of the loop of [buildHtmlAttributeMap]. *)
Definition htmlAttributeStep (map : gmap string CanIEmailFeature)
    (feature : CanIEmailFeature) : gmap string CanIEmailFeature :=
  if negb (bool_decide (category feature = CatHtml)) then map else
  let map :=
    match exec true titleAttributeRegex (title feature) with
    | Some attrMatch => <[toLowerCase (group' 1 attrMatch) := feature]> map
    | None => map
    end in
  let map :=
    if includes (slug feature) "attribute" then
      let slugAttr :=
        replaceFirst false attributeSuffixRegex
          (replaceFirst false htmlPrefixRegex (slug feature) "") "" in
      <[slugAttr := feature]> map
    else map in
  match keywords feature with
  | Some kws =>
      if isEmpty kws then map else
      foldl (fun map keyword =>
               if negb (isEmpty keyword) && negb (includes keyword " ")
                  && negb (has map keyword)
               then <[keyword := feature]> map else map)
            map (splitKeywords kws)
  | None => map
  end.

Definition buildHtmlAttributeMap (features : list CanIEmailFeature)
    : gmap string CanIEmailFeature :=
  foldl htmlAttributeStep ∅ features.

(** *** Notions used to state the properties of the builders *)

(** The keys a feature registers with an unconditional [map.set], in
    the order of the calls: for the CSS mapping the slug without its
    prefix, and the lower-case title when it differs. *)
Definition cssSetKeys (feature : CanIEmailFeature) : list string :=
  let propertyName :=
    replaceAll false dashRegex
      (replaceFirst false cssPrefixRegex (slug feature) "") "-" in
  let titleLower := toLowerCase (title feature) in
  propertyName ::
  (if negb (String.eqb titleLower propertyName) then [titleLower] else []).

(** For the element mapping: the slug without its prefix, the tag
    name in the title, the name before "element" in the title. *)
Definition elementSetKeys (feature : CanIEmailFeature) : list string :=
  let slugElement :=
    toLowerCase (replaceFirst false htmlPrefixRegex (slug feature) "") in
  (if negb (isEmpty slugElement) && negb (includes slugElement "attribute")
   then [slugElement] else []) ++
  match exec true titleTagRegex (title feature) with
  | Some titleMatch => [toLowerCase (group' 1 titleMatch)]
  | None => []
  end ++
  match exec true titleElementRegex (title feature) with
  | Some elementMatch => [toLowerCase (group' 1 elementMatch)]
  | None => []
  end.

(** For the attribute mapping: the name before "attribute" in the
    title, the slug without its prefix and suffix. *)
Definition attributeSetKeys (feature : CanIEmailFeature) : list string :=
  match exec true titleAttributeRegex (title feature) with
  | Some attrMatch => [toLowerCase (group' 1 attrMatch)]
  | None => []
  end ++
  (if includes (slug feature) "attribute" then
     [replaceFirst false attributeSuffixRegex
        (replaceFirst false htmlPrefixRegex (slug feature) "") ""]
   else []).

(** The keywords a feature offers as keys: the non-empty ones for the
    CSS mapping, the non-empty ones without a space for the other
    two. *)
Definition keywordKeys (accept : string -> bool) (feature : CanIEmailFeature)
    : list string :=
  match keywords feature with
  | Some kws =>
      if isEmpty kws then []
      else List.filter (fun k => negb (isEmpty k) && accept k) (splitKeywords kws)
  | None => []
  end.

Definition anyKeyword (k : string) : bool := true.
Definition singleWord (k : string) : bool := negb (includes k " ").

(** The feature is of the category the mapping is for, and [key] is
    among the keys [keys] it claims. *)
Definition claims (category_ : Category) (keys : CanIEmailFeature -> list string)
    (key : string) (feature : CanIEmailFeature) : bool :=
  bool_decide (category feature = category_) && bool_decide (key ∈ keys feature).

(** The first feature, in the order of the dataset, that claims the
    key in any of the ways. *)
Definition firstClaimant (category_ : Category)
    (setKeys keywords_ : CanIEmailFeature -> list string)
    (features : list CanIEmailFeature) (key : string) : option CanIEmailFeature :=
  List.find (fun f => claims category_ setKeys key f || claims category_ keywords_ key f)
    features.

(** The last feature that claims the key through its slug or title
    when there is one, and otherwise the first feature that claims it
    through a keyword. *)
Definition resolveKey (category_ : Category)
    (setKeys keywords_ : CanIEmailFeature -> list string)
    (features : list CanIEmailFeature) (key : string) : option CanIEmailFeature :=
  match List.find (claims category_ setKeys key) (List.rev features) with
  | Some f => Some f
  | None => List.find (claims category_ keywords_ key) features
  end.

(** What one turn of a builder does with the keys a feature claims. *)
Definition registerKeys (category_ : Category)
    (setKeys keywords_ : CanIEmailFeature -> list string)
    (map : gmap string CanIEmailFeature) (feature : CanIEmailFeature)
    : gmap string CanIEmailFeature :=
  if negb (bool_decide (category feature = category_)) then map else
  foldl (fun map keyword => if has map keyword then map else <[keyword := feature]> map)
    (foldl (fun map key => <[key := feature]> map) map (setKeys feature))
    (keywords_ feature).

End FeatureMaps.

(* ===================================================================== *)
(** ** src/lib/feature-extractor.ts                                       *)
(* ===================================================================== *)

Module FeatureExtractor.
Import JsString RegExp.

(** The tree PostCSS returns: declarations, at-rules and rules with
    their children, comments. An at-rule without a block has no
    children. *)
Inductive Node : Type :=
| Decl (prop value : string)
| AtRule (name params : string) (nodes : list Node)
| Rule (selector : string) (nodes : list Node)
| Comment (text : string).

Definition Root : Type := list Node.

(** [root.walk(cb)]: every node below the root, parents before their
    children, in document order. *)
Fixpoint walkNode {A} (cb : Node -> A -> A) (node : Node) (acc : A) : A :=
  let acc := cb node acc in
  match node with
  | AtRule _ _ nodes | Rule _ nodes =>
      foldl (fun acc child => walkNode cb child acc) acc nodes
  | Decl _ _ | Comment _ => acc
  end.

Definition walk {A} (cb : Node -> A -> A) (root : Root) (acc : A) : A :=
  foldl (fun acc child => walkNode cb child acc) acc root.

Definition setAdd := Caniemail.setAdd.

(** The catalogue of [extractValueFeatures]: each feature with its
    pattern, a literal text ([/linear-gradient/i], ...) or a function
    name, optional white space and an opening parenthesis
    ([/calc\s*\(/i], ...). *)
Definition cssFeatures : list (string * regex) := [
  ("linear-gradient", RLit "linear-gradient");
  ("radial-gradient", RLit "radial-gradient");
  ("conic-gradient", RLit "conic-gradient");
  ("repeating-linear-gradient", RLit "repeating-linear-gradient");
  ("repeating-radial-gradient", RLit "repeating-radial-gradient");
  ("calc", RCat [RLit "calc"; spaces0; RLit "("]);
  ("css variables", RCat [RLit "var"; spaces0; RLit "("]);
  ("clamp", RCat [RLit "clamp"; spaces0; RLit "("]);
  ("min", RCat [RLit "min"; spaces0; RLit "("]);
  ("max", RCat [RLit "max"; spaces0; RLit "("]);
  ("fit-content", RLit "fit-content");
  ("min-content", RLit "min-content");
  ("max-content", RLit "max-content")
].

Definition extractValueFeatures (value : string) (properties : list string)
    : list string :=
  foldl (fun properties '(feature, pattern) =>
           if test true pattern value then setAdd feature properties
           else properties)
        properties cssFeatures.

(** [/^-(?:webkit|moz|ms|o)-/] *)
Definition vendorPrefixRegex : regex :=
  RCat [RBol; RLit "-";
        RAlt (RLit "webkit") (RAlt (RLit "moz") (RAlt (RLit "ms") (RLit "o")));
        RLit "-"].

(** The callback of the walk of [extractPropertiesFromAst]; [values]
    maps a property to the set of its values. *)
Definition propertiesCallback (node : Node)
    (st : list string * gmap string (list string))
    : list string * gmap string (list string) :=
  let '(properties, values) := st in
  match node with
  | Decl declProp declValue =>
      let prop := toLowerCase declProp in
      let isVendorProperty := startsWith prop "-" in
      let properties :=
        if isVendorProperty then
          let unprefixed := replaceFirst false vendorPrefixRegex prop "" in
          setAdd unprefixed properties
        else setAdd prop properties in
      let value := toLowerCase declValue in
      let values :=
        if negb (bool_decide (is_Some (values !! prop)))
        then <[prop := []]> values else values in
      let values := <[prop := setAdd value (default [] (values !! prop))]> values in
      (extractValueFeatures value properties, values)
  | _ => st
  end.

Definition extractPropertiesFromAst (root : Root) (properties : list string)
    (values : gmap string (list string))
    : list string * gmap string (list string) :=
  walk propertiesCallback root (properties, values).

(** [/\(\s*([a-z-]+)\s*(?::|,|\))/gi] *)
Definition featureRegex : regex :=
  RCat [RLit "("; spaces0;
        RGroup 1 (RPlus true false [CRange "a" "z"; CChar "-"]);
        spaces0;
        RAlt (RLit ":") (RAlt (RLit ",") (RLit ")"))].

Definition extractMediaFeatures (params : string) (atRules : list string)
    : option (list string) :=
  whileExec true featureRegex params
    (fun m atRules =>
       let feature := toLowerCase (group' 1 m) in
       Some (setAdd ("@media (" +:+ feature +:+ ")") atRules))
    atRules.

(** The callback of the walk of [extractAtRulesFromAst]. The scan of
    the parameters is a loop, so the callback works on the state of a
    computation that may not have finished. *)
Definition atRulesCallback (node : Node) (st : option (list string))
    : option (list string) :=
  match st with
  | None => None
  | Some atRules =>
      match node with
      | AtRule ruleNameRaw params _ =>
          let ruleName := "@" +:+ toLowerCase ruleNameRaw in
          let atRules := setAdd ruleName atRules in
          let st :=
            if String.eqb (toLowerCase ruleNameRaw) "media" && negb (isEmpty params)
            then extractMediaFeatures params atRules
            else Some atRules in
          match st with
          | None => None
          | Some atRules =>
              if String.eqb (toLowerCase ruleNameRaw) "supports"
              then Some (setAdd "@supports" atRules)
              else Some atRules
          end
      | _ => Some atRules
      end
  end.

Definition extractAtRulesFromAst (root : Root) (atRules : list string)
    : option (list string) :=
  walk atRulesCallback root (Some atRules).

(** [/\/\*[\s\S]*?\*\//g] and [/([a-z-]+)\s*:/gi] *)
Definition commentRegex : regex :=
  RCat [RLit "/*"; RStar false false [CSpace; CNotSpace]; RLit "*/"].

Definition propertyRegex : regex :=
  RCat [RGroup 1 (RPlus true false [CRange "a" "z"; CChar "-"]);
        spaces0; RLit ":"].

Definition extractPropertiesSimple (css : string) (properties : list string)
    : option (list string) :=
  let css := replaceAll false commentRegex css "" in
  whileExec true propertyRegex css
    (fun m properties =>
       let property := toLowerCase (group' 1 m) in
       if (1 <? String.length property) && negb (startsWith property "-")
       then Some (setAdd property properties)
       else Some properties)
    properties.

(** [/@([a-z-]+)/gi] *)
Definition atRuleRegex : regex :=
  RCat [RLit "@"; RGroup 1 (RPlus true false [CRange "a" "z"; CChar "-"])].

Definition extractAtRulesSimple (css : string) (atRules : list string)
    : option (list string) :=
  whileExec true atRuleRegex css
    (fun m atRules => Some (setAdd ("@" +:+ toLowerCase (group' 1 m)) atRules))
    atRules.

(** [/<([a-z][a-z0-9-]* )/gi] (written here with a space before the
    closing parenthesis) *)
Definition tagRegex : regex :=
  RCat [RLit "<";
        RGroup 1 (RSeq (RClass false [CRange "a" "z"])
                       (RStar true false [CRange "a" "z"; CRange "0" "9"; CChar "-"]))].

Definition extractHtmlElements (html : string) : option (list string) :=
  whileExec true tagRegex html
    (fun m elements => Some (setAdd (toLowerCase (group' 1 m)) elements)) [].

(** [/\s([a-z][a-z0-9-]* )\s*=/gi] (written here with a space before
    the closing parenthesis) *)
Definition attrRegex : regex :=
  RCat [RClass false [CSpace];
        RGroup 1 (RSeq (RClass false [CRange "a" "z"])
                       (RStar true false [CRange "a" "z"; CRange "0" "9"; CChar "-"]));
        spaces0; RLit "="].

Definition extractHtmlAttributes (html : string) : option (list string) :=
  whileExec true attrRegex html
    (fun m attributes => Some (setAdd (toLowerCase (group' 1 m)) attributes)) [].

(** [/style\s*=\s*[Q']([^Q']+)[Q']/gi], where Q stands for the double
    quote character (code 34) *)
Definition inlineStyleRegex : regex :=
  RCat [RLit "style"; spaces0; RLit "="; spaces0;
        RClass false [CChar "034"; CChar "'"];
        RGroup 1 (RPlus true true [CChar "034"; CChar "'"]);
        RClass false [CChar "034"; CChar "'"]].

(** [/<style[^>]*>([\s\S]*?)<\/style>/gi] *)
Definition styleTagRegex : regex :=
  RCat [RLit "<style"; RStar true true [CChar ">"]; RLit ">";
        RGroup 1 (RStar false false [CSpace; CNotSpace]);
        RLit "</style>"].

(** What [extractFeatures] returns. [cssValues] is the map of the
    values seen for each property, which [extractFeatures] builds next
    to the two CSS sets; it is part of the result here (as in the
    version of the extractor that declares the type
    [ExtractedFeatures]) so that what it holds can be stated. *)
Record ExtractedFeatures : Type := MkExtracted {
  cssAtRules : list string;
  cssProperties : list string;
  cssValues : gmap string (list string);
  htmlAttributes : list string;
  htmlElements : list string
}.

Section WithParser.

(** [safeParser(css)] of postcss-safe-parser: the tree, or [None]
    when the call throws. *)
Variable safeParser : string -> option Root.

Definition extractInlineStyles (html : string) (properties : list string)
    (values : gmap string (list string))
    : option (list string * gmap string (list string)) :=
  whileExec true inlineStyleRegex html
    (fun m '(properties, values) =>
       let styleContent := group' 1 m in
       let wrappedCss := "* { " +:+ styleContent +:+ " }" in
       match safeParser wrappedCss with
       | Some root => Some (extractPropertiesFromAst root properties values)
       | None =>
           match extractPropertiesSimple styleContent properties with
           | Some properties => Some (properties, values)
           | None => None
           end
       end)
    (properties, values).

Definition extractStyleTags (html : string) (properties atRules : list string)
    (values : gmap string (list string))
    : option (list string * list string * gmap string (list string)) :=
  whileExec true styleTagRegex html
    (fun m '(properties, atRules, values) =>
       let cssContent := group' 1 m in
       match safeParser cssContent with
       | Some root =>
           let '(properties, values) :=
             extractPropertiesFromAst root properties values in
           match extractAtRulesFromAst root atRules with
           | Some atRules => Some (properties, atRules, values)
           | None => None
           end
       | None =>
           match extractPropertiesSimple cssContent properties with
           | Some properties =>
               match extractAtRulesSimple cssContent atRules with
               | Some atRules => Some (properties, atRules, values)
               | None => None
               end
           | None => None
           end
       end)
    (properties, atRules, values).

Definition extractFeatures (html : string) : option ExtractedFeatures :=
  match extractInlineStyles html [] ∅ with
  | None => None
  | Some (cssProperties, cssValues) =>
      match extractStyleTags html cssProperties [] cssValues with
      | None => None
      | Some (cssProperties, cssAtRules, cssValues) =>
          match extractHtmlAttributes html with
          | None => None
          | Some htmlAttributes =>
              match extractHtmlElements html with
              | None => None
              | Some htmlElements =>
                  Some {| cssAtRules := cssAtRules;
                          cssProperties := cssProperties;
                          cssValues := cssValues;
                          htmlAttributes := htmlAttributes;
                          htmlElements := htmlElements |}
              end
          end
      end
  end.

End WithParser.

(** *** Notions used to state the properties of the extractor *)

(** The nodes of a tree in the order of the walk. *)
Fixpoint nodesBelow (node : Node) : list Node :=
  node ::
  match node with
  | AtRule _ _ nodes | Rule _ nodes => flat_map nodesBelow nodes
  | Decl _ _ | Comment _ => []
  end.

Definition allNodes (root : Root) : list Node := flat_map nodesBelow root.

Definition vendorPrefixes : list string := ["-webkit-"; "-moz-"; "-ms-"; "-o-"].

(** The name [extractPropertiesFromAst] records for a declaration
    whose lower-case property name is [prop]. *)
Definition recordedName (prop : string) : string :=
  if startsWith prop "-" then replaceFirst false vendorPrefixRegex prop "" else prop.

(** The names the lenient scan of [css] keeps as properties: the
    lower-case names before a colon that have at least two characters
    and do not start with a dash. *)
Definition keptBySimpleScan (property : string) : bool :=
  (1 <? String.length property) && negb (startsWith property "-").

Definition simpleProperties (css : string) : option (list string) :=
  match execAll true propertyRegex (replaceAll false commentRegex css "") with
  | Some ms =>
      Some (List.filter keptBySimpleScan ((fun m => toLowerCase (group' 1 m)) <$> ms))
  | None => None
  end.

(** The at-rules the lenient scan of [css] finds. *)
Definition simpleAtRules (css : string) : option (list string) :=
  match execAll true atRuleRegex css with
  | Some ms => Some ((fun m => "@" +:+ toLowerCase (group' 1 m)) <$> ms)
  | None => None
  end.

(** The media features of the parameters of an [@media] rule, as the
    at-rule set records them. *)
Definition mediaFeatureKeys (params : string) : option (list string) :=
  match execAll true featureRegex params with
  | Some ms =>
      Some ((fun m => "@media (" +:+ toLowerCase (group' 1 m) +:+ ")") <$> ms)
  | None => None
  end.

(** The sets record every declaration of the tree: its name, its
    value under its lower-case name, and the value-level features of
    its value. *)
Definition declarationsRecorded (root : Root) (properties : list string)
    (values : gmap string (list string)) : Prop :=
  forall declProp declValue,
    Decl declProp declValue ∈ allNodes root ->
    recordedName (toLowerCase declProp) ∈ properties /\
    (exists seen, values !! toLowerCase declProp = Some seen /\
                  toLowerCase declValue ∈ seen) /\
    (forall feature pattern,
        (feature, pattern) ∈ cssFeatures ->
        test true pattern (toLowerCase declValue) = true ->
        feature ∈ properties).

(** The at-rule set records every at-rule of the tree: its name, and
    for a media rule the features of its parameters. *)
Definition atRulesRecorded (root : Root) (atRules : list string) : Prop :=
  forall name params nodes,
    AtRule name params nodes ∈ allNodes root ->
    ("@" +:+ toLowerCase name) ∈ atRules /\
    (toLowerCase name = "media" ->
     exists keys, mediaFeatureKeys params = Some keys /\ keys ⊆ atRules).


(** Every set of values only grows. *)
Definition valuesLe (v1 v2 : gmap string (list string)) : Prop :=
  forall key seen, v1 !! key = Some seen ->
    exists seen', v2 !! key = Some seen' /\ seen ⊆ seen'.

(** What the extractor owes to one [style] attribute and to one
    [style] block, given by its match. *)
Definition inlineStyleRecorded (safeParser : string -> option Root) (m : Match)
    (properties : list string) (values : gmap string (list string)) : Prop :=
  match safeParser ("* { " +:+ group' 1 m +:+ " }") with
  | Some root => declarationsRecorded root properties values
  | None =>
      exists names, simpleProperties (group' 1 m) = Some names /\ names ⊆ properties
  end.

Definition styleBlockRecorded (safeParser : string -> option Root) (m : Match)
    (properties atRules : list string) (values : gmap string (list string)) : Prop :=
  match safeParser (group' 1 m) with
  | Some root =>
      declarationsRecorded root properties values /\ atRulesRecorded root atRules
  | None =>
      (exists names, simpleProperties (group' 1 m) = Some names /\ names ⊆ properties) /\
      (exists rules, simpleAtRules (group' 1 m) = Some rules /\ rules ⊆ atRules)
  end.

(** [root] is the tree the parser returned for one of the [style]
    blocks of the document; for one of its [style] attributes or
    blocks. *)
Definition isParsedStyleBlock (safeParser : string -> option Root) (html : string)
    (root : Root) : Prop :=
  exists ms m,
    execAll true styleTagRegex html = Some ms /\ m ∈ ms /\
    safeParser (group' 1 m) = Some root.

Definition isParsedTree (safeParser : string -> option Root) (html : string)
    (root : Root) : Prop :=
  (exists ms m,
      execAll true inlineStyleRegex html = Some ms /\ m ∈ ms /\
      safeParser ("* { " +:+ group' 1 m +:+ " }") = Some root) \/
  isParsedStyleBlock safeParser html root.


(** A parser given by the finite list of the texts it accepts, with
    the tree of each; it throws on every other text. *)
Definition parserOfTable (table : list (string * Root)) (css : string) : option Root :=
  snd <$> List.find (fun entry => String.eqb (fst entry) css) table.

(** What [vendorPrefixRegex] removes from the start of [s]: the rest
    of [s] after the prefix, read off the pattern part by part. *)
Definition vendorMatch (s : string) : option string :=
  match stripPrefix "-" s with
  | None => None
  | Some s1 =>
      match stripPrefix "webkit" s1 ≫= stripPrefix "-" with
      | Some s2 => Some s2
      | None =>
          match stripPrefix "moz" s1 ≫= stripPrefix "-" with
          | Some s2 => Some s2
          | None =>
              match stripPrefix "ms" s1 ≫= stripPrefix "-" with
              | Some s2 => Some s2
              | None => stripPrefix "o" s1 ≫= stripPrefix "-"
              end
          end
      end
  end.

(** The turns of the loops, as functions of the state first. *)
Definition valueStep (value : string) (properties : list string)
    (entry : string * regex) : list string :=
  let '(feature, pattern) := entry in
  if test true pattern value then setAdd feature properties else properties.

Definition propertiesStep (st : list string * gmap string (list string)) (node : Node)
    : list string * gmap string (list string) :=
  propertiesCallback node st.

Definition atRulesStep (st : option (list string)) (node : Node) : option (list string) :=
  atRulesCallback node st.

(** One declaration, one at-rule is recorded. *)
Definition declRecorded (p v : string) (st : list string * gmap string (list string)) : Prop :=
  recordedName (toLowerCase p) ∈ st.1 /\
  (exists seen, st.2 !! toLowerCase p = Some seen /\ toLowerCase v ∈ seen) /\
  (forall feature pattern,
      (feature, pattern) ∈ cssFeatures ->
      test true pattern (toLowerCase v) = true ->
      feature ∈ st.1).

Definition atRuleRecorded (name params : string) (atRules : list string) : Prop :=
  ("@" +:+ toLowerCase name) ∈ atRules /\
  (toLowerCase name = "media" ->
   exists keys, mediaFeatureKeys params = Some keys /\ keys ⊆ atRules).

(** What an at-rule node gives to the at-rule set: its name, and for
    a media rule the keys of the features of its parameters. *)
Definition atRuleKey (name params rule : string) : Prop :=
  rule = "@" +:+ toLowerCase name \/
  (toLowerCase name = "media" /\
   exists keys, mediaFeatureKeys params = Some keys /\ rule ∈ keys).

(** What one [style] block, given by its match, gives to the at-rule
    set: the keys of the at-rules of its tree, or what the lenient
    scan finds when the parser throws. *)
Definition fromStyleBlock (safeParser : string -> option Root) (block : Match)
    (rule : string) : Prop :=
  match safeParser (group' 1 block) with
  | Some root =>
      exists name params nodes,
        AtRule name params nodes ∈ allNodes root /\ atRuleKey name params rule
  | None =>
      exists rules, simpleAtRules (group' 1 block) = Some rules /\ rule ∈ rules
  end.

(** Every value the map holds was declared: a value under a key is
    the lower-case value of a declaration, in one of the trees
    [trees], whose lower-case name is the key. *)
Definition valuesDeclared (trees : Root -> Prop) (values : gmap string (list string))
    : Prop :=
  forall key seen val,
    values !! key = Some seen -> val ∈ seen ->
    exists root declProp declValue,
      trees root /\ Decl declProp declValue ∈ allNodes root /\
      toLowerCase declProp = key /\ toLowerCase declValue = val.

(** The trees of the [style] attributes and of the [style] blocks
    among the matches [ms]. *)
Definition inlineTreeOf (safeParser : string -> option Root) (ms : list Match)
    (root : Root) : Prop :=
  exists m, m ∈ ms /\ safeParser ("* { " +:+ group' 1 m +:+ " }") = Some root.

Definition blockTreeOf (safeParser : string -> option Root) (ms : list Match)
    (root : Root) : Prop :=
  exists m, m ∈ ms /\ safeParser (group' 1 m) = Some root.

End FeatureExtractor.

(* ===================================================================== *)
(** ** Sample data                                                        *)
(* ===================================================================== *)

Module Examples.
Import JsString RegExp Caniemail FeatureMaps FeatureExtractor.

(** The double quote character, as a string. *)
Definition dq : string := String "034" EmptyString.

Definition sampleFeature (category_ : Category) (slug_ title_ : string)
    (keywords_ : option string)
    (stats_ : gmap string (gmap string (list (string * string))))
    (notesByNum_ : option (gmap string string)) : CanIEmailFeature :=
  {| category := category_; description := ""; keywords := keywords_;
     lastTestDate := "2024-01-01"; notes := None; notesByNum := notesByNum_;
     slug := slug_; stats := stats_; tags := []; testResultsUrl := None;
     testUrl := ""; title := title_; url := "" |}.

(** The feature of the end-to-end scenario of the specification: not
    supported by Outlook on Windows, supported by Gmail. *)
Definition borderRadius : CanIEmailFeature :=
  sampleFeature CatCss "css-border-radius" "border-radius" None
    {[ "outlook" := {[ "windows" := [("2016", "n"); ("2019", "n")] ]};
       "gmail" := {[ "desktop-webmail" := [("2019-08", "y")] ]} ]}
    None.

(** A feature whose latest Gmail result refers to a footnote that the
    notes do not have. *)
Definition withMissingNote : CanIEmailFeature :=
  sampleFeature CatCss "css-gap" "gap" None
    {[ "gmail" := {[ "desktop-webmail" := [("2020-01", "y"); ("2021-06", "a #3")] ]} ]}
    (Some {[ "1" := "Buggy" ]}).

Definition gmail : MajorClient :=
  {| family := "gmail"; label := "Gmail"; platform := "desktop-webmail" |}.
Definition outlookWindows : MajorClient :=
  {| family := "outlook"; label := "Outlook Windows"; platform := "windows" |}.
Definition yahoo : MajorClient :=
  {| family := "yahoo"; label := "Yahoo"; platform := "desktop-webmail" |}.

(** Two CSS features: the first offers "gradient" as a keyword, the
    slug of the second is that name. *)
Definition cssBackground : CanIEmailFeature :=
  sampleFeature CatCss "css-background" "background" (Some "gradient, image") ∅ None.
Definition cssGradient : CanIEmailFeature :=
  sampleFeature CatCss "css-gradient" "gradient" None ∅ None.

(** Two HTML features whose titles both name the tag "video". *)
Definition htmlVideo : CanIEmailFeature :=
  sampleFeature CatHtml "html-video" "<video> element" None ∅ None.
Definition htmlVideoPoster : CanIEmailFeature :=
  sampleFeature CatHtml "html-video-poster" "poster of <video>" None ∅ None.

(** Two HTML features whose titles both name the attribute "align". *)
Definition htmlAlign : CanIEmailFeature :=
  sampleFeature CatHtml "html-align-attribute" "align attribute" None ∅ None.
Definition htmlValign : CanIEmailFeature :=
  sampleFeature CatHtml "html-valign-attribute" "valign and align attribute" None ∅ None.

(** [<div style="-webkit-border-radius:4px">], and the tree of its
    wrapped style. *)
Definition prefixedHtml : string :=
  "<div style=" +:+ dq +:+ "-webkit-border-radius:4px" +:+ dq +:+ ">".
Definition prefixedTree : Root :=
  [Rule "*" [Decl "-webkit-border-radius" "4px"]].
Definition prefixedParser : string -> option Root :=
  parserOfTable [("* { -webkit-border-radius:4px }", prefixedTree)].

(** A custom property in a style attribute. *)
Definition customHtml : string := "<p style='--Brand: red'>".
Definition customTree : Root := [Rule "*" [Decl "--Brand" "red"]].
Definition customParser : string -> option Root :=
  parserOfTable [("* { --Brand: red }", customTree)].


(** A media query inside a style attribute. *)
Definition inlineMediaHtml : string := "<div style='@media (x){color:red}'>".
Definition inlineMediaTree : Root :=
  [Rule "*" [AtRule "media" "(x)" [Decl "color" "red"]]].
Definition inlineMediaParser : string -> option Root :=
  parserOfTable [("* { @media (x){color:red} }", inlineMediaTree)].



End Examples.

(* ===================================================================== *)
(** ** Further notions about patterns                                     *)
(* ===================================================================== *)

Module RegExpNotions.
Import JsString RegExp.

(** The pattern has no capture group. *)
Fixpoint noGroups (r : regex) : bool :=
  match r with
  | REps | RLit _ | RClass _ _ | RStar _ _ _ | RBol | REol => true
  | RSeq a b | RAlt a b => noGroups a && noGroups b
  | ROpt a => noGroups a
  | RGroup _ _ => false
  end.

End RegExpNotions.

(* ===================================================================== *)
(** ** Further notions about support levels                               *)
(* ===================================================================== *)

Module SupportNotions.
Import JsString RegExp Caniemail.

(** The characters of the four support codes. *)
Definition supportCodes : list ascii := ["y"; "n"; "a"; "u"]%char.

(** A raw support value as the data writes it: a support code,
    optional white space, and optionally [#] and the number of a
    footnote. *)
Definition rawSupportValue (code : ascii) (ws : string) (noteNum : option string)
    : string :=
  String code
    (ws +:+ match noteNum with Some num => "#" +:+ num | None => "" end).

(** The footnote a number refers to, when the feature has it. *)
Definition footnote (feature : CanIEmailFeature) (noteNum : option string)
    : option string :=
  match noteNum with
  | Some num =>
      match notesByNum feature with
      | Some byNum => byNum !! num
      | None => None
      end
  | None => None
  end.

(** The latest result of the client is the level [l]. *)
Definition hasLevel (feature : CanIEmailFeature) (l : string) (client : MajorClient)
    : bool :=
  match getSupportLevel feature (family client) (platform client) with
  | Some support => String.eqb (level support) l
  | None => false
  end.

(** The client has no result, or its latest result is the level
    unknown. *)
Definition hasNoLevel (feature : CanIEmailFeature) (client : MajorClient) : bool :=
  match getSupportLevel feature (family client) (platform client) with
  | Some support => String.eqb (level support) UNKNOWN
  | None => true
  end.

(** [raw] is a well-formed raw support value with the code [code] and
    the footnote number [noteNum]: the code, optional white space, and
    when there is a footnote [#] and its decimal number. *)
Definition isSupportValue (raw : string) (code : ascii) (noteNum : option string)
    : Prop :=
  exists ws,
    raw = rawSupportValue code ws noteNum /\
    code ∈ supportCodes /\
    allChars isSpace ws = true /\
    (forall num, noteNum = Some num -> num <> "" /\ allChars isDigit num = true).

End SupportNotions.

(* ===================================================================== *)
(** ** src/components/custom/compatibility-report.tsx                     *)
(* ===================================================================== *)

Module CompatibilityReport.
Import JsString Caniemail.

(** [getEmbedUrl] of [src/lib/caniemail.ts]: the address of the
    embedded support table of a feature. *)
Definition getEmbedUrl (slug : string) : string :=
  "https://embed.caniemail.com/" +:+ slug +:+ "/".

(** The type [CompatibilityIssue] the component declares: an issue
    without the feature type. *)
Record CompatibilityIssue : Type := MkIssue {
  feature : CanIEmailFeature;
  property : string;
  severity : Severity;
  summary : Summary
}.

(** The state [filter] of the component. *)
Inductive Filter : Type := FilterAll | FilterErrors | FilterWarnings.

(** [a === b] on severities. *)
Definition sameSeverity (a b : Severity) : bool :=
  match a, b with
  | SevError, SevError | SevWarning, SevWarning | SevSuccess, SevSuccess => true
  | _, _ => false
  end.

(** [const order = { error: 0, success: 2, warning: 1 }] *)
Definition order (s : Severity) : Z :=
  match s with
  | SevError => 0
  | SevSuccess => 2
  | SevWarning => 1
  end.

(** [Array.prototype.sort(compare)]. The sort of ECMAScript is stable,
    and for a comparison that orders the elements by a key the result
    is then determined: the elements in the order of their keys, those
    with the same key in the order they had. It is computed here by
    insertion from the right, a new element going before the first
    element that does not compare below it. *)
Fixpoint insertSorted {A} (compare : A -> A -> Z) (x : A) (sorted : list A) : list A :=
  match sorted with
  | [] => [x]
  | y :: rest =>
      if (compare x y <=? 0)%Z then x :: sorted
      else y :: insertSorted compare x rest
  end.

Definition sort {A} (compare : A -> A -> Z) (l : list A) : list A :=
  foldr (insertSorted compare) [] l.

(** What the [useMemo] of [CompatibilityReport] computes from the
    issues and the filter. *)
Record ReportLists : Type := MkLists {
  errors : list CompatibilityIssue;
  filteredIssues : list CompatibilityIssue;
  successes : list CompatibilityIssue;
  warnings : list CompatibilityIssue
}.

Definition reportLists (issues : list CompatibilityIssue) (filter : Filter)
    : ReportLists :=
  let errors := List.filter (fun i => sameSeverity (severity i) SevError) issues in
  let warnings := List.filter (fun i => sameSeverity (severity i) SevWarning) issues in
  let successes := List.filter (fun i => sameSeverity (severity i) SevSuccess) issues in
  let filtered :=
    match filter with
    | FilterErrors => errors
    | FilterWarnings => errors ++ warnings
    | FilterAll => issues
    end in
  let filtered :=
    sort (fun a b => (order (severity a) - order (severity b))%Z) filtered in
  {| errors := errors; filteredIssues := filtered;
     successes := successes; warnings := warnings |}.

(** The numbers the three filter buttons show:
    [issues.length], [errors.length], [errors.length + warnings.length]. *)
Definition buttonCount (issues : list CompatibilityIssue) (lists : ReportLists)
    (filter : Filter) : nat :=
  match filter with
  | FilterAll => length issues
  | FilterErrors => length (errors lists)
  | FilterWarnings => length (errors lists) + length (warnings lists)
  end.

(** One turn of the loop of the helper [createCompatibilityIssues] of
    the component, on the pair of [issues] and [processedSlugs]. *)
Definition processProperty (cssPropertyMap : gmap string CanIEmailFeature)
    (st : list CompatibilityIssue * list string) (property : string)
    : list CompatibilityIssue * list string :=
  let '(issues, processedSlugs) := st in
  match cssPropertyMap !! property with
  | None => st
  | Some feature =>
      if bool_decide (slug feature ∈ processedSlugs) then st
      else
        let processedSlugs := setAdd (slug feature) processedSlugs in
        let summary := getFeatureSupportSummary feature in
        let severity := severityOf summary in
        (issues ++ [{| feature := feature; property := property;
                       severity := severity; summary := summary |}],
         processedSlugs)
  end.

Definition createCompatibilityIssues (extractedProperties : list string)
    (cssPropertyMap : gmap string CanIEmailFeature) : list CompatibilityIssue :=
  (foldl (processProperty cssPropertyMap) ([], []) extractedProperties).1.

(** *** Notions used to state the properties of the report *)

(** An issue of the classifier as the component sees it. *)
Definition withoutFeatureType (i : Caniemail.CompatibilityIssue) : CompatibilityIssue :=
  {| feature := Caniemail.feature i; property := Caniemail.property i;
     severity := Caniemail.severity i; summary := Caniemail.summary i |}.

(** The key of the card of an issue: [issue.feature.slug]. *)
Definition cardKey (i : CompatibilityIssue) : string := slug (feature i).

(** The issues of one severity, in the order of the list. *)
Definition ofSeverity (s : Severity) (issues : list CompatibilityIssue)
    : list CompatibilityIssue :=
  List.filter (fun i => sameSeverity (severity i) s) issues.

(** The comparison the component sorts with. *)
Definition compareSeverity (a b : CompatibilityIssue) : Z :=
  (order (severity a) - order (severity b))%Z.

End CompatibilityReport.

(* ===================================================================== *)
(** ** Further notions about the extractor                                *)
(* ===================================================================== *)

Module ExtractorNotions.
Import JsString RegExp FeatureExtractor.

(** A letter of the ASCII alphabet: what the class [[a-z]] matches
    under the [i] flag. *)
Definition isLetter (c : ascii) : bool :=
  let n := code c in between 65 90 n || between 97 122 n.

(** A letter, a digit or a dash: what the class [[a-z0-9-]] matches
    under the [i] flag. *)
Definition isTagChar (c : ascii) : bool :=
  isLetter c || isDigit c || (code c =? 45)%N.

(** A name the scans for elements and attributes accept: a letter,
    then letters, digits and dashes. *)
Definition isTagName (name : string) : bool :=
  match name with
  | String c w => isLetter c && allChars isTagChar w
  | EmptyString => false
  end.

(** The features of the catalogue whose pattern is their own name. *)
Definition namedFeatures : list string := [
  "linear-gradient"; "radial-gradient"; "conic-gradient";
  "repeating-linear-gradient"; "repeating-radial-gradient";
  "fit-content"; "min-content"; "max-content"
].

(** What a declaration gives to the property set: the name recorded
    for it, and the features of the catalogue whose pattern finds a
    match in its lower-case value. *)
Definition declKey (declProp declValue name : string) : Prop :=
  name = recordedName (toLowerCase declProp) \/
  exists pattern,
    (name, pattern) ∈ cssFeatures /\
    test true pattern (toLowerCase declValue) = true.

(** What one piece of CSS of the document, with the text [css] the
    parser is given and the text [content] the lenient scan is given,
    gives to the property set. *)
Definition fromCss (safeParser : string -> option Root) (css content name : string)
    : Prop :=
  match safeParser css with
  | Some root =>
      exists declProp declValue,
        Decl declProp declValue ∈ allNodes root /\ declKey declProp declValue name
  | None =>
      exists names, simpleProperties content = Some names /\ name ∈ names
  end.

Definition fromStyleAttribute (safeParser : string -> option Root) (m : Match)
    (name : string) : Prop :=
  fromCss safeParser ("* { " +:+ group' 1 m +:+ " }") (group' 1 m) name.

Definition fromStyleBlockCss (safeParser : string -> option Root) (m : Match)
    (name : string) : Prop :=
  fromCss safeParser (group' 1 m) (group' 1 m) name.

End ExtractorNotions.

(* ===================================================================== *)
(** ** Further sample data                                                *)
(* ===================================================================== *)

Module MoreExamples.
Import JsString RegExp Caniemail FeatureMaps FeatureExtractor Examples.

(** A feature whose latest Gmail result is partial support with a
    footnote the notes have. *)
Definition withNote : CanIEmailFeature :=
  sampleFeature CatCss "css-gap" "gap" None
    {[ "gmail" := {[ "desktop-webmail" := [("2020-01", "y"); ("2021-06", "a #1")] ]} ]}
    (Some {[ "1" := "Buggy" ]}).

Definition partialWithNote : SupportLevel :=
  {| level := "a"; note := Some "Buggy"; version := "2021-06" |}.

End MoreExamples.

(* ===================================================================== *)
(** ** Facts about the matcher                                            *)
(* ===================================================================== *)

Module RegExpFacts.
Import JsString RegExp.

Lemma stripLit_length icase l s s' :
  stripLit icase l s = Some s' ->
  String.length s = String.length l + String.length s'.
Proof.
  revert s; induction l as [|a l IH]; intros s; simpl.
  - by intros [= ->].
  - destruct s as [|b s]; [done|].
    destruct (sameChar icase a b); [|done].
    intros H. simpl. by rewrite (IH _ H).
Qed.

Lemma starGreedy_progress {R} p n s (k : nat -> string -> option R) res :
  starGreedy p n s k = Some res ->
  exists n' s', k n' s' = Some res /\ String.length s' <= String.length s.
Proof.
  revert n; induction s as [|c s IH]; intros n; simpl.
  - eauto.
  - destruct (p c).
    + destruct (starGreedy p (S n) s k) eqn:E.
      * intros [= ->]. destruct (IH _ E) as (n' & s' & ? & ?).
        exists n', s'. split; [done|lia].
      * intros H. exists n, (String c s). done.
    + intros H. exists n, (String c s). done.
Qed.

Lemma starLazy_progress {R} p n s (k : nat -> string -> option R) res :
  starLazy p n s k = Some res ->
  exists n' s', k n' s' = Some res /\ String.length s' <= String.length s.
Proof.
  revert n; induction s as [|c s IH]; intros n; simpl.
  - destruct (k n "") eqn:E; [|done]. intros [= ->]. eauto.
  - destruct (k n (String c s)) eqn:E.
    + intros [= ->]. exists n, (String c s). done.
    + destruct (p c); [|done]. intros H.
      destruct (IH _ H) as (n' & s' & ? & ?). exists n', s'. split; [done|lia].
Qed.

Lemma run_progress icase r : forall st k res,
  run icase r st k = Some res ->
  exists st', k st' = Some res /\
    String.length (rest st') + minLen r <= String.length (rest st).
Proof.
  induction r as [|l|inv items|g inv items|a IHa b IHb|a IHa b IHb|a IHa|n a IHa| |];
    intros st k res; simpl.
  - intros H. exists st. split; [done|lia].
  - destruct (stripLit icase l (rest st)) eqn:E; [|done].
    intros H. eexists. split; [exact H|]. simpl.
    apply stripLit_length in E. lia.
  - destruct (rest st) as [|c s] eqn:E; [done|].
    destruct (classMatches icase inv items c); [|done].
    intros H. eexists. split; [exact H|]. simpl. lia.
  - destruct g; intros H.
    + apply starGreedy_progress in H as (n' & s' & H & Hl).
      eexists. split; [exact H|]. simpl. lia.
    + apply starLazy_progress in H as (n' & s' & H & Hl).
      eexists. split; [exact H|]. simpl. lia.
  - intros H. apply IHa in H as (st1 & H & H1).
    apply IHb in H as (st2 & H & H2).
    exists st2. split; [done|lia].
  - destruct (run icase a st k) eqn:E.
    + intros [= ->]. apply IHa in E as (st1 & H & H1).
      exists st1. split; [done|lia].
    + intros H. apply IHb in H as (st1 & H & H1).
      exists st1. split; [done|lia].
  - destruct (run icase a st k) eqn:E.
    + intros [= ->]. apply IHa in E as (st1 & H & H1).
      exists st1. split; [done|lia].
    + intros H. exists st. split; [done|lia].
  - intros H. apply IHa in H as (st1 & H & H1).
    eexists. split; [exact H|]. simpl. lia.
  - destruct (pos st =? 0); [|done]. intros H. exists st. split; [done|lia].
  - destruct (isEmpty (rest st)); [|done]. intros H. exists st. split; [done|lia].
Qed.

Lemma matchAt_progress icase r i s m :
  matchAt icase r i s = Some m ->
  String.length (after m) + minLen r <= String.length s.
Proof.
  unfold matchAt.
  destruct (run _ _ _ _) as [st|] eqn:E; [|done].
  intros [= <-]. simpl.
  apply run_progress in E as (st' & [= ->] & H). exact H.
Qed.

Lemma execFrom_progress icase r : forall s i m,
  execFrom icase r i s = Some m ->
  String.length (after m) + minLen r <= String.length s.
Proof.
  induction s as [|c s IH]; intros i m; simpl.
  - destruct (matchAt icase r i "") eqn:E; [|done].
    intros [= ->]. by apply matchAt_progress in E.
  - destruct (matchAt icase r i (String c s)) eqn:E.
    + intros [= ->]. by apply matchAt_progress in E.
    + intros H. apply IH in H. simpl. lia.
Qed.

(** The rule of the [exec] loop: an invariant of the accumulator,
    indexed by the matches handled so far, that every turn of the body
    re-establishes, holds at the end for the list of all the matches;
    and, for a pattern that cannot match the empty string, the loop
    finishes within the fuel [length s + 1]. *)
Lemma execLoop_rule {A} (Inv : list Match -> A -> Prop) icase r
    (body : Match -> A -> option A) :
  0 < minLen r ->
  (forall ms m acc, Inv ms acc -> exists acc', body m acc = Some acc' /\ Inv (ms ++ [m]) acc') ->
  forall fuel s i done_ acc,
    String.length s < fuel ->
    Inv done_ acc ->
    exists ms acc',
      execLoop fuel icase r i s (fun m l => Some (l ++ [m])) done_ = Some (done_ ++ ms) /\
      execLoop fuel icase r i s body acc = Some acc' /\
      Inv (done_ ++ ms) acc'.
Proof.
  intros Hmin Hbody.
  induction fuel as [|fuel IH]; intros s i done_ acc Hfuel HInv; [lia|].
  simpl. destruct (execFrom icase r i s) as [m|] eqn:E.
  - destruct (Hbody _ m _ HInv) as (acc' & -> & HInv').
    apply execFrom_progress in E.
    destruct (IH (after m) (lastIndex m) (done_ ++ [m]) acc') as (ms & acc'' & H1 & H2 & H3);
      [lia|done|].
    exists (m :: ms), acc''. rewrite <- app_assoc in H1, H3. done.
  - exists [], acc. rewrite app_nil_r. done.
Qed.

Lemma whileExec_rule {A} (Inv : list Match -> A -> Prop) icase r
    (body : Match -> A -> option A) s acc :
  0 < minLen r ->
  Inv [] acc ->
  (forall ms m acc, Inv ms acc -> exists acc', body m acc = Some acc' /\ Inv (ms ++ [m]) acc') ->
  exists ms acc',
    execAll icase r s = Some ms /\ whileExec icase r s body acc = Some acc' /\ Inv ms acc'.
Proof.
  intros Hmin H0 Hbody.
  destruct (execLoop_rule Inv icase r body Hmin Hbody (S (String.length s)) s 0 [] acc)
    as (ms & acc' & H1 & H2 & H3); [lia|done|].
  exists ms, acc'. done.
Qed.
Lemma execFrom_unfold icase r i s :
  execFrom icase r i s =
    match matchAt icase r i s with
    | Some m => Some m
    | None =>
        match s with
        | String _ s' => execFrom icase r (S i) s'
        | EmptyString => None
        end
    end.
Proof. by destruct s. Qed.

Lemma append_nil_r s : s +:+ "" = s.
Proof. induction s as [|c s IH]; [done|]. change (String c s +:+ "") with (String c (s +:+ "")). by rewrite IH. Qed.

Lemma append_assoc a b c : (a +:+ b) +:+ c = a +:+ b +:+ c.
Proof.
  induction a as [|x a IH]; [done|].
  change (String x (a +:+ b) +:+ c = String x (a +:+ b +:+ c)).
  change (String x ((a +:+ b) +:+ c) = String x (a +:+ b +:+ c)). by rewrite IH.
Qed.

Lemma append_cons c a b : String c a +:+ b = String c (a +:+ b).
Proof. done. Qed.

Lemma append_length a b : String.length (a +:+ b) = String.length a + String.length b.
Proof. induction a as [|c a IH]; [done|]. rewrite append_cons. simpl. by rewrite IH. Qed.

Lemma take_append a b : take (String.length a) (a +:+ b) = a.
Proof. induction a as [|c a IH]; [by destruct b|]. rewrite append_cons. simpl. by rewrite IH. Qed.

Lemma stripLit_append icase l : forall s s',
  stripLit icase l s = Some s' ->
  exists w, s = w +:+ s' /\ String.length w = String.length l /\
            stripLit icase l w = Some "".
Proof.
  induction l as [|a l IH]; intros s s'; simpl.
  - intros [= ->]. by exists "".
  - destruct s as [|b s]; [done|]. destruct (sameChar icase a b) eqn:E; [|done].
    intros (w & -> & Hl & Hw)%IH. exists (String b w).
    rewrite append_cons. simpl. rewrite E. auto.
Qed.

Lemma starGreedy_sound {R} p : forall s n (k : nat -> string -> option R) res,
  starGreedy p n s k = Some res ->
  exists w s', s = w +:+ s' /\ allChars p w = true /\
               k (n + String.length w) s' = Some res.
Proof.
  induction s as [|c s IH]; intros n k res; simpl.
  - intros H. exists "", "". by rewrite Nat.add_0_r.
  - destruct (p c) eqn:E.
    + destruct (starGreedy p (S n) s k) eqn:E'.
      * intros [= ->]. apply IH in E' as (w & s' & -> & Hw & Hk).
        exists (String c w), s'. rewrite append_cons. simpl. rewrite E.
        split; [done|]. split; [done|]. by rewrite <- Nat.add_succ_comm.
      * intros H. exists "", (String c s). by rewrite Nat.add_0_r.
    + intros H. exists "", (String c s). by rewrite Nat.add_0_r.
Qed.

Lemma starLazy_sound {R} p : forall s n (k : nat -> string -> option R) res,
  starLazy p n s k = Some res ->
  exists w s', s = w +:+ s' /\ allChars p w = true /\
               k (n + String.length w) s' = Some res.
Proof.
  induction s as [|c s IH]; intros n k res; simpl.
  - destruct (k n "") eqn:E; [|done]. intros [= ->].
    exists "", "". by rewrite Nat.add_0_r.
  - destruct (k n (String c s)) eqn:E.
    + intros [= ->]. exists "", (String c s). by rewrite Nat.add_0_r.
    + destruct (p c) eqn:Ep; [|done].
      intros (w & s' & -> & Hw & Hk)%IH.
      exists (String c w), s'. rewrite append_cons. simpl. rewrite Ep.
      split; [done|]. split; [done|]. by rewrite <- Nat.add_succ_comm.
Qed.

(** Soundness of the matcher: what it consumes is in the language of
    the pattern. *)
Lemma run_sound icase r : forall st k res,
  run icase r st k = Some res ->
  exists w st',
    rest st = w +:+ rest st' /\
    pos st' = pos st + String.length w /\
    lang icase r w /\
    k st' = Some res.
Proof.
  induction r as [|l|inv items|g inv items|a IHa b IHb|a IHa b IHb|a IHa|n a IHa| |];
    intros st k res; simpl.
  - intros H. exists "", st. by rewrite Nat.add_0_r.
  - destruct (stripLit icase l (rest st)) as [s'|] eqn:E; [|done].
    intros H. apply stripLit_append in E as (w & E & Hl & Hw).
    exists w, {| pos := pos st + String.length l; rest := s'; caps := caps st |}.
    simpl. rewrite Hl. done.
  - destruct (rest st) as [|c s] eqn:E; [done|].
    destruct (classMatches icase inv items c) eqn:Ec; [|done].
    intros H. exists (String c ""), {| pos := S (pos st); rest := s; caps := caps st |}.
    simpl. split; [done|]. split; [lia|]. split; [|exact H]. by exists c.
  - destruct g; intros H.
    + apply starGreedy_sound in H as (w & s' & E & Hw & Hk).
      exists w, {| pos := pos st + (0 + String.length w); rest := s'; caps := caps st |}.
      simpl. done.
    + apply starLazy_sound in H as (w & s' & E & Hw & Hk).
      exists w, {| pos := pos st + (0 + String.length w); rest := s'; caps := caps st |}.
      simpl. done.
  - intros H. apply IHa in H as (w1 & st1 & E1 & P1 & L1 & H).
    apply IHb in H as (w2 & st2 & E2 & P2 & L2 & H).
    exists (w1 +:+ w2), st2. rewrite append_assoc, <- E2, append_length.
    split; [done|]. split; [lia|]. split; [|done]. by exists w1, w2.
  - destruct (run icase a st k) eqn:E.
    + intros [= ->]. apply IHa in E as (w & st' & ? & ? & ? & ?).
      exists w, st'. auto.
    + intros H. apply IHb in H as (w & st' & ? & ? & ? & ?).
      exists w, st'. auto.
  - destruct (run icase a st k) eqn:E.
    + intros [= ->]. apply IHa in E as (w & st' & ? & ? & ? & ?).
      exists w, st'. auto.
    + intros H. exists "", st. rewrite Nat.add_0_r. auto.
  - intros H. apply IHa in H as (w & st' & E1 & P1 & L1 & H).
    exists w, {| pos := pos st'; rest := rest st';
                 caps := (n, take (pos st' - pos st) (rest st)) :: caps st' |}.
    simpl. done.
  - destruct (pos st =? 0); [|done]. intros H. exists "", st. by rewrite Nat.add_0_r.
  - destruct (isEmpty (rest st)); [|done]. intros H. exists "", st. by rewrite Nat.add_0_r.
Qed.

Lemma matchAt_sound icase r i s m :
  matchAt icase r i s = Some m ->
  index m = i /\ s = text m +:+ after m /\ lang icase r (text m) /\
  lastIndex m = i + String.length (text m).
Proof.
  unfold matchAt. destruct (run _ _ _ _) as [st|] eqn:E; [|done].
  intros [= <-]. simpl.
  apply run_sound in E as (w & st' & E & P & L & [= ->]). simpl in *.
  rewrite P, E. replace (i + String.length w - i) with (String.length w) by lia.
  by rewrite take_append.
Qed.

Lemma execLoop_collect_acc icase r : forall fuel i s done_,
  execLoop fuel icase r i s (fun m l => Some (l ++ [m])) done_ =
  (fun ms => done_ ++ ms) <$> execLoop fuel icase r i s (fun m l => Some (l ++ [m])) [].
Proof.
  induction fuel as [|fuel IH]; intros i s done_; simpl; [done|].
  destruct (execFrom icase r i s) as [m|]; simpl; [|by rewrite app_nil_r].
  rewrite (IH _ _ (done_ ++ [m])), (IH _ _ [m]).
  destruct (execLoop fuel icase r (lastIndex m) (after m) _ []) as [ms|]; simpl; [|done].
  by rewrite <- app_assoc.
Qed.

Lemma execAllFrom_unfold icase r fuel i s :
  execAllFrom (S fuel) icase r i s =
    match execFrom icase r i s with
    | None => Some []
    | Some m => (fun ms => m :: ms) <$> execAllFrom fuel icase r (lastIndex m) (after m)
    end.
Proof.
  unfold execAllFrom. simpl. destruct (execFrom icase r i s) as [m|]; [|done].
  by rewrite execLoop_collect_acc.
Qed.

Lemma execAllFrom_total icase r :
  0 < minLen r ->
  forall fuel i s, String.length s < fuel -> is_Some (execAllFrom fuel icase r i s).
Proof.
  intros Hmin fuel i s Hfuel.
  destruct (execLoop_rule (fun _ (_ : list Match) => True) icase r
              (fun m l => Some (l ++ [m])) Hmin) with (fuel := fuel) (s := s) (i := i)
              (done_ := @nil Match) (acc := @nil Match)
    as (ms & acc' & H1 & H2 & _); [by eauto|done|done|].
  unfold execAllFrom. by rewrite H1.
Qed.

(** The leftmost match in [u ++ v], when there is a match at the start
    of [v]: that one, or one that starts inside [u]. *)
Lemma execFrom_app icase r v m : forall u i,
  matchAt icase r (i + String.length u) v = Some m ->
  exists m0,
    execFrom icase r i (u +:+ v) = Some m0 /\
    (m0 = m \/
     exists u1 u2, u = u1 +:+ u2 /\ u2 <> "" /\
                   matchAt icase r (i + String.length u1) (u2 +:+ v) = Some m0).
Proof.
  induction u as [|c u IH]; intros i Hm.
  - simpl in Hm. rewrite Nat.add_0_r in Hm. exists m.
    change ("" +:+ v) with v. rewrite execFrom_unfold, Hm. auto.
  - rewrite append_cons, execFrom_unfold.
    destruct (matchAt icase r i (String c (u +:+ v))) as [m0|] eqn:E.
    + exists m0. split; [done|]. right. exists "", (String c u). simpl.
      rewrite Nat.add_0_r. done.
    + destruct (IH (S i)) as (m0 & Hm0 & Hcase).
      { simpl in Hm. by rewrite <- Nat.add_succ_comm in Hm. }
      exists m0. split; [done|]. destruct Hcase as [->|(u1 & u2 & -> & Hne & Hu)]; [by left|].
      right. exists (String c u1), u2. rewrite append_cons. simpl.
      by rewrite <- Nat.add_succ_comm.
Qed.

Lemma append_split a : forall c b d,
  a +:+ b = c +:+ d -> String.length c <= String.length a ->
  exists x, a = c +:+ x /\ d = x +:+ b.
Proof.
  induction a as [|y a IH]; intros c b d H Hl.
  - destruct c; [|simpl in Hl; lia]. exists "". done.
  - destruct c as [|z c].
    + exists (String y a). done.
    + rewrite !append_cons in H. injection H as -> H. simpl in Hl.
      destruct (IH c b d H ltac:(lia)) as (x & -> & ->). by exists x.
Qed.

(** The scan finds the match at the start of [v] in [u ++ v] when no
    match that starts inside [u] reaches into [v]. *)
Lemma execAllFrom_finds icase r v m :
  0 < minLen r ->
  forall fuel u i,
    String.length (u +:+ v) < fuel ->
    matchAt icase r (i + String.length u) v = Some m ->
    (forall u1 u2 m',
        u = u1 +:+ u2 -> u2 <> "" ->
        matchAt icase r (i + String.length u1) (u2 +:+ v) = Some m' ->
        String.length (text m') <= String.length u2) ->
    exists ms, execAllFrom fuel icase r i (u +:+ v) = Some ms /\ m ∈ ms.
Proof.
  intros Hmin. induction fuel as [|fuel IH]; intros u i Hfuel Hm Hfree; [lia|].
  rewrite execAllFrom_unfold.
  destruct (execFrom_app icase r v m u i Hm) as (m0 & -> & Hcase).
  pose proof (execFrom_progress icase r) as Hprog.
  destruct Hcase as [->|(u1 & u2 & -> & Hne & Hm0)].
  - apply matchAt_progress in Hm as Hlen.
    destruct (execAllFrom_total icase r Hmin fuel (lastIndex m) (after m)) as [ms Hms].
    { rewrite append_length in Hfuel. lia. }
    rewrite Hms. simpl. exists (m :: ms). split; [done|]. left.
  - pose proof (Hfree u1 u2 m0 eq_refl Hne Hm0) as Hshort.
    apply matchAt_sound in Hm0 as Hs. destruct Hs as (Hi & Hsplit & _ & Hlast).
    apply matchAt_progress in Hm0 as Hlen.
    destruct (append_split u2 (text m0) v (after m0) Hsplit Hshort) as (x & -> & Hafter).
    rewrite Hafter.
    destruct (IH x (lastIndex m0)) as (ms & -> & Hin).
    + rewrite Hafter in Hlen. rewrite !append_length in *. lia.
    + rewrite Hlast. rewrite !append_length in Hm.
      replace (i + String.length u1 + String.length (text m0) + String.length x)
        with (i + (String.length u1 + (String.length (text m0) + String.length x))) by lia.
      done.
    + intros x1 x2 m' -> Hx2 Hm'.
      apply (Hfree (u1 +:+ text m0 +:+ x1) x2 m'); [by rewrite !append_assoc|done|].
      rewrite Hlast in Hm'. rewrite !append_length.
      replace (i + (String.length u1 + (String.length (text m0) + String.length x1)))
        with (i + String.length u1 + String.length (text m0) + String.length x1) by lia.
      done.
    + simpl. exists (m0 :: ms). split; [done|]. by right.
Qed.

(** A greedy repetition takes a whole run of characters when the
    continuation accepts what follows it. *)
Lemma starGreedy_max {R} p w : forall n s (k : nat -> string -> option R) res,
  allChars p w = true ->
  stopsAt p s ->
  k (n + String.length w) s = Some res ->
  starGreedy p n (w +:+ s) k = Some res.
Proof.
  induction w as [|c w IH]; intros n s k res Hw Hs Hk.
  - simpl in Hk. rewrite Nat.add_0_r in Hk. change ("" +:+ s) with s.
    destruct s as [|c s]; simpl; [done|]. simpl in Hs. by rewrite Hs.
  - simpl in Hw. apply andb_prop in Hw as [Hc Hw].
    rewrite append_cons. simpl. rewrite Hc.
    rewrite (IH (S n) s k res Hw Hs); [done|].
    simpl in Hk. by rewrite <- Nat.add_succ_comm in Hk.
Qed.

Lemma run_seq icase a b st k :
  run icase (RSeq a b) st k = run icase a st (fun st' => run icase b st' k).
Proof. done. Qed.

Lemma run_lit icase l s st k :
  stripLit icase l (rest st) = Some s ->
  run icase (RLit l) st k =
    k {| pos := pos st + String.length l; rest := s; caps := caps st |}.
Proof. intros H. simpl. by rewrite H. Qed.

Lemma run_star_max icase inv items w s st k res :
  rest st = w +:+ s ->
  allChars (classMatches icase inv items) w = true ->
  stopsAt (classMatches icase inv items) s ->
  k {| pos := pos st + String.length w; rest := s; caps := caps st |} = Some res ->
  run icase (RStar true inv items) st k = Some res.
Proof.
  intros E Hw Hs Hk. simpl. rewrite E. by apply starGreedy_max.
Qed.

Lemma run_group_plus_max icase n inv items w s st k res :
  rest st = w +:+ s ->
  w <> "" ->
  allChars (classMatches icase inv items) w = true ->
  stopsAt (classMatches icase inv items) s ->
  k {| pos := pos st + String.length w; rest := s; caps := (n, w) :: caps st |} = Some res ->
  run icase (RGroup n (RPlus true inv items)) st k = Some res.
Proof.
  intros E Hne Hw Hs Hk. destruct w as [|c w]; [done|].
  simpl in Hw. apply andb_prop in Hw as [Hc Hw].
  unfold RPlus. cbn [run]. rewrite E, append_cons, Hc. cbn [rest pos caps].
  apply starGreedy_max; [done|done|]. cbn [rest pos caps].
  replace (S (pos st) + (0 + String.length w) - pos st) with (String.length (String c w))
    by (simpl; lia).
  rewrite <- append_cons, take_append.
  replace (S (pos st) + (0 + String.length w)) with (pos st + String.length (String c w))
    by (simpl; lia).
  exact Hk.
Qed.

End RegExpFacts.

(* ===================================================================== *)
(** ** The support summary and the classifier                             *)
(* ===================================================================== *)

Module ClassifierProofs.
Import JsString RegExp Caniemail FeatureMaps Examples.

(** *** The support summary *)

Lemma summaryStep_buckets f r c :
  allBuckets (summaryStep f r c) ≡ₚ allBuckets r ++ [c].
Proof.
  unfold summaryStep, allBuckets.
  destruct (getSupportLevel _ _ _) as [sup|].
  - destruct (String.eqb _ _); [|destruct (String.eqb _ _); [|destruct (String.eqb _ _)]];
      cbn [partial supported unknown unsupported];
      rewrite <- ?app_assoc; simpl; rewrite <- ?Permutation_middle, ?app_nil_r; done.
  - cbn [partial supported unknown unsupported].
    rewrite <- ?app_assoc; done.
Qed.

Lemma summary_fold_buckets f l : forall r,
  allBuckets (foldl (summaryStep f) r l) ≡ₚ allBuckets r ++ l.
Proof.
  induction l as [|c l IH]; intros r; simpl.
  - by rewrite app_nil_r.
  - rewrite IH, summaryStep_buckets, <- app_assoc. done.
Qed.

Lemma summary_from_empty f l :
  allBuckets (foldl (summaryStep f) emptySummary l) ≡ₚ l.
Proof. exact (summary_fold_buckets f l emptySummary). Qed.

Lemma MAJOR_CLIENTS_NoDup : NoDup MAJOR_CLIENTS.
Proof.
  apply (NoDup_fmap_1 label). simpl.
  repeat (apply NoDup_cons; split;
    [intros H; repeat (apply elem_of_cons in H as [H|H]; [discriminate|]);
     by apply elem_of_nil in H|]).
  apply NoDup_nil_2.
Qed.

Lemma summaryStep_unknown_mono f r c c' :
  c ∈ unknown r -> c ∈ unknown (summaryStep f r c').
Proof.
  intros H. unfold summaryStep.
  destruct (getSupportLevel _ _ _) as [sup|];
    [destruct (String.eqb _ _); [|destruct (String.eqb _ _); [|destruct (String.eqb _ _)]]|];
    cbn [unknown]; rewrite ?elem_of_app; auto.
Qed.

Lemma summary_fold_unknown_mono f l : forall r c,
  c ∈ unknown r -> c ∈ unknown (foldl (summaryStep f) r l).
Proof.
  induction l as [|c' l IH]; intros r c H; simpl; [done|].
  by apply IH, summaryStep_unknown_mono.
Qed.

Lemma summaryStep_unknown f r c :
  goesUnknown f c -> c ∈ unknown (summaryStep f r c).
Proof.
  unfold goesUnknown, summaryStep.
  destruct (getSupportLevel _ _ _) as [sup|].
  - intros ->. simpl. rewrite elem_of_app, list_elem_of_singleton. auto.
  - intros _. simpl. rewrite elem_of_app, list_elem_of_singleton. auto.
Qed.

Lemma summary_fold_unknown f l : forall r c,
  c ∈ l -> goesUnknown f c -> c ∈ unknown (foldl (summaryStep f) r l).
Proof.
  induction l as [|c' l IH]; intros r c Hin Hu; simpl.
  - by apply elem_of_nil in Hin.
  - apply elem_of_cons in Hin as [->|Hin].
    + by apply summary_fold_unknown_mono, summaryStep_unknown.
    + by apply IH.
Qed.

Lemma getSupportLevel_latest f fam plat v raw :
  latestRawValue f fam plat = Some (v, raw) ->
  getSupportLevel f fam plat =
    if isEmpty v then None else
    match exec false levelRegex raw with
    | None => Some {| level := UNKNOWN; note := None; version := v |}
    | Some levelMatch =>
        Some {| level := group' 1 levelMatch;
                note := match group 2 levelMatch with
                        | Some num =>
                            if isEmpty num then None
                            else match notesByNum f with
                                 | Some byNum => byNum !! num
                                 | None => None
                                 end
                        | None => None
                        end;
                version := v |}
    end.
Proof.
  unfold latestRawValue, getSupportLevel.
  destruct (stats f !! fam) as [fs|]; [|done].
  destruct (fs !! plat) as [ps|]; [|done].
  destruct (last (map fst ps)) as [v'|]; [|done].
  destruct (getProp ps v') as [raw'|] eqn:E; [|done].
  intros [= -> ->]. destruct (isEmpty v); [done|]. done.
Qed.

Lemma noUsableData_goesUnknown f c : noUsableData f c -> goesUnknown f c.
Proof.
  unfold noUsableData, goesUnknown.
  intros [H|[(fs & H1 & H2)|(v & raw & H1 & H2)]].
  - unfold getSupportLevel. by rewrite H.
  - unfold getSupportLevel. by rewrite H1, H2.
  - rewrite (getSupportLevel_latest _ _ _ _ _ H1), H2.
    by destruct (isEmpty v).
Qed.

(** *** The classifier *)

Lemma processItem_emit m ft fmt st item :
  processItem m ft fmt st item =
    match m !! item with
    | None => st
    | Some f => emit st (issueOf ft fmt item f)
    end.
Proof. unfold processItem, emit, issueOf. by destruct (m !! item). Qed.

Lemma processFeatures_emit items m ft fmt : forall st,
  processFeatures items m ft fmt st = foldl emit st (resolved items m ft fmt).
Proof.
  unfold processFeatures, resolved.
  induction items as [|item items IH]; intros st; simpl; [done|].
  rewrite IH, processItem_emit. by destruct (m !! item).
Qed.

Lemma createCompatibilityIssues_emit ps ars es ats cm em am :
  createCompatibilityIssues ps ars es ats cm em am =
    issues (foldl emit start (candidates ps ars es ats cm em am)).
Proof.
  unfold createCompatibilityIssues, candidates, start.
  rewrite !foldl_app, !processFeatures_emit. done.
Qed.

Lemma emit_snoc l x :
  foldl emit start (l ++ [x]) = emit (foldl emit start l) x.
Proof. by rewrite foldl_app. Qed.

Lemma snoc_split {A} (l before later : list A) (x i : A) :
  l ++ [x] = before ++ i :: later ->
  (later = [] /\ before = l /\ i = x) \/
  (exists later', later = later' ++ [x] /\ l = before ++ i :: later').
Proof.
  destruct later as [|y later _] using rev_ind.
  - intros H. apply app_inj_tail in H as [-> ->]. by left.
  - intros H. right. exists later.
    rewrite app_comm_cons, app_assoc in H.
    apply app_inj_tail in H as [-> ->]. done.
Qed.

Lemma emit_invariant l :
  let st := foldl emit start l in
  processedSlugs st = issueSlug <$> (issues st) /\
  NoDup (processedSlugs st) /\
  (forall s, s ∈ processedSlugs st <-> s ∈ issueSlug <$> l) /\
  (forall i, i ∈ issues st <-> firstWithSlug l i).
Proof.
  induction l as [|x l IH] using rev_ind; simpl.
  - split; [done|]. split; [apply NoDup_nil_2|]. split; [done|].
    intros i. split; [by intros ?%elem_of_nil|].
    intros (before & later & H & _). by destruct before.
  - rewrite emit_snoc. simpl in IH.
    set (st := foldl emit start l) in *.
    destruct IH as (Hp & Hnd & Hs & Hi).
    assert (Hfresh : issueSlug x ∉ processedSlugs st ->
                     forall j, j ∈ l -> issueSlug j <> issueSlug x).
    { intros Hx j Hj Heq. apply Hx, Hs. rewrite <- Heq.
      by apply list_elem_of_fmap_2. }
    unfold emit. fold (issueSlug x). case_bool_decide as Hx.
    + split; [done|]. split; [done|]. split.
      * intros s. rewrite Hs, fmap_app, elem_of_app. simpl.
        rewrite list_elem_of_singleton. split; [auto|].
        intros [?| ->]; [done|]. by apply Hs.
      * intros i. rewrite Hi. split.
        -- intros (before & later & -> & Hb).
           exists before, (later ++ [x]). by rewrite <- app_assoc.
        -- intros (before & later & H & Hb).
           apply snoc_split in H as [(-> & -> & ->)|(later' & -> & ->)].
           ++ exfalso. apply Hs in Hx. apply list_elem_of_fmap in Hx as (j & Hj & Hin).
              by apply (Hb j Hin).
           ++ by exists before, later'.
    + unfold setAdd. rewrite bool_decide_eq_false_2 by done. simpl.
      split; [by rewrite Hp, fmap_app|]. split.
      { apply NoDup_app. split; [done|]. split.
        - intros s Hs1 ->%list_elem_of_singleton. done.
        - apply NoDup_singleton. }
      split.
      * intros s. rewrite !fmap_app, !elem_of_app, Hs. done.
      * intros i. rewrite elem_of_app, Hi, list_elem_of_singleton. split.
        -- intros [(before & later & -> & Hb)| ->].
           ++ exists before, (later ++ [x]). by rewrite <- app_assoc.
           ++ exists l, []. split; [done|]. by apply Hfresh.
        -- intros (before & later & H & Hb).
           apply snoc_split in H as [(-> & -> & ->)|(later' & -> & ->)]; [by right|].
           left. by exists before, later'.
Qed.

Lemma firstWithSlug_In l i : firstWithSlug l i -> i ∈ l.
Proof. intros (before & later & -> & _). apply elem_of_app. right. left. Qed.

Lemma resolved_issueOf items m ft fmt i :
  i ∈ resolved items m ft fmt -> exists item f, i = issueOf ft fmt item f.
Proof.
  unfold resolved. intros (item & _ & H)%list_elem_of_omap.
  destruct (m !! item) as [f|]; [|done]. injection H as <-. eauto.
Qed.

Lemma candidates_issueOf ps ars es ats cm em am i :
  i ∈ candidates ps ars es ats cm em am ->
  exists ft fmt item f, i = issueOf ft fmt item f.
Proof.
  unfold candidates. rewrite !elem_of_app.
  intros [H|[H|[H|H]]]; apply resolved_issueOf in H as (item & f & ->); eauto.
Qed.

Lemma severityOf_error s : severityOf s = SevError <-> unsupported s <> [].
Proof. unfold severityOf. destruct (unsupported s), (partial s); simpl; split; done. Qed.

Lemma severityOf_warning s :
  severityOf s = SevWarning <-> unsupported s = [] /\ partial s <> [].
Proof.
  unfold severityOf. destruct (unsupported s), (partial s); simpl;
    split; try done; intros [? ?]; done.
Qed.

Lemma severityOf_success s :
  severityOf s = SevSuccess <-> unsupported s = [] /\ partial s = [].
Proof.
  unfold severityOf. destruct (unsupported s), (partial s); simpl;
    split; try done; intros [? ?]; done.
Qed.

(** Claim C2. For every input (four identifier sets and three
    mappings), the list of issues has at most one issue for each
    feature slug, and the deduplication runs across the four
    categories in the order CSS properties, CSS at-rules, HTML
    elements, HTML attributes: an issue is in the list exactly when it
    is the first, in that processing order, of the issues the
    identifiers resolve to with its slug. *)
Theorem one_issue_per_slug ps ars es ats cm em am :
  let out := createCompatibilityIssues ps ars es ats cm em am in
  NoDup (issueSlug <$> out) /\
  forall i, i ∈ out <-> firstWithSlug (candidates ps ars es ats cm em am) i.
Proof.
  intros out. unfold out. rewrite createCompatibilityIssues_emit.
  destruct (emit_invariant (candidates ps ars es ats cm em am)) as (Hp & Hnd & _ & Hi).
  split; [by rewrite <- Hp|done].
Qed.

(** Claim C3. For every issue the classifier emits, the summary is
    the support summary of the feature, and the severity is [error]
    exactly when the summary's unsupported list is not empty,
    [warning] exactly when that list is empty and the partial list is
    not, and [success] exactly when both are empty. *)
Theorem severity_precedence ps ars es ats cm em am i :
  i ∈ createCompatibilityIssues ps ars es ats cm em am ->
  summary i = getFeatureSupportSummary (feature i) /\
  (severity i = SevError <-> unsupported (summary i) <> []) /\
  (severity i = SevWarning <->
     unsupported (summary i) = [] /\ partial (summary i) <> []) /\
  (severity i = SevSuccess <->
     unsupported (summary i) = [] /\ partial (summary i) = []).
Proof.
  rewrite createCompatibilityIssues_emit.
  destruct (emit_invariant (candidates ps ars es ats cm em am)) as (_ & _ & _ & Hi).
  intros H%Hi%firstWithSlug_In%candidates_issueOf.
  destruct H as (ft & fmt & item & f & ->). unfold issueOf.
  cbn [summary severity feature].
  split; [done|].
  split; [apply severityOf_error|]. split; [apply severityOf_warning|apply severityOf_success].
Qed.

Lemma severity_precedence_witness :
  let i := issueOf FtCss id "border-radius" borderRadius in
  let out := createCompatibilityIssues ["border-radius"] [] [] []
               (buildCssPropertyMap [borderRadius]) ∅ ∅ in
  i ∈ out /\
  summary i = getFeatureSupportSummary (feature i) /\
  (severity i = SevError <-> unsupported (summary i) <> []) /\
  (severity i = SevWarning <->
     unsupported (summary i) = [] /\ partial (summary i) <> []) /\
  (severity i = SevSuccess <->
     unsupported (summary i) = [] /\ partial (summary i) = []).
Proof.
  intros i out.
  assert (H : i ∈ out) by (vm_compute; left).
  split; [exact H|].
  exact (severity_precedence ["border-radius"] [] [] []
           (buildCssPropertyMap [borderRadius]) ∅ ∅ i H).
Defined.

(** Claim C4. For every reference feature the four lists of the
    support summary (supported, partial, unsupported, unknown)
    partition the client panel: put one after the other they are a
    rearrangement of the panel, and no client occurs twice in them. *)
Theorem summary_partitions_panel (f : CanIEmailFeature) :
  allBuckets (getFeatureSupportSummary f) ≡ₚ MAJOR_CLIENTS /\
  NoDup (allBuckets (getFeatureSupportSummary f)).
Proof.
  assert (H : allBuckets (getFeatureSupportSummary f) ≡ₚ MAJOR_CLIENTS).
  { unfold getFeatureSupportSummary. apply summary_from_empty. }
  split; [exact H|].
  apply (NoDup_Permutation_proper _ _ H), MAJOR_CLIENTS_NoDup.
Qed.

(** Claim C6. For every feature and every client of the panel: when
    [stats[family]] is absent, or [stats[family][platform]] is absent,
    or the raw value of the latest version does not match the pattern
    of support codes, the client is in the unknown list of the
    summary; a raw value that does not match gives the level unknown
    and no error; and a footnote number that [notesByNum] does not
    have gives a result without a note and no error. *)
Theorem no_data_is_unknown (f : CanIEmailFeature) (c : MajorClient) :
  c ∈ MAJOR_CLIENTS ->
  (noUsableData f c -> c ∈ unknown (getFeatureSupportSummary f)) /\
  (forall v raw,
      latestRawValue f (family c) (platform c) = Some (v, raw) ->
      v <> "" ->
      exec false levelRegex raw = None ->
      getSupportLevel f (family c) (platform c)
        = Some {| level := UNKNOWN; note := None; version := v |}) /\
  (forall v raw m num,
      latestRawValue f (family c) (platform c) = Some (v, raw) ->
      v <> "" ->
      exec false levelRegex raw = Some m ->
      group 2 m = Some num ->
      (notesByNum f ≫= fun byNum => byNum !! num) = None ->
      getSupportLevel f (family c) (platform c)
        = Some {| level := group' 1 m; note := None; version := v |}).
Proof.
  intros Hc. split; [|split].
  - intros H%noUsableData_goesUnknown.
    unfold getFeatureSupportSummary. by apply summary_fold_unknown.
  - intros v raw Hl Hv Hm. rewrite (getSupportLevel_latest _ _ _ _ _ Hl), Hm.
    by destruct v.
  - intros v raw m num Hl Hv Hm Hg Hn.
    rewrite (getSupportLevel_latest _ _ _ _ _ Hl), Hm, Hg.
    destruct v; [done|]. simpl.
    destruct (isEmpty num); [done|].
    destruct (notesByNum f) as [byNum|]; simpl in *; [by rewrite Hn|done].
Qed.
Lemma no_data_is_unknown_witness :
  yahoo ∈ MAJOR_CLIENTS /\
  noUsableData borderRadius yahoo /\
  yahoo ∈ unknown (getFeatureSupportSummary borderRadius) /\
  gmail ∈ MAJOR_CLIENTS /\
  getSupportLevel withMissingNote (family gmail) (platform gmail)
    = Some {| level := "a"; note := None; version := "2021-06" |}.
Proof.
  assert (H1 : yahoo ∈ MAJOR_CLIENTS) by (do 6 right; left).
  assert (H2 : noUsableData borderRadius yahoo) by (left; reflexivity).
  assert (H3 : gmail ∈ MAJOR_CLIENTS) by left.
  split; [exact H1|]. split; [exact H2|].
  split; [exact (proj1 (no_data_is_unknown borderRadius yahoo H1) H2)|].
  split; [exact H3|].
  refine (proj2 (proj2 (no_data_is_unknown withMissingNote gmail H3))
            "2021-06" "a #3"
            {| index := 0; text := "a #3"; groups := [(2, "3"); (1, "a")];
               lastIndex := 4; after := "" |}
            "3" _ _ _ _ _).
  - reflexivity.
  - discriminate.
  - vm_compute. reflexivity.
  - reflexivity.
  - vm_compute. reflexivity.
Defined.

End ClassifierProofs.

(* ===================================================================== *)
(** ** The reference index                                                *)
(* ===================================================================== *)

Module IndexProofs.
Import JsString RegExp Caniemail FeatureMaps Examples.

Lemma has_true m k : has m k = true <-> is_Some (m !! k).
Proof. unfold has. destruct (m !! k); split; try done; by intros [? ?]. Qed.

Lemma set_keys_lookup (f : CanIEmailFeature) keys : forall (m : gmap string CanIEmailFeature) k,
  foldl (fun m key => <[key := f]> m) m keys !! k =
    if bool_decide (k ∈ keys) then Some f else m !! k.
Proof.
  induction keys as [|key keys IH]; intros m k; simpl; [done|].
  rewrite IH. case_bool_decide as H1; case_bool_decide as H2; try done.
  - exfalso. apply H2. by right.
  - apply elem_of_cons in H2 as [->|?]; [|done]. by rewrite lookup_insert_eq.
  - rewrite lookup_insert_ne; [done|]. intros ->. apply H2. by left.
Qed.

Lemma keyword_keys_lookup (f : CanIEmailFeature) keys :
  forall (m : gmap string CanIEmailFeature) k,
  foldl (fun m keyword => if has m keyword then m else <[keyword := f]> m) m keys !! k =
    match m !! k with
    | Some g => Some g
    | None => if bool_decide (k ∈ keys) then Some f else None
    end.
Proof.
  induction keys as [|key keys IH]; intros m k; simpl.
  - by destruct (m !! k).
  - rewrite IH. unfold has. destruct (m !! key) as [g|] eqn:E.
    + destruct (m !! k) as [g'|] eqn:E'; [done|].
      case_bool_decide as H1; case_bool_decide as H2; try done.
      * exfalso. apply H2. by right.
      * apply elem_of_cons in H2 as [->|?]; [congruence|done].
    + destruct (decide (key = k)) as [->|Hne].
      * rewrite lookup_insert_eq, E. rewrite bool_decide_eq_true_2; [done|by left].
      * rewrite lookup_insert_ne by done. destruct (m !! k); [done|].
        case_bool_decide as H1; case_bool_decide as H2; try done.
        -- exfalso. apply H2. by right.
        -- apply elem_of_cons in H2 as [->|?]; done.
Qed.

Lemma registerKeys_lookup cat setKeys kws m f k :
  registerKeys cat setKeys kws m f !! k =
    if claims cat setKeys k f then Some f
    else match m !! k with
         | Some g => Some g
         | None => if claims cat kws k f then Some f else None
         end.
Proof.
  unfold registerKeys, claims.
  case_bool_decide as Hc; simpl; [|by destruct (m !! k)].
  rewrite keyword_keys_lookup, set_keys_lookup.
  case_bool_decide; [done|]. done.
Qed.

Lemma find_snoc {A} (p : A -> bool) l x :
  List.find p (l ++ [x]) =
    match List.find p l with
    | Some y => Some y
    | None => if p x then Some x else None
    end.
Proof.
  induction l as [|y l IH]; simpl; [done|].
  destruct (p y); [done|]. exact IH.
Qed.

Lemma build_lookup cat setKeys kws features k :
  foldl (registerKeys cat setKeys kws) ∅ features !! k =
    resolveKey cat setKeys kws features k.
Proof.
  unfold resolveKey.
  induction features as [|f features IH] using rev_ind; simpl; [done|].
  rewrite foldl_app. simpl. rewrite registerKeys_lookup, IH.
  rewrite rev_unit, find_snoc. simpl.
  destruct (claims cat setKeys k f); [done|].
  destruct (List.find (claims cat setKeys k) (List.rev features)); [done|].
  by destruct (List.find (claims cat kws k) features).
Qed.

(** The loop over the keywords, with the tests on the keyword moved
    to a filter. *)
Lemma keywords_loop (accept : string -> bool) (f : CanIEmailFeature) l :
  forall m : gmap string CanIEmailFeature,
  foldl (fun m keyword =>
           if negb (isEmpty keyword) && accept keyword && negb (has m keyword)
           then <[keyword := f]> m else m) m l =
  foldl (fun m keyword => if has m keyword then m else <[keyword := f]> m) m
    (List.filter (fun k => negb (isEmpty k) && accept k) l).
Proof.
  induction l as [|k l IH]; intros m; simpl; [done|].
  rewrite IH. destruct (negb (isEmpty k) && accept k); simpl; [|done].
  by destruct (has m k).
Qed.

Lemma foldl_ext_fun {A B} (g h : A -> B -> A) l :
  (forall a b, g a b = h a b) -> forall a, foldl g a l = foldl h a l.
Proof. intros E. induction l as [|b l IH]; intros a; simpl; [done|]. by rewrite E, IH. Qed.

Lemma cssPropertyStep_registerKeys m f :
  cssPropertyStep m f = registerKeys CatCss cssSetKeys (keywordKeys anyKeyword) m f.
Proof.
  unfold cssPropertyStep, registerKeys, cssSetKeys, keywordKeys.
  destruct (negb (bool_decide (category f = CatCss))); [done|].
  set (pn := replaceAll _ _ _ _). set (tl := toLowerCase _).
  assert (E : (if negb (tl =? pn)%string then <[tl:=f]> (<[pn:=f]> m) else <[pn:=f]> m) =
              foldl (fun map key => <[key:=f]> map) m
                (pn :: (if negb (tl =? pn)%string then [tl] else []))).
  { by destruct (negb (tl =? pn)%string). }
  rewrite <- E. clear E.
  destruct (keywords f) as [kws|]; [|done].
  destruct (isEmpty kws); [done|].
  rewrite <- (keywords_loop anyKeyword).
  apply foldl_ext_fun. intros a b. unfold anyKeyword.
  by rewrite andb_true_r.
Qed.

Lemma htmlElementStep_registerKeys m f :
  htmlElementStep m f = registerKeys CatHtml elementSetKeys (keywordKeys singleWord) m f.
Proof.
  unfold htmlElementStep, registerKeys, elementSetKeys, keywordKeys.
  destruct (negb (bool_decide (category f = CatHtml))); [done|].
  set (se := toLowerCase _).
  rewrite !foldl_app.
  assert (E : forall m : gmap string CanIEmailFeature,
    foldl (fun map key => <[key:=f]> map) m
      (if negb (isEmpty se) && negb (includes se "attribute") then [se] else []) =
    if negb (isEmpty se) && negb (includes se "attribute") then <[se:=f]> m else m).
  { intros m'. by destruct (_ && _). }
  rewrite E. clear E.
  set (m1 := if _ && _ then _ else _).
  destruct (exec true titleTagRegex (title f)) as [tm|];
    destruct (exec true titleElementRegex (title f)) as [em|]; simpl;
    (destruct (keywords f) as [kws|]; [|done]);
    (destruct (isEmpty kws); [done|]);
    by rewrite <- (keywords_loop singleWord).
Qed.

Lemma htmlAttributeStep_registerKeys m f :
  htmlAttributeStep m f = registerKeys CatHtml attributeSetKeys (keywordKeys singleWord) m f.
Proof.
  unfold htmlAttributeStep, registerKeys, attributeSetKeys, keywordKeys.
  destruct (negb (bool_decide (category f = CatHtml))); [done|].
  rewrite !foldl_app.
  destruct (exec true titleAttributeRegex (title f)) as [am|];
    destruct (includes (slug f) "attribute"); simpl;
    (destruct (keywords f) as [kws|]; [|done]);
    (destruct (isEmpty kws); [done|]);
    by rewrite <- (keywords_loop singleWord).
Qed.

Lemma foldl_ext_step {A B} (g h : A -> B -> A) :
  (forall a b, g a b = h a b) -> forall l a, foldl g a l = foldl h a l.
Proof. intros E l. by apply foldl_ext_fun. Qed.

(** Claim C1, as amended. For every reference dataset and every
    identifier string, each of the three index builders (CSS, HTML
    element, HTML attribute) maps the string to the last feature, in
    dataset order, that claims it through its slug or its title, when
    there is one (these registrations overwrite), and otherwise to the
    first feature, in dataset order, that claims it through a keyword
    (a keyword registration of a key that is already present is a
    no-op). *)
Theorem index_resolution (features : list CanIEmailFeature) (key : string) :
  buildCssPropertyMap features !! key
    = resolveKey CatCss cssSetKeys (keywordKeys anyKeyword) features key /\
  buildHtmlElementMap features !! key
    = resolveKey CatHtml elementSetKeys (keywordKeys singleWord) features key /\
  buildHtmlAttributeMap features !! key
    = resolveKey CatHtml attributeSetKeys (keywordKeys singleWord) features key.
Proof.
  unfold buildCssPropertyMap, buildHtmlElementMap, buildHtmlAttributeMap.
  rewrite (foldl_ext_step _ _ cssPropertyStep_registerKeys),
    (foldl_ext_step _ _ htmlElementStep_registerKeys),
    (foldl_ext_step _ _ htmlAttributeStep_registerKeys).
  rewrite !build_lookup. done.
Qed.

(** The counterexample to claim C1 as stated: in each of the three
    builders a later feature that claims a key through its slug or
    title takes the key from the first feature that claimed it. *)
Lemma first_claimant_does_not_win :
  (firstClaimant CatCss cssSetKeys (keywordKeys anyKeyword)
     [cssBackground; cssGradient] "gradient" = Some cssBackground /\
   buildCssPropertyMap [cssBackground; cssGradient] !! "gradient" = Some cssGradient /\
   cssGradient <> cssBackground) /\
  (firstClaimant CatHtml elementSetKeys (keywordKeys singleWord)
     [htmlVideo; htmlVideoPoster] "video" = Some htmlVideo /\
   buildHtmlElementMap [htmlVideo; htmlVideoPoster] !! "video" = Some htmlVideoPoster /\
   htmlVideoPoster <> htmlVideo) /\
  (firstClaimant CatHtml attributeSetKeys (keywordKeys singleWord)
     [htmlAlign; htmlValign] "align" = Some htmlAlign /\
   buildHtmlAttributeMap [htmlAlign; htmlValign] !! "align" = Some htmlValign /\
   htmlValign <> htmlAlign).
Proof.
  repeat split; try (vm_compute; reflexivity); discriminate.
Qed.

End IndexProofs.

(* ===================================================================== *)
(** ** The extractor                                                      *)
(* ===================================================================== *)

Module ExtractorProofs.
Import JsString RegExp FeatureExtractor RegExpFacts Examples.

(** *** Sets *)

Lemma setAdd_elem x y s : y ∈ setAdd x s <-> y = x \/ y ∈ s.
Proof.
  unfold setAdd, Caniemail.setAdd. case_bool_decide as H.
  - split; [auto|]. by intros [->|?].
  - rewrite elem_of_app, list_elem_of_singleton. tauto.
Qed.

Lemma setAdd_NoDup x s : NoDup s -> NoDup (setAdd x s).
Proof.
  unfold setAdd, Caniemail.setAdd. intros Hs. case_bool_decide as H; [done|].
  apply NoDup_app. split; [done|]. split; [|apply NoDup_singleton].
  by intros y Hy ->%list_elem_of_singleton.
Qed.

Lemma setAdd_subseteq x s : s ⊆ setAdd x s.
Proof. intros y Hy. apply setAdd_elem. by right. Qed.

(** *** The walk *)

Lemma Node_induction (P : Node -> Prop) :
  (forall p v, P (Decl p v)) ->
  (forall name params nodes, Forall P nodes -> P (AtRule name params nodes)) ->
  (forall selector nodes, Forall P nodes -> P (Rule selector nodes)) ->
  (forall t, P (Comment t)) ->
  forall node, P node.
Proof.
  intros HD HA HR HC. fix IH 1.
  intros [p v|name params nodes|selector nodes|t].
  - apply HD.
  - apply HA. induction nodes as [|n nodes IHn]; constructor; [apply IH|exact IHn].
  - apply HR. induction nodes as [|n nodes IHn]; constructor; [apply IH|exact IHn].
  - apply HC.
Qed.

Lemma walk_children {A} (cb : Node -> A -> A) nodes :
  Forall (fun node => forall acc,
            walkNode cb node acc = foldl (fun acc n => cb n acc) acc (nodesBelow node)) nodes ->
  forall acc,
    foldl (fun acc child => walkNode cb child acc) acc nodes =
    foldl (fun acc n => cb n acc) acc (flat_map nodesBelow nodes).
Proof.
  induction 1 as [|n nodes Hn _ IH]; intros acc; simpl; [done|].
  by rewrite foldl_app, IH, Hn.
Qed.

Lemma walkNode_nodesBelow {A} (cb : Node -> A -> A) node : forall acc,
  walkNode cb node acc = foldl (fun acc n => cb n acc) acc (nodesBelow node).
Proof.
  induction node as [p v|name params nodes IH|selector nodes IH|t] using Node_induction;
    intros acc; simpl; try done; by apply walk_children.
Qed.

Lemma walk_allNodes {A} (cb : Node -> A -> A) root acc :
  walk cb root acc = foldl (fun acc n => cb n acc) acc (allNodes root).
Proof.
  unfold walk, allNodes. apply walk_children, Forall_forall.
  intros node _. apply walkNode_nodesBelow.
Qed.

(** A fold establishes at an element what every later turn keeps. *)
Lemma foldl_establish {S B} (step : S -> B -> S) (Q : S -> Prop) l x :
  x ∈ l ->
  (forall st, Q (step st x)) ->
  (forall st y, Q st -> Q (step st y)) ->
  forall st, Q (foldl step st l).
Proof.
  intros Hin Hx Hkeep. induction l as [|y l IH]; intros st; simpl.
  - by apply elem_of_nil in Hin.
  - apply elem_of_cons in Hin as [->|Hin]; [|by apply IH].
    clear IH. generalize (Hx st). generalize (step st y).
    induction l as [|z l IH]; intros st' H; simpl; [done|]. by apply IH, Hkeep.
Qed.

Lemma foldl_keep {S B} (step : S -> B -> S) (Q : S -> Prop) l :
  (forall st y, Q st -> Q (step st y)) ->
  forall st, Q st -> Q (foldl step st l).
Proof.
  intros Hkeep. induction l as [|y l IH]; intros st H; simpl; [done|].
  by apply IH, Hkeep.
Qed.

(** *** Strings *)

Lemma stripLit_exact l : forall s, stripLit false l s = stripPrefix l s.
Proof.
  induction l as [|a l IH]; intros s; simpl; [done|].
  destruct s as [|b s]; [done|]. simpl. by rewrite IH.
Qed.

Lemma stripPrefix_append p : forall s, stripPrefix p (p +:+ s) = Some s.
Proof.
  induction p as [|a p IH]; intros s; simpl; [done|].
  change (String a p +:+ s) with (String a (p +:+ s)).
  by rewrite Ascii.eqb_refl.
Qed.

Lemma stripPrefix_app p q : forall s,
  stripPrefix (p +:+ q) s = stripPrefix p s ≫= stripPrefix q.
Proof.
  induction p as [|a p IH]; intros s; simpl; [done|].
  change (String a p +:+ q) with (String a (p +:+ q)). simpl.
  destruct s as [|b s]; [done|]. destruct (Ascii.eqb a b); [apply IH|done].
Qed.

(** *** The vendor prefix *)

(** A pattern that starts with [^] matches at index 0 only. *)
Lemma execFrom_anchored icase r : forall s i,
  0 < i -> execFrom icase (RSeq RBol r) i s = None.
Proof.
  induction s as [|c s IH]; intros i Hi; simpl; unfold matchAt; simpl;
    destruct i; try lia; simpl; [done|]. by apply IH; lia.
Qed.

Lemma matchAt_vendor s :
  match vendorMatch s with
  | Some s2 => exists m, matchAt false vendorPrefixRegex 0 s = Some m /\
                         index m = 0 /\ after m = s2
  | None => matchAt false vendorPrefixRegex 0 s = None
  end.
Proof.
  unfold matchAt, vendorMatch, vendorPrefixRegex. cbn [RCat run pos rest caps Nat.eqb].
  rewrite !stripLit_exact.
  destruct (stripPrefix "-" s) as [s1|]; [|done]. cbn [rest pos caps].
  rewrite !stripLit_exact.
  repeat match goal with
         | |- context [stripPrefix ?l ?x] =>
             destruct (stripPrefix l x); cbn [mbind option_bind rest pos caps];
             rewrite ?stripLit_exact
         end; eauto.
Qed.

Lemma replace_vendor s :
  replaceFirst false vendorPrefixRegex s "" = default s (vendorMatch s).
Proof.
  unfold replaceFirst, exec. rewrite execFrom_unfold.
  pose proof (matchAt_vendor s) as H.
  destruct (vendorMatch s) as [s2|].
  - destruct H as (m & -> & Hi & Ha). rewrite Hi, Ha. by destruct s.
  - rewrite H. destruct s as [|c s]; [done|].
    unfold vendorPrefixRegex. cbn [RCat].
    by rewrite execFrom_anchored by lia.
Qed.

Lemma vendorMatch_prefix pre rest_ :
  pre ∈ vendorPrefixes -> vendorMatch (pre +:+ rest_) = Some rest_.
Proof.
  unfold vendorPrefixes. rewrite !elem_of_cons, elem_of_nil.
  intros [->|[->|[->|[->|[]]]]]; unfold vendorMatch;
    cbn [String.append stripPrefix Ascii.eqb Bool.eqb mbind option_bind].
  all: rewrite ?stripPrefix_append; cbn [mbind option_bind stripPrefix Ascii.eqb Bool.eqb]; try done.
Qed.

Lemma vendorMatch_none s :
  (forall pre, pre ∈ vendorPrefixes -> startsWith s pre = false) ->
  vendorMatch s = None.
Proof.
  intros H. unfold vendorPrefixes in H.
  assert (H1 := H "-webkit-" ltac:(set_solver)).
  assert (H2 := H "-moz-" ltac:(set_solver)).
  assert (H3 := H "-ms-" ltac:(set_solver)).
  assert (H4 := H "-o-" ltac:(set_solver)).
  clear H. unfold startsWith in *.
  change "-webkit-" with ("-" +:+ "webkit" +:+ "-") in H1.
  change "-moz-" with ("-" +:+ "moz" +:+ "-") in H2.
  change "-ms-" with ("-" +:+ "ms" +:+ "-") in H3.
  change "-o-" with ("-" +:+ "o" +:+ "-") in H4.
  rewrite !stripPrefix_app in *.
  unfold vendorMatch.
  destruct (stripPrefix "-" s) as [s1|]; [|done]. cbn [mbind option_bind] in *.
  rewrite !stripPrefix_app in *.
  destruct (stripPrefix "webkit" s1 ≫= stripPrefix "-"); [done|].
  destruct (stripPrefix "moz" s1 ≫= stripPrefix "-"); [done|].
  destruct (stripPrefix "ms" s1 ≫= stripPrefix "-"); [done|].
  destruct (stripPrefix "o" s1 ≫= stripPrefix "-"); [done|]. done.
Qed.


(** *** Loops that collect into a set *)

Lemma whileExec_collect r s (g : Match -> string) (c : string -> bool)
    (body : Match -> list string -> option (list string)) acc :
  0 < minLen r ->
  (forall m acc, body m acc = Some (if c (g m) then setAdd (g m) acc else acc)) ->
  exists ms acc',
    execAll true r s = Some ms /\
    whileExec true r s body acc = Some acc' /\
    (NoDup acc -> NoDup acc') /\
    (forall x, x ∈ acc' <-> x ∈ acc \/ x ∈ List.filter c (g <$> ms)).
Proof.
  intros Hmin Hbody.
  destruct (whileExec_rule
    (fun ms acc' => (NoDup acc -> NoDup acc') /\
       forall x, x ∈ acc' <-> x ∈ acc \/ x ∈ List.filter c (g <$> ms))
    true r body s acc Hmin) as (ms & acc' & H1 & H2 & H3 & H4).
  - split; [done|]. intros x. simpl. rewrite elem_of_nil. tauto.
  - intros ms m a [Hnd Ha]. rewrite Hbody. eexists. split; [done|]. split.
    + intros H. destruct (c (g m)); [apply setAdd_NoDup|]; auto.
    + intros x. rewrite fmap_app, List.filter_app, elem_of_app. simpl.
      destruct (c (g m)) eqn:E.
      * rewrite setAdd_elem, Ha, list_elem_of_singleton. tauto.
      * rewrite Ha, elem_of_nil. tauto.
  - exists ms, acc'. done.
Qed.

Lemma filter_all {A} (l : list A) : List.filter (fun _ => true) l = l.
Proof. induction l as [|x l IH]; simpl; [done|]. by rewrite IH. Qed.

Lemma whileExec_collect_all r s (g : Match -> string)
    (body : Match -> list string -> option (list string)) acc :
  0 < minLen r ->
  (forall m acc, body m acc = Some (setAdd (g m) acc)) ->
  exists ms acc',
    execAll true r s = Some ms /\
    whileExec true r s body acc = Some acc' /\
    (NoDup acc -> NoDup acc') /\
    (forall x, x ∈ acc' <-> x ∈ acc \/ x ∈ g <$> ms).
Proof.
  intros Hmin Hbody.
  destruct (whileExec_collect r s g (fun _ => true) body acc Hmin)
    as (ms & acc' & H1 & H2 & H3 & H4); [done|].
  exists ms, acc'. rewrite filter_all in H4. done.
Qed.

Lemma extractMediaFeatures_spec params atRules :
  exists keys atRules',
    mediaFeatureKeys params = Some keys /\
    extractMediaFeatures params atRules = Some atRules' /\
    (NoDup atRules -> NoDup atRules') /\
    (forall x, x ∈ atRules' <-> x ∈ atRules \/ x ∈ keys).
Proof.
  unfold mediaFeatureKeys, extractMediaFeatures.
  destruct (whileExec_collect_all featureRegex params
    (fun m => "@media (" +:+ toLowerCase (group' 1 m) +:+ ")")
    (fun m atRules =>
       let feature := toLowerCase (group' 1 m) in
       Some (setAdd ("@media (" +:+ feature +:+ ")") atRules)) atRules)
    as (ms & acc' & -> & H2 & H3 & H4); [cbv; lia|done|].
  eauto 10.
Qed.

Lemma extractAtRulesSimple_spec css atRules :
  exists rules atRules',
    simpleAtRules css = Some rules /\
    extractAtRulesSimple css atRules = Some atRules' /\
    (NoDup atRules -> NoDup atRules') /\
    (forall x, x ∈ atRules' <-> x ∈ atRules \/ x ∈ rules).
Proof.
  unfold simpleAtRules, extractAtRulesSimple.
  destruct (whileExec_collect_all atRuleRegex css
    (fun m => "@" +:+ toLowerCase (group' 1 m))
    (fun m atRules => Some (setAdd ("@" +:+ toLowerCase (group' 1 m)) atRules)) atRules)
    as (ms & acc' & -> & H2 & H3 & H4); [cbv; lia|done|].
  eauto 10.
Qed.

Lemma extractPropertiesSimple_spec css properties :
  exists names properties',
    simpleProperties css = Some names /\
    extractPropertiesSimple css properties = Some properties' /\
    (NoDup properties -> NoDup properties') /\
    (forall x, x ∈ properties' <-> x ∈ properties \/ x ∈ names).
Proof.
  unfold simpleProperties, extractPropertiesSimple.
  destruct (whileExec_collect propertyRegex (replaceAll false commentRegex css "")
    (fun m => toLowerCase (group' 1 m)) keptBySimpleScan
    (fun m properties =>
       let property := toLowerCase (group' 1 m) in
       if (1 <? String.length property) && negb (startsWith property "-")
       then Some (setAdd property properties)
       else Some properties) properties)
    as (ms & acc' & -> & H2 & H3 & H4); [cbv; lia| |].
  - intros m acc. unfold keptBySimpleScan. simpl. by destruct (_ && _).
  - eauto 10.
Qed.

Lemma extractHtmlElements_spec html :
  exists elements, extractHtmlElements html = Some elements /\ NoDup elements.
Proof.
  unfold extractHtmlElements.
  destruct (whileExec_collect_all tagRegex html
    (fun m => toLowerCase (group' 1 m))
    (fun m elements => Some (setAdd (toLowerCase (group' 1 m)) elements)) [])
    as (ms & acc' & _ & H2 & H3 & _); [cbv; lia|done|].
  exists acc'. split; [done|]. apply H3, NoDup_nil_2.
Qed.

Lemma extractHtmlAttributes_spec html :
  exists attributes, extractHtmlAttributes html = Some attributes /\ NoDup attributes.
Proof.
  unfold extractHtmlAttributes.
  destruct (whileExec_collect_all attrRegex html
    (fun m => toLowerCase (group' 1 m))
    (fun m attributes => Some (setAdd (toLowerCase (group' 1 m)) attributes)) [])
    as (ms & acc' & _ & H2 & H3 & _); [cbv; lia|done|].
  exists acc'. split; [done|]. apply H3, NoDup_nil_2.
Qed.

(** *** Value-level features *)

Lemma valueStep_elem value properties entry x :
  x ∈ valueStep value properties entry <->
  x ∈ properties \/ (x = fst entry /\ test true (snd entry) value = true).
Proof.
  destruct entry as [feature pattern]. simpl.
  destruct (test true pattern value); [rewrite setAdd_elem|];
    intuition discriminate.
Qed.

Lemma valueStep_NoDup value properties entry :
  NoDup properties -> NoDup (valueStep value properties entry).
Proof.
  destruct entry as [feature pattern]. simpl.
  destruct (test true pattern value); [apply setAdd_NoDup|done].
Qed.

Lemma valueFold_elem value catalogue : forall properties x,
  x ∈ foldl (valueStep value) properties catalogue <->
  x ∈ properties \/
  exists entry, entry ∈ catalogue /\ x = fst entry /\ test true (snd entry) value = true.
Proof.
  induction catalogue as [|entry catalogue IH]; intros properties x; simpl.
  - split; [auto|]. intros [?|(entry & ?%elem_of_nil & _)]; done.
  - rewrite IH, valueStep_elem. split.
    + intros [[?|?]|(e & ? & ?)]; [auto| |].
      * right. exists entry. split; [left|done].
      * right. exists e. split; [by right|done].
    + intros [?|(e & [->|?]%elem_of_cons & ?)]; [auto|auto|].
      right. by exists e.
Qed.

Lemma valueFold_NoDup value catalogue : forall properties,
  NoDup properties -> NoDup (foldl (valueStep value) properties catalogue).
Proof.
  induction catalogue as [|entry catalogue IH]; intros properties H; simpl; [done|].
  by apply IH, valueStep_NoDup.
Qed.

Lemma extractValueFeatures_elem value properties x :
  x ∈ extractValueFeatures value properties <->
  x ∈ properties \/
  exists entry, entry ∈ cssFeatures /\ x = fst entry /\ test true (snd entry) value = true.
Proof. apply valueFold_elem. Qed.

Lemma extractValueFeatures_NoDup value properties :
  NoDup properties -> NoDup (extractValueFeatures value properties).
Proof. apply valueFold_NoDup. Qed.

(** *** The walk over the declarations *)

Lemma valuesLe_refl v : valuesLe v v.
Proof. intros key seen H. by exists seen. Qed.

Lemma valuesLe_trans v1 v2 v3 : valuesLe v1 v2 -> valuesLe v2 v3 -> valuesLe v1 v3.
Proof.
  intros H12 H23 key seen H. destruct (H12 _ _ H) as (seen' & H' & Hs).
  destruct (H23 _ _ H') as (seen'' & H'' & Hs'). exists seen''. split; [done|].
  by etrans.
Qed.

Lemma propertiesCallback_Decl p v properties (values : gmap string (list string)) :
  propertiesCallback (Decl p v) (properties, values) =
    (extractValueFeatures (toLowerCase v)
       (setAdd (recordedName (toLowerCase p)) properties),
     <[toLowerCase p := setAdd (toLowerCase v) (default [] (values !! toLowerCase p))]>
       values).
Proof.
  unfold propertiesCallback, recordedName.
  f_equal.
  - by destruct (startsWith (toLowerCase p) "-").
  - destruct (values !! toLowerCase p) as [seen|] eqn:E; simpl.
    + by rewrite E.
    + by rewrite lookup_insert_eq, insert_insert_eq.
Qed.

Lemma propertiesStep_grows st node :
  (NoDup st.1 -> NoDup (propertiesStep st node).1) /\
  st.1 ⊆ (propertiesStep st node).1 /\
  valuesLe st.2 (propertiesStep st node).2.
Proof.
  destruct st as [properties values]. unfold propertiesStep.
  destruct node as [p v| | |]; try (split; [done|split; [done|apply valuesLe_refl]]).
  rewrite propertiesCallback_Decl. cbn [fst snd]. split; [|split].
  - intros H. by apply extractValueFeatures_NoDup, setAdd_NoDup.
  - intros x Hx. apply extractValueFeatures_elem. left. by apply setAdd_subseteq.
  - intros key seen H. destruct (decide (key = toLowerCase p)) as [->|Hne].
    + rewrite lookup_insert_eq, H. eexists. split; [done|]. apply setAdd_subseteq.
    + rewrite lookup_insert_ne by done. by exists seen.
Qed.

Lemma declRecorded_mono p v st st' :
  st.1 ⊆ st'.1 -> valuesLe st.2 st'.2 -> declRecorded p v st -> declRecorded p v st'.
Proof.
  intros Hp Hv (H1 & (seen & H2 & H3) & H4). split; [by apply Hp|]. split.
  - destruct (Hv _ _ H2) as (seen' & ? & Hs). exists seen'. split; [done|]. by apply Hs.
  - intros feature pattern Hin Ht. by apply Hp, (H4 _ pattern).
Qed.

Lemma extractPropertiesFromAst_spec root properties values :
  let st := extractPropertiesFromAst root properties values in
  (NoDup properties -> NoDup st.1) /\
  properties ⊆ st.1 /\
  valuesLe values st.2 /\
  declarationsRecorded root st.1 st.2.
Proof.
  unfold extractPropertiesFromAst. rewrite walk_allNodes.
  change (fun acc n => propertiesCallback n acc) with propertiesStep.
  split; [|split; [|split]].
  - apply (foldl_keep propertiesStep
             (fun st => NoDup properties -> NoDup st.1)); [|done].
    intros st y H Hnd. by apply propertiesStep_grows, H.
  - apply (foldl_keep propertiesStep (fun st => properties ⊆ st.1)); [|done].
    intros st y H. etrans; [exact H|]. apply propertiesStep_grows.
  - apply (foldl_keep propertiesStep (fun st => valuesLe values st.2));
      [|apply valuesLe_refl].
    intros st y H. eapply valuesLe_trans; [exact H|]. apply propertiesStep_grows.
  - intros p v Hin.
    apply (foldl_establish propertiesStep (declRecorded p v) _ _ Hin).
    + intros [ps vs]. unfold propertiesStep. rewrite propertiesCallback_Decl.
      split; [|split]; cbn [fst snd].
      * apply extractValueFeatures_elem. left. apply setAdd_elem. by left.
      * rewrite lookup_insert_eq. eexists. split; [done|]. apply setAdd_elem. by left.
      * intros feature pattern Hf Ht. apply extractValueFeatures_elem. right.
        by exists (feature, pattern).
    + intros st y. apply declRecorded_mono; apply propertiesStep_grows.
Qed.

Lemma declarationsRecorded_mono root ps vs ps' vs' :
  ps ⊆ ps' -> valuesLe vs vs' ->
  declarationsRecorded root ps vs -> declarationsRecorded root ps' vs'.
Proof.
  intros Hp Hv H p v Hin.
  by apply (declRecorded_mono p v (ps, vs) (ps', vs') Hp Hv), H.
Qed.

(** *** The walk over the at-rules *)

Lemma mediaFeatureKeys_empty : mediaFeatureKeys "" = Some [].
Proof. reflexivity. Qed.

Lemma atRulesStep_spec atRules node :
  exists atRules',
    atRulesStep (Some atRules) node = Some atRules' /\
    (NoDup atRules -> NoDup atRules') /\
    atRules ⊆ atRules' /\
    match node with
    | AtRule name params _ => atRuleRecorded name params atRules'
    | _ => True
    end.
Proof.
  unfold atRulesStep, atRulesCallback.
  destruct node as [|name params nodes| |]; try by (exists atRules).
  set (named := setAdd ("@" +:+ toLowerCase name) atRules).
  assert (Hnamed : ("@" +:+ toLowerCase name) ∈ named) by (apply setAdd_elem; by left).
  destruct (String.eqb_spec (toLowerCase name) "media") as [Hm|Hm].
  - assert (Hs : String.eqb (toLowerCase name) "supports" = false) by (by rewrite Hm).
    rewrite Hs. clear Hs.
    destruct params as [|c params].
    + cbn [isEmpty negb andb]. exists named. split; [done|].
      split; [apply setAdd_NoDup|]. split; [apply setAdd_subseteq|].
      split; [done|]. intros _. exists []. split; [done|].
      intros x Hx. by apply elem_of_nil in Hx.
    + cbn [isEmpty negb andb].
      destruct (extractMediaFeatures_spec (String c params) named)
        as (keys & atRules' & Hk & -> & Hnd & Hel).
      exists atRules'. split; [done|].
      split; [intros H; by apply Hnd, setAdd_NoDup|]. split.
      * intros x Hx. apply Hel. left. by apply setAdd_subseteq.
      * split; [apply Hel; by left|].
        intros _. exists keys. split; [done|]. intros x Hx. apply Hel. by right.
  - cbn [andb].
    exists (if String.eqb (toLowerCase name) "supports"
            then setAdd "@supports" named else named).
    split; [by destruct (String.eqb _ _)|]. split; [|split; [|split]].
    + intros H. destruct (String.eqb _ _); [apply setAdd_NoDup|]; by apply setAdd_NoDup.
    + intros x Hx. destruct (String.eqb _ _); [apply setAdd_subseteq|];
        by apply setAdd_subseteq.
    + destruct (String.eqb _ _); [by apply setAdd_subseteq|done].
    + done.
Qed.

Lemma atRuleRecorded_mono name params atRules atRules' :
  atRules ⊆ atRules' -> atRuleRecorded name params atRules ->
  atRuleRecorded name params atRules'.
Proof.
  intros Hs [H1 H2]. split; [by apply Hs|]. intros Hm.
  destruct (H2 Hm) as (keys & ? & ?). exists keys. split; [done|]. by etrans.
Qed.

Lemma extractAtRulesFromAst_spec root atRules :
  exists atRules',
    extractAtRulesFromAst root atRules = Some atRules' /\
    (NoDup atRules -> NoDup atRules') /\
    atRules ⊆ atRules' /\
    atRulesRecorded root atRules'.
Proof.
  unfold extractAtRulesFromAst. rewrite walk_allNodes.
  change (fun acc n => atRulesCallback n acc) with atRulesStep.
  unfold atRulesRecorded. generalize (allNodes root). intros l.
  revert atRules. induction l as [|node l IH]; intros atRules; cbn [foldl].
  - exists atRules. split; [done|]. split; [done|]. split; [done|].
    intros name params nodes H. by apply elem_of_nil in H.
  - destruct (atRulesStep_spec atRules node) as (mid & -> & Hnd & Hsub & Hrec).
    destruct (IH mid) as (atRules' & -> & Hnd' & Hsub' & Hrec').
    exists atRules'. split; [done|]. split; [auto|]. split; [by etrans|].
    intros name params nodes [Heq|Hin]%elem_of_cons; [subst node|by eapply Hrec'].
    by apply (atRuleRecorded_mono _ _ mid).
Qed.

Lemma atRulesRecorded_mono root atRules atRules' :
  atRules ⊆ atRules' -> atRulesRecorded root atRules -> atRulesRecorded root atRules'.
Proof.
  intros Hs H name params nodes Hin.
  by apply (atRuleRecorded_mono _ _ atRules), (H _ _ nodes).
Qed.

Section WithParser.
Variable safeParser : string -> option Root.

Lemma inlineStyleRecorded_mono m ps vs ps' vs' :
  ps ⊆ ps' -> valuesLe vs vs' ->
  inlineStyleRecorded safeParser m ps vs -> inlineStyleRecorded safeParser m ps' vs'.
Proof.
  unfold inlineStyleRecorded. intros Hp Hv.
  destruct (safeParser _) as [root|].
  - by apply declarationsRecorded_mono.
  - intros (names & ? & ?). exists names. split; [done|]. by etrans.
Qed.

Lemma styleBlockRecorded_mono m ps ars vs ps' ars' vs' :
  ps ⊆ ps' -> ars ⊆ ars' -> valuesLe vs vs' ->
  styleBlockRecorded safeParser m ps ars vs ->
  styleBlockRecorded safeParser m ps' ars' vs'.
Proof.
  unfold styleBlockRecorded. intros Hp Ha Hv.
  destruct (safeParser _) as [root|].
  - intros [? ?]. split; [by eapply declarationsRecorded_mono|
                          by eapply atRulesRecorded_mono].
  - intros [(names & ? & ?) (rules & ? & ?)]. split.
    + exists names. split; [done|]. by etrans.
    + exists rules. split; [done|]. by etrans.
Qed.

Lemma extractInlineStyles_spec html properties values :
  exists ms properties' values',
    execAll true inlineStyleRegex html = Some ms /\
    extractInlineStyles safeParser html properties values
      = Some (properties', values') /\
    (NoDup properties -> NoDup properties') /\
    properties ⊆ properties' /\
    valuesLe values values' /\
    (forall m, m ∈ ms -> inlineStyleRecorded safeParser m properties' values').
Proof.
  unfold extractInlineStyles.
  destruct (whileExec_rule
    (fun ms (st : list string * gmap string (list string)) =>
       (NoDup properties -> NoDup st.1) /\
       properties ⊆ st.1 /\
       valuesLe values st.2 /\
       forall m, m ∈ ms -> inlineStyleRecorded safeParser m st.1 st.2)
    true inlineStyleRegex
    (fun m '(properties, values) =>
       let styleContent := group' 1 m in
       let wrappedCss := "* { " +:+ styleContent +:+ " }" in
       match safeParser wrappedCss with
       | Some root => Some (extractPropertiesFromAst root properties values)
       | None =>
           match extractPropertiesSimple styleContent properties with
           | Some properties => Some (properties, values)
           | None => None
           end
       end)
    html (properties, values))
    as (ms & [ps' vs'] & H1 & H2 & H3); [cbv; lia| | |].
  - split; [done|]. split; [done|]. split; [apply valuesLe_refl|].
    intros m H. by apply elem_of_nil in H.
  - intros ms m [ps vs] (Hnd & Hsub & Hle & Hrec). cbn [fst snd] in *.
    assert (Hstep : exists ps' vs',
      match safeParser ("* { " +:+ group' 1 m +:+ " }") with
      | Some root => Some (extractPropertiesFromAst root ps vs)
      | None =>
          match extractPropertiesSimple (group' 1 m) ps with
          | Some properties => Some (properties, vs)
          | None => None
          end
      end = Some (ps', vs') /\
      (NoDup ps -> NoDup ps') /\ ps ⊆ ps' /\ valuesLe vs vs' /\
      inlineStyleRecorded safeParser m ps' vs').
    { unfold inlineStyleRecorded.
      destruct (safeParser _) as [root|].
      - pose proof (extractPropertiesFromAst_spec root ps vs) as H.
        destruct (extractPropertiesFromAst root ps vs) as [ps' vs'].
        cbn [fst snd] in H. exists ps', vs'. tauto.
      - destruct (extractPropertiesSimple_spec (group' 1 m) ps)
          as (names & ps' & Hn & -> & Hnd' & Hel).
        exists ps', vs. split; [done|]. split; [done|].
        split; [intros x Hx; apply Hel; by left|].
        split; [apply valuesLe_refl|].
        exists names. split; [done|]. intros x Hx. apply Hel. by right. }
    destruct Hstep as (ps' & vs' & -> & Hnd' & Hsub' & Hle' & Hm).
    exists (ps', vs'). split; [done|]. cbn [fst snd].
    split; [auto|]. split; [by etrans|]. split; [by eapply valuesLe_trans|].
    intros m' [Hin| ->%list_elem_of_singleton]%elem_of_app; [|done].
    by apply (inlineStyleRecorded_mono m' ps vs), Hrec.
  - cbn [fst snd] in H3. exists ms, ps', vs'. tauto.
Qed.

Lemma extractStyleTags_spec html properties atRules values :
  exists ms properties' atRules' values',
    execAll true styleTagRegex html = Some ms /\
    extractStyleTags safeParser html properties atRules values
      = Some (properties', atRules', values') /\
    (NoDup properties -> NoDup properties') /\
    (NoDup atRules -> NoDup atRules') /\
    properties ⊆ properties' /\
    valuesLe values values' /\
    (ms = [] -> atRules' = atRules) /\
    (forall m, m ∈ ms ->
       styleBlockRecorded safeParser m properties' atRules' values').
Proof.
  unfold extractStyleTags.
  destruct (whileExec_rule
    (fun ms (st : list string * list string * gmap string (list string)) =>
       (NoDup properties -> NoDup st.1.1) /\
       (NoDup atRules -> NoDup st.1.2) /\
       properties ⊆ st.1.1 /\
       valuesLe values st.2 /\
       (ms = [] -> st.1.2 = atRules) /\
       forall m, m ∈ ms -> styleBlockRecorded safeParser m st.1.1 st.1.2 st.2)
    true styleTagRegex
    (fun m '(properties, atRules, values) =>
       let cssContent := group' 1 m in
       match safeParser cssContent with
       | Some root =>
           let '(properties, values) :=
             extractPropertiesFromAst root properties values in
           match extractAtRulesFromAst root atRules with
           | Some atRules => Some (properties, atRules, values)
           | None => None
           end
       | None =>
           match extractPropertiesSimple cssContent properties with
           | Some properties =>
               match extractAtRulesSimple cssContent atRules with
               | Some atRules => Some (properties, atRules, values)
               | None => None
               end
           | None => None
           end
       end)
    html (properties, atRules, values))
    as (ms & [[ps' ars'] vs'] & H1 & H2 & H3); [cbv; lia| | |].
  - split; [done|]. split; [done|]. split; [done|]. split; [apply valuesLe_refl|].
    split; [done|]. intros m H. by apply elem_of_nil in H.
  - intros ms m [[ps ars] vs] (Hnd & Hnda & Hsub & Hle & _ & Hrec). cbn [fst snd] in *.
    assert (Hstep : exists ps' ars' vs',
      match safeParser (group' 1 m) with
      | Some root =>
          let '(properties, values) := extractPropertiesFromAst root ps vs in
          match extractAtRulesFromAst root ars with
          | Some atRules => Some (properties, atRules, values)
          | None => None
          end
      | None =>
          match extractPropertiesSimple (group' 1 m) ps with
          | Some properties =>
              match extractAtRulesSimple (group' 1 m) ars with
              | Some atRules => Some (properties, atRules, vs)
              | None => None
              end
          | None => None
          end
      end = Some (ps', ars', vs') /\
      (NoDup ps -> NoDup ps') /\ (NoDup ars -> NoDup ars') /\
      ps ⊆ ps' /\ ars ⊆ ars' /\ valuesLe vs vs' /\
      styleBlockRecorded safeParser m ps' ars' vs').
    { unfold styleBlockRecorded.
      destruct (safeParser _) as [root|].
      - pose proof (extractPropertiesFromAst_spec root ps vs) as H.
        destruct (extractPropertiesFromAst root ps vs) as [ps' vs'].
        cbn [fst snd] in H.
        destruct (extractAtRulesFromAst_spec root ars) as (ars' & -> & ? & ? & ?).
        exists ps', ars', vs'. tauto.
      - destruct (extractPropertiesSimple_spec (group' 1 m) ps)
          as (names & ps' & Hn & -> & Hnd' & Hel).
        destruct (extractAtRulesSimple_spec (group' 1 m) ars)
          as (rules & ars' & Hr & -> & Hnda' & Hela).
        exists ps', ars', vs. split; [done|]. split; [done|]. split; [done|].
        split; [intros x Hx; apply Hel; by left|].
        split; [intros x Hx; apply Hela; by left|].
        split; [apply valuesLe_refl|]. split.
        + exists names. split; [done|]. intros x Hx. apply Hel. by right.
        + exists rules. split; [done|]. intros x Hx. apply Hela. by right. }
    destruct Hstep as (ps' & ars' & vs' & -> & Hnd' & Hnda' & Hsub' & Hsuba' & Hle' & Hm).
    exists (ps', ars', vs'). split; [done|]. cbn [fst snd].
    split; [auto|]. split; [auto|]. split; [by etrans|].
    split; [by eapply valuesLe_trans|].
    split; [intros Hnil; by destruct ms|].
    intros m' [Hin| ->%list_elem_of_singleton]%elem_of_app; [|done].
    by apply (styleBlockRecorded_mono m' ps ars vs), Hrec.
  - cbn [fst snd] in H3. exists ms, ps', ars', vs'. tauto.
Qed.

(** Everything the extractor guarantees for a document. *)
Lemma extractFeatures_spec html :
  exists inl blocks r,
    execAll true inlineStyleRegex html = Some inl /\
    execAll true styleTagRegex html = Some blocks /\
    extractFeatures safeParser html = Some r /\
    NoDup (cssProperties r) /\ NoDup (cssAtRules r) /\
    NoDup (htmlElements r) /\ NoDup (htmlAttributes r) /\
    (blocks = [] -> cssAtRules r = []) /\
    (forall m, m ∈ inl ->
       inlineStyleRecorded safeParser m (cssProperties r) (cssValues r)) /\
    (forall m, m ∈ blocks ->
       styleBlockRecorded safeParser m (cssProperties r) (cssAtRules r) (cssValues r)).
Proof.
  unfold extractFeatures.
  destruct (extractInlineStyles_spec html [] ∅)
    as (inl & ps1 & vs1 & Hinl & -> & Hnd1 & _ & _ & Hrec1).
  destruct (extractStyleTags_spec html ps1 [] vs1)
    as (blocks & ps2 & ars2 & vs2 & Hbl & -> & Hnd2 & Hnda2 & Hsub2 & Hle2 & He2 & Hrec2).
  destruct (extractHtmlAttributes_spec html) as (attrs & -> & Hndat).
  destruct (extractHtmlElements_spec html) as (els & -> & Hndel).
  exists inl, blocks. eexists. split; [done|]. split; [done|]. split; [done|].
  cbn [cssProperties cssAtRules htmlElements htmlAttributes cssValues].
  split; [apply Hnd2, Hnd1, NoDup_nil_2|]. split; [apply Hnda2, NoDup_nil_2|].
  split; [done|]. split; [done|]. split; [done|]. split; [|done].
  intros m Hm. by apply (inlineStyleRecorded_mono m ps1 vs1), Hrec1.
Qed.

End WithParser.

(** *** The tokens of the scans *)


Lemma spaceClass_spec c : classMatches true false [CSpace] c = isSpace c.
Proof. unfold classMatches. simpl. by destruct (isSpace c). Qed.



Lemma allChars_ext p q w :
  (forall c, p c = q c) -> allChars p w = allChars q w.
Proof. intros E. induction w as [|c w IH]; simpl; [done|]. by rewrite E, IH. Qed.

Lemma allChars_impl p q w :
  (forall c, p c = true -> q c = true) -> allChars p w = true -> allChars q w = true.
Proof.
  intros E. induction w as [|c w IH]; simpl; [done|].
  intros [Hc Hw]%andb_prop. by rewrite (E _ Hc), IH.
Qed.

Lemma allChars_app p a b : allChars p (a +:+ b) = allChars p a && allChars p b.
Proof.
  induction a as [|c a IH]; [done|]. rewrite append_cons. simpl.
  by rewrite IH, andb_assoc.
Qed.


Lemma stripLit_one icase a w :
  stripLit icase (String a "") w = Some "" ->
  exists b, w = String b "" /\ sameChar icase a b = true.
Proof.
  simpl. destruct w as [|b w]; [done|].
  destruct (sameChar icase a b) eqn:E; [|done]. intros [= ->]. by exists b.
Qed.

(** *** Shapes of the matches *)




(** *** No match reaches over the start of a token *)

(** A match whose characters after the first are not [x] does not
    reach over an [x]. *)
Lemma stops_before_char x w c w' u2 v' rest_ :
  w = String c w' -> noneIs x w' = true ->
  u2 <> "" ->
  u2 +:+ String x v' = w +:+ rest_ ->
  String.length w <= String.length u2.
Proof.
  intros -> Hw Hne E.
  destruct (le_lt_dec (String.length (String c w')) (String.length u2)) as [|Hlt]; [done|].
  exfalso. symmetry in E.
  destruct (append_split _ _ _ _ E ltac:(lia)) as (y & Ey & Ex).
  destruct y as [|x' y].
  { rewrite append_nil_r in Ey. rewrite Ey in Hlt. lia. }
  rewrite append_cons in Ex. injection Ex as <- _.
  destruct u2 as [|c0 u2]; [done|]. rewrite append_cons in Ey. injection Ey as _ ->.
  unfold noneIs in Hw. rewrite allChars_app in Hw. simpl in Hw.
  rewrite Ascii.eqb_refl in Hw. simpl in Hw. by rewrite andb_false_r in Hw.
Qed.


(** Name characters followed by other characters: nowhere in such a
    text does a name character follow another character. *)
Lemma run_then_others p n : forall x a b c d,
  allChars p n = true ->
  allChars (fun c => negb (p c)) x = true ->
  n +:+ x = a +:+ String b (String c d) ->
  p b = false -> p c = true -> False.
Proof.
  induction n as [|y n IH]; intros x a b c d Hn Hx E Hb Hc.
  - change ("" +:+ x) with x in E. subst x. rewrite allChars_app in Hx. simpl in Hx.
    rewrite Hc in Hx. simpl in Hx. by rewrite !andb_false_r in Hx.
  - simpl in Hn. apply andb_prop in Hn as [Hy Hn]. rewrite append_cons in E.
    destruct a as [|z a].
    + change ("" +:+ String b (String c d)) with (String b (String c d)) in E.
      injection E as -> _. congruence.
    + rewrite append_cons in E. injection E as _ E. by apply (IH x a b c d).
Qed.



(** *** The match at a token *)

Lemma stopsAt_cons p c s : p c = false -> stopsAt p (String c s).
Proof. done. Qed.


Lemma stopsAt_ext p q s : (forall c, p c = q c) -> stopsAt q s -> stopsAt p s.
Proof. intros E. destruct s as [|c s]; [done|]. simpl. by rewrite E. Qed.



(** *** Every token is found *)







(** *** Lower case *)
























Section WithParser.
Variable safeParser : string -> option Root.




End WithParser.

(** *** What the value map and the at-rule set hold *)

Lemma foldl_keep_in {S B} (step : S -> B -> S) (Q : S -> Prop) l :
  (forall st y, y ∈ l -> Q st -> Q (step st y)) ->
  forall st, Q st -> Q (foldl step st l).
Proof.
  induction l as [|y l IH]; intros Hkeep st H; simpl; [done|].
  apply IH.
  - intros st' z Hz. apply Hkeep. by right.
  - apply Hkeep; [left|done].
Qed.

Lemma valuesDeclared_mono (T1 T2 : Root -> Prop) values :
  (forall root, T1 root -> T2 root) -> valuesDeclared T1 values -> valuesDeclared T2 values.
Proof.
  intros HT H key seen val Hk Hv.
  destruct (H key seen val Hk Hv) as (root & p & v & ? & ?). exists root, p, v. auto.
Qed.

Lemma valuesDeclared_empty T : valuesDeclared T ∅.
Proof. intros key seen val H. by rewrite lookup_empty in H. Qed.

(** The callback changes the value map at the lower-case name of the
    declaration only. *)
Lemma propertiesCallback_values_other p v properties (values : gmap string (list string)) key :
  key <> toLowerCase p ->
  (propertiesCallback (Decl p v) (properties, values)).2 !! key = values !! key.
Proof.
  intros Hne. rewrite propertiesCallback_Decl. cbn [snd].
  by rewrite lookup_insert_ne.
Qed.

Lemma propertiesStep_declared (T : Root -> Prop) root st node :
  T root -> node ∈ allNodes root ->
  valuesDeclared T st.2 -> valuesDeclared T (propertiesStep st node).2.
Proof.
  intros HT Hin H. destruct st as [properties values]. unfold propertiesStep.
  destruct node as [p v| | |]; try done.
  rewrite propertiesCallback_Decl. cbn [fst snd] in *.
  intros key seen val Hk Hv.
  destruct (decide (key = toLowerCase p)) as [->|Hne].
  - rewrite lookup_insert_eq in Hk. injection Hk as <-.
    apply setAdd_elem in Hv as [->|Hv].
    + exists root, p, v. done.
    + destruct (values !! toLowerCase p) as [old|] eqn:E; simpl in Hv.
      * by apply (H _ old).
      * by apply elem_of_nil in Hv.
  - rewrite lookup_insert_ne in Hk by done. by apply (H _ seen).
Qed.

Lemma extractPropertiesFromAst_declared (T : Root -> Prop) root properties values :
  T root -> valuesDeclared T values ->
  valuesDeclared T (extractPropertiesFromAst root properties values).2.
Proof.
  intros HT H. unfold extractPropertiesFromAst. rewrite walk_allNodes.
  change (fun acc n => propertiesCallback n acc) with propertiesStep.
  apply (foldl_keep_in propertiesStep (fun st => valuesDeclared T st.2)); [|done].
  intros st node Hin. by apply (propertiesStep_declared T root).
Qed.

(** *** What the at-rule set holds *)

Lemma atRulesStep_sound atRules node atRules' x :
  atRulesStep (Some atRules) node = Some atRules' ->
  x ∈ atRules' ->
  x ∈ atRules \/
  match node with
  | AtRule name params _ => atRuleKey name params x
  | _ => False
  end.
Proof.
  unfold atRulesStep, atRulesCallback.
  destruct node as [|name params nodes| |]; try (intros [= <-]; by left).
  set (named := setAdd ("@" +:+ toLowerCase name) atRules).
  assert (Hnamed : x ∈ named -> x ∈ atRules \/ atRuleKey name params x).
  { intros [->|?]%setAdd_elem; [right; by left|by left]. }
  destruct (String.eqb_spec (toLowerCase name) "media") as [Hm|Hm].
  - assert (Hs : String.eqb (toLowerCase name) "supports" = false) by (by rewrite Hm).
    rewrite Hs. clear Hs.
    destruct params as [|c params]; cbn [isEmpty negb andb].
    + intros [= <-]. exact Hnamed.
    + destruct (extractMediaFeatures_spec (String c params) named)
        as (keys & out & Hk & -> & _ & Hel).
      intros [= <-] [Hx|Hx]%Hel; [by apply Hnamed|].
      right. right. split; [done|]. by exists keys.
  - cbn [andb]. destruct (String.eqb_spec (toLowerCase name) "supports") as [Hs|Hs].
    + intros [= <-] [->|Hx]%setAdd_elem; [|by apply Hnamed].
      right. left. by rewrite Hs.
    + intros [= <-]. exact Hnamed.
Qed.

Lemma atRulesFold_sound l : forall atRules atRules' x,
  foldl atRulesStep (Some atRules) l = Some atRules' ->
  x ∈ atRules' ->
  x ∈ atRules \/
  exists name params nodes, AtRule name params nodes ∈ l /\ atRuleKey name params x.
Proof.
  induction l as [|node l IH]; intros atRules atRules' x; cbn [foldl].
  - intros [= <-]. by left.
  - destruct (atRulesStep_spec atRules node) as (mid & Hmid & _).
    rewrite Hmid. intros Hrun Hx.
    destruct (IH mid atRules' x Hrun Hx) as [Hin|(name & params & nodes & Hin & Hkey)].
    + destruct (atRulesStep_sound atRules node mid x Hmid Hin) as [?|Hkey]; [by left|].
      right. destruct node as [|name params nodes| |]; try done.
      exists name, params, nodes. split; [left|done].
    + right. exists name, params, nodes. split; [by right|done].
Qed.

Lemma extractAtRulesFromAst_sound root atRules atRules' x :
  extractAtRulesFromAst root atRules = Some atRules' ->
  x ∈ atRules' ->
  x ∈ atRules \/
  exists name params nodes,
    AtRule name params nodes ∈ allNodes root /\ atRuleKey name params x.
Proof.
  unfold extractAtRulesFromAst. rewrite walk_allNodes.
  change (fun acc n => atRulesCallback n acc) with atRulesStep.
  apply atRulesFold_sound.
Qed.


Section WithParser.
Variable safeParser : string -> option Root.

Lemma extractInlineStyles_declared html properties values (T0 : Root -> Prop) :
  valuesDeclared T0 values ->
  exists ms properties' values',
    execAll true inlineStyleRegex html = Some ms /\
    extractInlineStyles safeParser html properties values
      = Some (properties', values') /\
    valuesDeclared (fun root => T0 root \/ inlineTreeOf safeParser ms root) values'.
Proof.
  intros H0. unfold extractInlineStyles.
  destruct (whileExec_rule
    (fun ms (st : list string * gmap string (list string)) =>
       valuesDeclared (fun root => T0 root \/ inlineTreeOf safeParser ms root) st.2)
    true inlineStyleRegex
    (fun m '(properties, values) =>
       let styleContent := group' 1 m in
       let wrappedCss := "* { " +:+ styleContent +:+ " }" in
       match safeParser wrappedCss with
       | Some root => Some (extractPropertiesFromAst root properties values)
       | None =>
           match extractPropertiesSimple styleContent properties with
           | Some properties => Some (properties, values)
           | None => None
           end
       end)
    html (properties, values))
    as (ms & [ps' vs'] & H1 & H2 & H3); [cbv; lia| | |].
  - cbn [snd]. revert H0. apply valuesDeclared_mono. auto.
  - intros ms m [ps vs] Hinv. cbn [snd] in *.
    assert (Hmono : valuesDeclared
              (fun root => T0 root \/ inlineTreeOf safeParser (ms ++ [m]) root) vs).
    { revert Hinv. apply valuesDeclared_mono. intros root [?|(m' & Hm' & Hp)]; [by left|].
      right. exists m'. split; [|done]. apply elem_of_app. by left. }
    destruct (safeParser ("* { " +:+ group' 1 m +:+ " }")) as [root|] eqn:Hp.
    + eexists. split; [done|].
      apply extractPropertiesFromAst_declared; [|done].
      right. exists m. split; [|done]. apply elem_of_app. right. left.
    + destruct (extractPropertiesSimple_spec (group' 1 m) ps)
        as (names & ps' & _ & -> & _). eexists. split; [done|]. done.
  - exists ms, ps', vs'. done.
Qed.

Lemma extractStyleTags_sound html properties atRules values (T0 : Root -> Prop) :
  valuesDeclared T0 values ->
  exists ms properties' atRules' values',
    execAll true styleTagRegex html = Some ms /\
    extractStyleTags safeParser html properties atRules values
      = Some (properties', atRules', values') /\
    (forall x, x ∈ atRules' ->
       x ∈ atRules \/ exists m, m ∈ ms /\ fromStyleBlock safeParser m x) /\
    valuesDeclared (fun root => T0 root \/ blockTreeOf safeParser ms root) values'.
Proof.
  intros H0. unfold extractStyleTags.
  destruct (whileExec_rule
    (fun ms (st : list string * list string * gmap string (list string)) =>
       (forall x, x ∈ st.1.2 ->
          x ∈ atRules \/ exists m, m ∈ ms /\ fromStyleBlock safeParser m x) /\
       valuesDeclared (fun root => T0 root \/ blockTreeOf safeParser ms root) st.2)
    true styleTagRegex
    (fun m '(properties, atRules, values) =>
       let cssContent := group' 1 m in
       match safeParser cssContent with
       | Some root =>
           let '(properties, values) :=
             extractPropertiesFromAst root properties values in
           match extractAtRulesFromAst root atRules with
           | Some atRules => Some (properties, atRules, values)
           | None => None
           end
       | None =>
           match extractPropertiesSimple cssContent properties with
           | Some properties =>
               match extractAtRulesSimple cssContent atRules with
               | Some atRules => Some (properties, atRules, values)
               | None => None
               end
           | None => None
           end
       end)
    html (properties, atRules, values))
    as (ms & [[ps' ars'] vs'] & H1 & H2 & H3); [cbv; lia| | |].
  - cbn [fst snd]. split; [by left|]. revert H0. apply valuesDeclared_mono. auto.
  - intros ms m [[ps ars] vs] [Hars Hvs]. cbn [fst snd] in *.
    assert (Hmono : valuesDeclared
              (fun root => T0 root \/ blockTreeOf safeParser (ms ++ [m]) root) vs).
    { revert Hvs. apply valuesDeclared_mono. intros root [?|(m' & Hm' & Hp)]; [by left|].
      right. exists m'. split; [|done]. apply elem_of_app. by left. }
    assert (Hold : forall x, x ∈ ars ->
              x ∈ atRules \/ exists m0, m0 ∈ ms ++ [m] /\ fromStyleBlock safeParser m0 x).
    { intros x [?|(m' & Hm' & Hf)]%Hars; [by left|]. right. exists m'.
      split; [|done]. apply elem_of_app. by left. }
    assert (Hm : m ∈ ms ++ [m]) by (apply elem_of_app; right; left).
    destruct (safeParser (group' 1 m)) as [root|] eqn:Hp.
    + pose proof (extractPropertiesFromAst_declared
                    (fun root => T0 root \/ blockTreeOf safeParser (ms ++ [m]) root)
                    root ps vs) as Hd.
      destruct (extractPropertiesFromAst root ps vs) as [ps' vs'].
      destruct (extractAtRulesFromAst_spec root ars) as (ars' & Hrun & _).
      rewrite Hrun. eexists. split; [done|]. cbn [fst snd]. split.
      * intros x Hx.
        destruct (extractAtRulesFromAst_sound root ars ars' x Hrun Hx)
          as [?|(name & params & nodes & Hin & Hkey)]; [by apply Hold|].
        right. exists m. split; [done|]. unfold fromStyleBlock. rewrite Hp. eauto.
      * apply Hd; [|done]. right. by exists m.
    + destruct (extractPropertiesSimple_spec (group' 1 m) ps)
        as (names & ps' & _ & -> & _).
      destruct (extractAtRulesSimple_spec (group' 1 m) ars)
        as (rules & ars' & Hr & -> & _ & Hel).
      eexists. split; [done|]. cbn [fst snd]. split; [|done].
      intros x [?|Hx]%Hel; [by apply Hold|].
      right. exists m. split; [done|]. unfold fromStyleBlock. rewrite Hp. eauto.
  - exists ms, ps', ars', vs'. cbn [fst snd] in H3. tauto.
Qed.

(** What the at-rule set and the value map of a document hold comes
    from the style blocks, and from the declarations of the parsed
    trees. *)
Lemma extractFeatures_sound html :
  exists blocks r,
    execAll true styleTagRegex html = Some blocks /\
    extractFeatures safeParser html = Some r /\
    (forall rule, rule ∈ cssAtRules r ->
       exists block, block ∈ blocks /\ fromStyleBlock safeParser block rule) /\
    valuesDeclared (isParsedTree safeParser html) (cssValues r).
Proof.
  unfold extractFeatures.
  destruct (extractInlineStyles_declared html [] ∅ (fun _ => False))
    as (inl & ps1 & vs1 & Hinl & -> & Hv1); [apply valuesDeclared_empty|].
  destruct (extractStyleTags_sound html ps1 [] vs1 _ Hv1)
    as (blocks & ps2 & ars2 & vs2 & Hbl & -> & Hars & Hv2).
  destruct (extractHtmlAttributes_spec html) as (attrs & -> & _).
  destruct (extractHtmlElements_spec html) as (els & -> & _).
  exists blocks. eexists. split; [done|]. split; [done|].
  cbn [cssAtRules cssValues]. split.
  - intros rule [Hin|?]%Hars; [by apply elem_of_nil in Hin|done].
  - revert Hv2. apply valuesDeclared_mono.
    intros root [[[]|(m & Hm & Hp)]|(m & Hm & Hp)].
    + left. by exists inl, m.
    + right. by exists blocks, m.
Qed.

End WithParser.

(** *** The properties of the extractor *)

Lemma vendorPrefix_startsWith pre rest_ :
  pre ∈ vendorPrefixes -> startsWith (pre +:+ rest_) "-" = true.
Proof.
  unfold vendorPrefixes. rewrite !elem_of_cons, elem_of_nil.
  by intros [->|[->|[->|[->|[]]]]].
Qed.

Lemma vendorPrefix_length pre :
  pre ∈ vendorPrefixes -> 0 < String.length pre.
Proof.
  unfold vendorPrefixes. rewrite !elem_of_cons, elem_of_nil.
  intros [->|[->|[->|[->|[]]]]]; simpl; lia.
Qed.

Lemma recordedName_vendor pre rest_ :
  pre ∈ vendorPrefixes -> recordedName (pre +:+ rest_) = rest_.
Proof.
  intros H. unfold recordedName.
  by rewrite (vendorPrefix_startsWith _ _ H), replace_vendor, (vendorMatch_prefix _ _ H).
Qed.

Lemma recordedName_other prop :
  (forall pre, pre ∈ vendorPrefixes -> startsWith prop pre = false) ->
  recordedName prop = prop.
Proof.
  intros H. unfold recordedName. destruct (startsWith prop "-"); [|done].
  by rewrite replace_vendor, (vendorMatch_none _ H).
Qed.

Lemma valueFeatureNames_no_dash entry :
  entry ∈ cssFeatures -> startsWith (fst entry) "-" = false.
Proof.
  unfold cssFeatures. rewrite !elem_of_cons, elem_of_nil.
  intros H. repeat (destruct H as [->|H]; [done|]). done.
Qed.

Lemma parsedTree_recorded safeParser html root r inl blocks :
  execAll true inlineStyleRegex html = Some inl ->
  execAll true styleTagRegex html = Some blocks ->
  (forall m, m ∈ inl ->
     inlineStyleRecorded safeParser m (cssProperties r) (cssValues r)) ->
  (forall m, m ∈ blocks ->
     styleBlockRecorded safeParser m (cssProperties r) (cssAtRules r) (cssValues r)) ->
  isParsedTree safeParser html root ->
  declarationsRecorded root (cssProperties r) (cssValues r).
Proof.
  intros Hinl Hbl Hi Hb [(ms & m & Hms & Hm & Hp)|(ms & m & Hms & Hm & Hp)].
  - rewrite Hinl in Hms. injection Hms as <-.
    specialize (Hi m Hm). unfold inlineStyleRecorded in Hi. by rewrite Hp in Hi.
  - rewrite Hbl in Hms. injection Hms as <-.
    specialize (Hb m Hm). unfold styleBlockRecorded in Hb. rewrite Hp in Hb. tauto.
Qed.

Lemma vendorPrefix_differs pre unprefixed :
  pre ∈ vendorPrefixes -> unprefixed <> pre +:+ unprefixed.
Proof.
  intros Hpre Heq. apply (f_equal String.length) in Heq. rewrite append_length in Heq.
  pose proof (vendorPrefix_length _ Hpre). lia.
Qed.

(** Claim C5, as amended. For every declaration of a tree the parser
    returned for the document whose lower-case property name begins
    with one of the vendor prefixes -webkit-, -moz-, -ms-, -o-,
    extraction ends with the unprefixed name in the property set, and
    the step for the declaration does not add the prefixed name to
    the property set. The lower-case value is recorded in the value
    set kept under the lower-case prefixed name, and not under the
    unprefixed name: the step for the declaration leaves the entry of
    the unprefixed name in the value map as it is, and whatever the
    value set of the unprefixed name holds at the end is the
    lower-case value of a declaration of a parsed tree of the
    document whose lower-case name is the unprefixed name itself (so
    of another declaration than the prefixed one). *)
Theorem vendor_prefix_stripped safeParser html root declProp declValue pre unprefixed :
  isParsedTree safeParser html root ->
  Decl declProp declValue ∈ allNodes root ->
  pre ∈ vendorPrefixes ->
  toLowerCase declProp = pre +:+ unprefixed ->
  exists r,
    extractFeatures safeParser html = Some r /\
    unprefixed ∈ cssProperties r /\
    (exists seen, cssValues r !! (pre +:+ unprefixed) = Some seen /\
                  toLowerCase declValue ∈ seen) /\
    (forall properties values,
        (pre +:+ unprefixed)
          ∈ (propertiesCallback (Decl declProp declValue) (properties, values)).1 ->
        (pre +:+ unprefixed) ∈ properties) /\
    (forall properties values,
        (propertiesCallback (Decl declProp declValue) (properties, values)).2 !! unprefixed
          = values !! unprefixed) /\
    (forall seen value,
        cssValues r !! unprefixed = Some seen -> value ∈ seen ->
        exists root' declProp' declValue',
          isParsedTree safeParser html root' /\
          Decl declProp' declValue' ∈ allNodes root' /\
          toLowerCase declProp' = unprefixed /\
          toLowerCase declProp' <> toLowerCase declProp /\
          toLowerCase declValue' = value).
Proof.
  intros Htree Hdecl Hpre Hlow.
  destruct (extractFeatures_spec safeParser html)
    as (inl & blocks & r & Hinl & Hbl & Hr & _ & _ & _ & _ & _ & Hi & Hb).
  exists r. split; [done|].
  destruct (parsedTree_recorded _ _ _ _ _ _ Hinl Hbl Hi Hb Htree _ _ Hdecl)
    as (Hname & Hval & _).
  rewrite Hlow in Hname, Hval. rewrite (recordedName_vendor _ _ Hpre) in Hname.
  split; [done|]. split; [done|]. split; [|split].
  - intros properties values. rewrite propertiesCallback_Decl. cbn [fst].
    rewrite Hlow, (recordedName_vendor _ _ Hpre).
    intros [[Heq|Hin]%setAdd_elem|(entry & Hentry & Heq & _)]%extractValueFeatures_elem.
    + apply (f_equal String.length) in Heq. rewrite append_length in Heq.
      pose proof (vendorPrefix_length _ Hpre). lia.
    + done.
    + apply valueFeatureNames_no_dash in Hentry.
      rewrite <- Heq, (vendorPrefix_startsWith _ _ Hpre) in Hentry. done.
  - intros properties values. apply propertiesCallback_values_other.
    rewrite Hlow. by apply vendorPrefix_differs.
  - intros seen value Hseen Hvalue.
    destruct (extractFeatures_sound safeParser html) as (blocks' & r' & _ & Hr' & _ & Hdeclared).
    rewrite Hr in Hr'. injection Hr' as <-.
    destruct (Hdeclared _ _ _ Hseen Hvalue) as (root' & p & v & Ht & Hin & Hp & Hv).
    exists root', p, v. split; [done|]. split; [done|]. split; [done|]. split; [|done].
    rewrite Hp, Hlow. by apply vendorPrefix_differs.
Qed.

Lemma vendor_prefix_stripped_witness :
  isParsedTree prefixedParser prefixedHtml prefixedTree /\
  Decl "-webkit-border-radius" "4px" ∈ allNodes prefixedTree /\
  "-webkit-" ∈ vendorPrefixes /\
  toLowerCase "-webkit-border-radius" = "-webkit-" +:+ "border-radius" /\
  exists r,
    extractFeatures prefixedParser prefixedHtml = Some r /\
    "border-radius" ∈ cssProperties r /\
    (exists seen, cssValues r !! ("-webkit-" +:+ "border-radius") = Some seen /\
                  toLowerCase "4px" ∈ seen) /\
    (forall properties values,
        ("-webkit-" +:+ "border-radius")
          ∈ (propertiesCallback (Decl "-webkit-border-radius" "4px")
               (properties, values)).1 ->
        ("-webkit-" +:+ "border-radius") ∈ properties) /\
    (forall properties values,
        (propertiesCallback (Decl "-webkit-border-radius" "4px")
           (properties, values)).2 !! "border-radius"
          = values !! "border-radius") /\
    (forall seen value,
        cssValues r !! "border-radius" = Some seen -> value ∈ seen ->
        exists root' declProp' declValue',
          isParsedTree prefixedParser prefixedHtml root' /\
          Decl declProp' declValue' ∈ allNodes root' /\
          toLowerCase declProp' = "border-radius" /\
          toLowerCase declProp' <> toLowerCase "-webkit-border-radius" /\
          toLowerCase declValue' = value).
Proof.
  assert (H1 : isParsedTree prefixedParser prefixedHtml prefixedTree).
  { left. eexists _, _. split; [vm_compute; reflexivity|].
    split; [left|vm_compute; reflexivity]. }
  assert (H2 : Decl "-webkit-border-radius" "4px" ∈ allNodes prefixedTree).
  { simpl. right. left. }
  assert (H3 : "-webkit-" ∈ vendorPrefixes) by left.
  assert (H4 : toLowerCase "-webkit-border-radius" = "-webkit-" +:+ "border-radius")
    by reflexivity.
  split; [exact H1|]. split; [exact H2|]. split; [exact H3|]. split; [exact H4|].
  exact (vendor_prefix_stripped prefixedParser prefixedHtml prefixedTree
           "-webkit-border-radius" "4px" "-webkit-" "border-radius" H1 H2 H3 H4).
Defined.

(** The counterexample to claim C5 as stated: for
    [<div style="-webkit-border-radius:4px">] the unprefixed property
    border-radius has no value set at all; the value 4px is in the set
    of -webkit-border-radius. *)
Lemma prefixed_value_not_under_unprefixed_name :
  isParsedTree prefixedParser prefixedHtml prefixedTree /\
  Decl "-webkit-border-radius" "4px" ∈ allNodes prefixedTree /\
  exists r,
    extractFeatures prefixedParser prefixedHtml = Some r /\
    cssValues r !! "border-radius" = None /\
    cssValues r !! "-webkit-border-radius" = Some ["4px"].
Proof.
  split; [|split].
  - left. eexists _, _. split; [vm_compute; reflexivity|].
    split; [left|vm_compute; reflexivity].
  - simpl. right. left.
  - eexists. split; [vm_compute; reflexivity|]. split; vm_compute; reflexivity.
Qed.

(** Claim C10. For every declaration of a tree the parser returned
    for the document whose lower-case property name begins with a dash
    but with none of the four vendor prefixes (a custom property, an
    unlisted prefix), extraction ends with that lower-case name, its
    leading dashes included, in the property set. *)
Theorem unlisted_prefix_kept safeParser html root declProp declValue :
  isParsedTree safeParser html root ->
  Decl declProp declValue ∈ allNodes root ->
  startsWith (toLowerCase declProp) "-" = true ->
  (forall pre, pre ∈ vendorPrefixes -> startsWith (toLowerCase declProp) pre = false) ->
  exists r,
    extractFeatures safeParser html = Some r /\
    toLowerCase declProp ∈ cssProperties r.
Proof.
  intros Htree Hdecl _ Hnone.
  destruct (extractFeatures_spec safeParser html)
    as (inl & blocks & r & Hinl & Hbl & Hr & _ & _ & _ & _ & _ & Hi & Hb).
  exists r. split; [done|].
  destruct (parsedTree_recorded _ _ _ _ _ _ Hinl Hbl Hi Hb Htree _ _ Hdecl)
    as (Hname & _).
  by rewrite (recordedName_other _ Hnone) in Hname.
Qed.

Lemma unlisted_prefix_kept_witness :
  isParsedTree customParser customHtml customTree /\
  Decl "--Brand" "red" ∈ allNodes customTree /\
  startsWith (toLowerCase "--Brand") "-" = true /\
  (forall pre, pre ∈ vendorPrefixes -> startsWith (toLowerCase "--Brand") pre = false) /\
  exists r,
    extractFeatures customParser customHtml = Some r /\
    toLowerCase "--Brand" ∈ cssProperties r.
Proof.
  assert (H1 : isParsedTree customParser customHtml customTree).
  { left. eexists _, _. split; [vm_compute; reflexivity|].
    split; [left|vm_compute; reflexivity]. }
  assert (H2 : Decl "--Brand" "red" ∈ allNodes customTree).
  { simpl. right. left. }
  assert (H3 : startsWith (toLowerCase "--Brand") "-" = true) by reflexivity.
  assert (H4 : forall pre, pre ∈ vendorPrefixes ->
                           startsWith (toLowerCase "--Brand") pre = false).
  { intros pre. unfold vendorPrefixes. rewrite !elem_of_cons, elem_of_nil.
    by intros [->|[->|[->|[->|[]]]]]. }
  split; [exact H1|]. split; [exact H2|]. split; [exact H3|]. split; [exact H4|].
  exact (unlisted_prefix_kept customParser customHtml customTree "--Brand" "red"
           H1 H2 H3 H4).
Defined.





Lemma no_style_block html :
  test true styleTagRegex html = false -> execAll true styleTagRegex html = Some [].
Proof.
  unfold test, exec, execAll, execAllFrom. cbn [execLoop].
  by destruct (execFrom true styleTagRegex 0 html).
Qed.

(** Claim C9. For every document without a style block, whatever its
    style attributes hold and whatever the parser makes of them,
    extraction returns an empty at-rule set. *)
Theorem at_rules_only_from_style_blocks safeParser html :
  test true styleTagRegex html = false ->
  exists r, extractFeatures safeParser html = Some r /\ cssAtRules r = [].
Proof.
  intros Hnone%no_style_block.
  destruct (extractFeatures_spec safeParser html)
    as (inl & blocks & r & Hinl & Hbl & Hr & _ & _ & _ & _ & Hempty & _).
  exists r. split; [done|]. apply Hempty. congruence.
Qed.

Lemma at_rules_only_from_style_blocks_witness :
  test true styleTagRegex inlineMediaHtml = false /\
  isParsedTree inlineMediaParser inlineMediaHtml inlineMediaTree /\
  AtRule "media" "(x)" [Decl "color" "red"] ∈ allNodes inlineMediaTree /\
  exists r, extractFeatures inlineMediaParser inlineMediaHtml = Some r /\
            cssAtRules r = [].
Proof.
  assert (H1 : test true styleTagRegex inlineMediaHtml = false)
    by (vm_compute; reflexivity).
  split; [exact H1|]. split; [|split].
  - left. eexists _, _. split; [vm_compute; reflexivity|].
    split; [left|vm_compute; reflexivity].
  - simpl. right. left.
  - exact (at_rules_only_from_style_blocks inlineMediaParser inlineMediaHtml H1).
Defined.



End ExtractorProofs.

(* ===================================================================== *)
(** ** Captures of the matcher                                            *)
(* ===================================================================== *)

Module CaptureFacts.
Import JsString RegExp RegExpFacts RegExpNotions.

(** A pattern without groups leaves the captures as they are: the
    continuation runs on the state after the text consumed. *)
Lemma run_plain icase r : forall st k res,
  noGroups r = true ->
  run icase r st k = Some res ->
  exists w s',
    rest st = w +:+ s' /\ lang icase r w /\
    k {| pos := pos st + String.length w; rest := s'; caps := caps st |} = Some res.
Proof.
  induction r as [|l|inv items|g inv items|a IHa b IHb|a IHa b IHb|a IHa|n a IHa| |];
    intros st k res Hng; simpl.
  - intros H. exists "", (rest st). rewrite Nat.add_0_r. by destruct st.
  - destruct (stripLit icase l (rest st)) as [s'|] eqn:E; [|done].
    intros H. apply stripLit_append in E as (w & E & Hl & Hw).
    exists w, s'. by rewrite Hl.
  - destruct (rest st) as [|c s] eqn:E; [done|].
    destruct (classMatches icase inv items c) eqn:Ec; [|done].
    intros H. exists (String c ""), s. split; [done|]. split; [by exists c|].
    simpl. by rewrite Nat.add_1_r.
  - destruct g; intros H.
    + apply starGreedy_sound in H as (w & s' & E & Hw & Hk). by exists w, s'.
    + apply starLazy_sound in H as (w & s' & E & Hw & Hk). by exists w, s'.
  - simpl in Hng. apply andb_prop in Hng as [Ha Hb].
    intros H. apply (IHa _ _ _ Ha) in H as (w1 & s1 & E1 & L1 & H).
    apply (IHb _ _ _ Hb) in H as (w2 & s2 & E2 & L2 & H).
    cbn [pos rest caps] in *. subst s1.
    exists (w1 +:+ w2), s2. rewrite append_assoc, append_length.
    split; [done|]. split; [by exists w1, w2|]. by rewrite Nat.add_assoc.
  - simpl in Hng. apply andb_prop in Hng as [Ha Hb].
    destruct (run icase a st k) eqn:E.
    + intros [= ->]. apply (IHa _ _ _ Ha) in E as (w & s' & ? & ? & ?).
      exists w, s'. auto.
    + intros H. apply (IHb _ _ _ Hb) in H as (w & s' & ? & ? & ?).
      exists w, s'. auto.
  - simpl in Hng. destruct (run icase a st k) eqn:E.
    + intros [= ->]. apply (IHa _ _ _ Hng) in E as (w & s' & ? & ? & ?).
      exists w, s'. auto.
    + intros H. exists "", (rest st). rewrite Nat.add_0_r. split; [done|].
      split; [by right|]. by destruct st.
  - done.
  - destruct (pos st =? 0); [|done]. intros H. exists "", (rest st).
    rewrite Nat.add_0_r. by destruct st.
  - destruct (isEmpty (rest st)); [|done]. intros H. exists "", (rest st).
    rewrite Nat.add_0_r. by destruct st.
Qed.

(** A group around a pattern without groups captures the text the
    pattern consumed. *)
Lemma run_group icase n a st k res :
  noGroups a = true ->
  run icase (RGroup n a) st k = Some res ->
  exists w s',
    rest st = w +:+ s' /\ lang icase a w /\
    k {| pos := pos st + String.length w; rest := s'; caps := (n, w) :: caps st |}
      = Some res.
Proof.
  intros Hng H. cbn [run] in H.
  apply (run_plain _ _ _ _ _ Hng) in H as (w & s' & E & L & H).
  cbn [pos rest caps] in H. exists w, s'. split; [done|]. split; [done|].
  rewrite E in H.
  replace (pos st + String.length w - pos st) with (String.length w) in H by lia.
  by rewrite take_append in H.
Qed.

Lemma run_plain_at icase r p s c k res :
  noGroups r = true ->
  run icase r {| pos := p; rest := s; caps := c |} k = Some res ->
  exists w s',
    s = w +:+ s' /\ lang icase r w /\
    k {| pos := p + String.length w; rest := s'; caps := c |} = Some res.
Proof. intros Hng H. exact (run_plain icase r _ k res Hng H). Qed.

Lemma run_group_at icase n a p s c k res :
  noGroups a = true ->
  run icase (RGroup n a) {| pos := p; rest := s; caps := c |} k = Some res ->
  exists w s',
    s = w +:+ s' /\ lang icase a w /\
    k {| pos := p + String.length w; rest := s'; caps := (n, w) :: c |} = Some res.
Proof. intros Hng H. exact (run_group icase n a _ k res Hng H). Qed.

Lemma run_bol icase st k : pos st = 0 -> run icase RBol st k = k st.
Proof. intros H. simpl. by rewrite H. Qed.

Lemma run_eol icase p s c k res :
  run icase REol {| pos := p; rest := s; caps := c |} k = Some res ->
  s = "" /\ k {| pos := p; rest := ""; caps := c |} = Some res.
Proof. simpl. destruct s; [done|done]. Qed.

Lemma run_opt icase a st k :
  run icase (ROpt a) st k =
    match run icase a st k with Some r => Some r | None => k st end.
Proof. done. Qed.

Lemma run_alt icase a b st k :
  run icase (RAlt a b) st k =
    match run icase a st k with Some r => Some r | None => run icase b st k end.
Proof. done. Qed.

Lemma stripLit_exact_text l w : stripLit false l w = Some "" -> w = l.
Proof.
  rewrite ExtractorProofs.stripLit_exact.
  revert w. induction l as [|a l IH]; intros w; simpl; [by intros [= ->]|].
  destruct w as [|b w]; [done|]. destruct (Ascii.eqb_spec a b) as [->|]; [|done].
  intros H%IH. by rewrite H.
Qed.

Lemma isEmpty_true s : isEmpty s = true -> s = "".
Proof. by destruct s. Qed.

Lemma stripPrefix_sound p : forall s s', stripPrefix p s = Some s' -> s = p +:+ s'.
Proof.
  induction p as [|a p IH]; intros s s'; simpl; [by intros [= ->]|].
  destruct s as [|b s]; [done|]. destruct (Ascii.eqb_spec a b) as [->|]; [|done].
  intros H%IH. rewrite append_cons. by rewrite H.
Qed.

(** A match of a pattern that starts with [^]. *)
Lemma exec_anchored icase r s m :
  exec icase (RSeq RBol r) s = Some m -> matchAt icase (RSeq RBol r) 0 s = Some m.
Proof.
  unfold exec. rewrite execFrom_unfold.
  destruct (matchAt icase (RSeq RBol r) 0 s) as [m'|]; [done|].
  destruct s as [|c s]; [done|]. by rewrite ExtractorProofs.execFrom_anchored by lia.
Qed.

End CaptureFacts.

(* ===================================================================== *)
(** ** Support levels                                                     *)
(* ===================================================================== *)

Module SupportProofs.
Import JsString RegExp Caniemail FeatureMaps RegExpFacts ClassifierProofs ExtractorProofs.
Import Examples MoreExamples RegExpNotions CaptureFacts SupportNotions.

Lemma getProp_key ps k : k ∈ map fst ps -> is_Some (getProp ps k).
Proof.
  induction ps as [|[k' v] ps IH]; simpl; [by intros ?%elem_of_nil|].
  destruct (String.eqb_spec k' k) as [->|Hne]; [by eauto|].
  intros [?|?]%elem_of_cons; [done|]. by apply IH.
Qed.

Lemma last_elem {A} (l : list A) x : last l = Some x -> x ∈ l.
Proof.
  induction l as [|y l IH]; [done|]. destruct l as [|z l].
  - intros [= ->]. left.
  - intros H. right. by apply IH.
Qed.

Lemma latestRawValue_getSupportLevel f fam plat :
  getSupportLevel f fam plat =
    match latestRawValue f fam plat with
    | None => None
    | Some (v, raw) =>
        if isEmpty v then None else
        match exec false levelRegex raw with
        | None => Some {| level := UNKNOWN; note := None; version := v |}
        | Some levelMatch =>
            Some {| level := group' 1 levelMatch;
                    note := match group 2 levelMatch with
                            | Some num =>
                                if isEmpty num then None
                                else match notesByNum f with
                                     | Some byNum => byNum !! num
                                     | None => None
                                     end
                            | None => None
                            end;
                    version := v |}
        end
    end.
Proof.
  destruct (latestRawValue f fam plat) as [[v raw]|] eqn:E.
  - by apply getSupportLevel_latest.
  - unfold latestRawValue, getSupportLevel in *.
    destruct (stats f !! fam) as [fs|]; [|done].
    destruct (fs !! plat) as [ps|]; [|done].
    destruct (last (map fst ps)) as [v|] eqn:El; [|done].
    destruct (getProp ps v) eqn:Eg; [done|].
    by destruct (isEmpty v).
Qed.

(** Property X1. [getSupportLevel] returns [null] exactly when the
    feature has no entry for the family, or none for the platform
    under the family, or the platform has no version, or the last key
    of the versions of the platform is the empty string. *)
Theorem support_level_absent f fam plat :
  getSupportLevel f fam plat = None <->
  stats f !! fam = None \/
  (exists familyStats,
      stats f !! fam = Some familyStats /\
      (familyStats !! plat = None \/
       exists platformStats,
         familyStats !! plat = Some platformStats /\
         (platformStats = [] \/ last (map fst platformStats) = Some ""))).
Proof.
  unfold getSupportLevel.
  destruct (stats f !! fam) as [fs|]; [|split; [auto|done]].
  destruct (fs !! plat) as [ps|] eqn:Ep; [|split; [eauto 6|done]].
  destruct (last (map fst ps)) as [v|] eqn:El.
  - destruct v as [|c v]; simpl.
    + split; [|done]. intros _. right. exists fs. split; [done|]. right. exists ps.
      split; [done|]. by right.
    + destruct (getProp_key ps (String c v)) as [raw ->]; [by apply last_elem|].
      split.
      * by destruct (exec false levelRegex raw).
      * intros [?|(fs' & [= <-] & [?|(ps' & Hps & Hcase)])]; try congruence.
        rewrite Ep in Hps. injection Hps as <-.
        destruct Hcase as [->|?]; [done|congruence].
  - split; [|done]. intros _. right. exists fs. split; [done|]. right. exists ps.
    split; [done|]. left. apply last_None in El. by destruct ps.
Qed.

Lemma codeClass_spec c :
  classMatches false false [CChar "y"; CChar "n"; CChar "a"; CChar "u"] c = true <->
  c ∈ supportCodes.
Proof.
  unfold classMatches, supportCodes. cbn [existsb itemMatches sameChar xorb].
  rewrite !orb_true_iff, !elem_of_cons, elem_of_nil.
  rewrite !Ascii.eqb_eq. intuition (try done; auto).
Qed.

Lemma digitClass_spec icase c : classMatches icase false [CDigit] c = isDigit c.
Proof. unfold classMatches. simpl. by destruct (isDigit c). Qed.

Lemma spaceClass_exact icase c : classMatches icase false [CSpace] c = isSpace c.
Proof. unfold classMatches. simpl. by destruct (isSpace c). Qed.

Lemma hash_not_space : isSpace "#" = false.
Proof. reflexivity. Qed.

(** The pattern of support codes accepts a raw support value, and
    captures its code and the number of its footnote. *)
Lemma levelRegex_parses code ws noteNum :
  code ∈ supportCodes ->
  allChars isSpace ws = true ->
  (forall num, noteNum = Some num -> num <> "" /\ allChars isDigit num = true) ->
  exists m,
    exec false levelRegex (rawSupportValue code ws noteNum) = Some m /\
    group' 1 m = String code "" /\ group 2 m = noteNum.
Proof.
  intros Hcode Hws Hnum.
  assert (exists st,
    run false levelRegex
      {| pos := 0; rest := rawSupportValue code ws noteNum; caps := [] |} Some = Some st /\
    lookupGroup 1 (caps st) = Some (String code "") /\
    lookupGroup 2 (caps st) = noteNum) as (st & Hrun & H1 & H2).
  { unfold levelRegex, spaces0, rawSupportValue. cbn [RCat].
    rewrite run_seq. cbn [run pos Nat.eqb]. cbn [rest].
    apply codeClass_spec in Hcode. rewrite Hcode. cbn [pos rest caps].
    destruct noteNum as [num|].
    - destruct (Hnum num eq_refl) as [Hne Hd].
      eexists. split.
      + eapply (starGreedy_max _ ws); [by rewrite (allChars_ext _ _ _ (spaceClass_exact false))| |].
        { apply stopsAt_cons. by rewrite spaceClass_exact. }
        cbn [pos rest caps].
        assert (E : run false (RSeq (RLit "#") (RGroup 2 (RPlus true false [CDigit])))
                  {| pos := 1 + (0 + String.length ws); rest := "#" +:+ num;
                     caps := [(1, take (1 - 0) (String code (ws +:+ "#" +:+ num)))] |}
                  (fun st' => run false REol st' Some)
                = Some {| pos := 1 + (0 + String.length ws) + 1 + String.length num; rest := "";
                          caps := [(2, num); (1, String code "")] |}).
        { rewrite run_seq. rewrite (run_lit false "#" num) by done.
          apply (run_group_plus_max false 2 false [CDigit] num "").
          - cbn [rest]. by rewrite append_nil_r.
          - done.
          - by rewrite (allChars_ext _ _ _ (digitClass_spec false)).
          - done.
          - cbn [pos rest caps run isEmpty]. done. }
        cbn [run] in E |- *. cbn [pos rest caps] in E |- *. rewrite E. reflexivity.
      + done.
    - eexists. split.
      + eapply (starGreedy_max _ ws); [by rewrite (allChars_ext _ _ _ (spaceClass_exact false))|done|].
        cbn [pos rest caps run stripLit isEmpty]. reflexivity.
      + done. }
  exists {| index := 0; text := take (pos st - 0) (rawSupportValue code ws noteNum);
            groups := caps st; lastIndex := pos st; after := rest st |}.
  split.
  - unfold exec. rewrite execFrom_unfold. unfold matchAt. by rewrite Hrun.
  - unfold group', group. cbn [groups]. by rewrite H1, H2.
Qed.

(** What the pattern of support codes accepts is a raw support value. *)
Lemma levelRegex_sound raw m :
  exec false levelRegex raw = Some m ->
  exists code ws noteNum,
    raw = rawSupportValue code ws noteNum /\
    code ∈ supportCodes /\
    allChars isSpace ws = true /\
    (forall num, noteNum = Some num -> num <> "" /\ allChars isDigit num = true) /\
    group' 1 m = String code "" /\ group 2 m = noteNum.
Proof.
  unfold levelRegex. cbn [RCat]. intros E%exec_anchored. revert E. unfold matchAt.
  destruct (run false _ _ Some) as [st|] eqn:Hrun; [|done].
  intros [= <-]. unfold group', group. cbn [groups].
  rewrite run_seq, run_bol in Hrun by done. rewrite run_seq in Hrun.
  apply run_group_at in Hrun as (w & s1 & -> & (code & -> & Hcode) & Hrun); [|done].
  apply codeClass_spec in Hcode.
  rewrite run_seq in Hrun.
  apply run_plain_at in Hrun as (ws & s2 & -> & Hws & Hrun); [|done].
  cbn [lang spaces0] in Hws. rewrite (allChars_ext _ _ _ (spaceClass_exact false)) in Hws.
  rewrite run_seq, run_opt in Hrun.
  match type of Hrun with
  | match ?x with _ => _ end = _ => destruct x as [r|] eqn:Hopt
  end.
  - injection Hrun as ->. rewrite run_seq in Hopt.
    apply run_plain_at in Hopt as (h & s3 & -> & Hh%stripLit_exact_text & Hopt); [|done].
    subst h.
    apply run_group_at in Hopt as (num & s4 & -> & Hnum & Hopt); [|done].
    apply run_eol in Hopt as [-> Hopt].
    injection Hopt as <-. cbn [caps lookupGroup Nat.eqb].
    destruct Hnum as (w1 & w2 & -> & (d & -> & Hd) & Hds). cbn [lang] in Hds.
    rewrite digitClass_spec in Hd.
    rewrite (allChars_ext _ _ _ (digitClass_spec false)) in Hds.
    exists code, ws, (Some (String d "" +:+ w2)).
    split; [unfold rawSupportValue; by rewrite append_nil_r|].
    split; [done|]. split; [done|]. split; [|done].
    intros num [= <-]. split; [done|]. simpl. by rewrite Hd.
  - apply run_eol in Hrun as [-> Hrun].
    injection Hrun as <-. cbn [caps lookupGroup Nat.eqb].
    exists code, ws, None. split; [done|]. done.
Qed.

Lemma footnote_spec f noteNum :
  (forall num, noteNum = Some num -> num <> "") ->
  match noteNum with
  | Some num =>
      if isEmpty num then None
      else match notesByNum f with
           | Some byNum => byNum !! num
           | None => None
           end
  | None => None
  end = footnote f noteNum.
Proof.
  intros H. unfold footnote. destruct noteNum as [num|]; [|done].
  specialize (H num eq_refl). by destruct num.
Qed.

Lemma getSupportLevel_cases f fam plat support :
  getSupportLevel f fam plat = Some support ->
  exists raw,
    latestRawValue f fam plat = Some (version support, raw) /\
    version support <> "" /\
    ((exists code noteNum,
         isSupportValue raw code noteNum /\
         level support = String code "" /\
         note support = footnote f noteNum) \/
     (exec false levelRegex raw = None /\
      level support = UNKNOWN /\ note support = None)).
Proof.
  rewrite latestRawValue_getSupportLevel.
  destruct (latestRawValue f fam plat) as [[v raw]|]; [|done].
  destruct v as [|c v]; [done|]. cbn [isEmpty].
  destruct (exec false levelRegex raw) as [m|] eqn:E.
  - intros [= <-]. cbn [version level note]. exists raw. split; [done|]. split; [done|].
    left. apply levelRegex_sound in E as (code & ws & noteNum & -> & Hc & Hws & Hn & H1 & H2).
    exists code, noteNum. split; [by exists ws|]. split; [done|].
    rewrite H2. apply footnote_spec. intros num Hnum. by apply Hn.
  - intros [= <-]. cbn [version level note]. exists raw. split; [done|]. split; [done|].
    by right.
Qed.

Lemma getSupportLevel_level f fam plat support :
  getSupportLevel f fam plat = Some support ->
  level support ∈ [YES; NO; PARTIAL; UNKNOWN].
Proof.
  intros (raw & _ & _ & [(code & noteNum & (ws & _ & Hc & _) & -> & _)|(_ & -> & _)])
    %getSupportLevel_cases.
  - unfold supportCodes in Hc. rewrite !elem_of_cons, elem_of_nil in Hc.
    destruct Hc as [->|[->|[->|[->|[]]]]]; set_solver.
  - set_solver.
Qed.

(** Property X2. When the latest raw value of a client is a well
    formed support value (a code among y, n, a, u, optional white
    space, optionally [#] and the decimal number of a footnote) and
    its version key is not empty, [getSupportLevel] returns the code
    as the level, the version key, and as note the footnote of that
    number when the feature has it: no note when the value has no
    number, when the feature has no footnotes, or none of that
    number. *)
Theorem support_value_read f fam plat v raw code noteNum :
  latestRawValue f fam plat = Some (v, raw) ->
  v <> "" ->
  isSupportValue raw code noteNum ->
  getSupportLevel f fam plat =
    Some {| level := String code ""; note := footnote f noteNum; version := v |}.
Proof.
  intros Hl Hv (ws & -> & Hc & Hws & Hn).
  rewrite latestRawValue_getSupportLevel, Hl.
  destruct v as [|c v]; [done|]. cbn [isEmpty].
  destruct (levelRegex_parses code ws noteNum Hc Hws Hn) as (m & -> & H1 & H2).
  rewrite H1, H2. f_equal. f_equal. apply footnote_spec. intros num Hnum. by apply Hn.
Qed.

Lemma support_value_read_witness :
  latestRawValue withNote "gmail" "desktop-webmail" = Some ("2021-06", "a #1") /\
  "2021-06" <> "" /\
  isSupportValue "a #1" "a" (Some "1") /\
  getSupportLevel withNote "gmail" "desktop-webmail" =
    Some {| level := "a"; note := footnote withNote (Some "1"); version := "2021-06" |} /\
  footnote withNote (Some "1") = Some "Buggy".
Proof.
  assert (H1 : latestRawValue withNote "gmail" "desktop-webmail"
               = Some ("2021-06", "a #1")) by (vm_compute; reflexivity).
  assert (H2 : "2021-06" <> "") by discriminate.
  assert (H3 : isSupportValue "a #1" "a" (Some "1")).
  { exists " ". split; [reflexivity|]. split; [do 2 right; left|].
    split; [reflexivity|]. intros num [= <-]. split; [discriminate|reflexivity]. }
  split; [exact H1|]. split; [exact H2|]. split; [exact H3|].
  split; [|vm_compute; reflexivity].
  exact (support_value_read withNote "gmail" "desktop-webmail" "2021-06" "a #1"
           "a" (Some "1") H1 H2 H3).
Defined.

(** Property X3. Every result of [getSupportLevel] has one of the four
    support codes as its level and the last version key, which is not
    empty, as its version. Either the latest raw value is a well
    formed support value, and the result has its code and the
    footnote its number refers to; or it is not, and the level is
    unknown and there is no note. *)
Theorem support_level_origin f fam plat support :
  getSupportLevel f fam plat = Some support ->
  level support ∈ [YES; NO; PARTIAL; UNKNOWN] /\
  exists raw,
    latestRawValue f fam plat = Some (version support, raw) /\
    version support <> "" /\
    ((exists code noteNum,
         isSupportValue raw code noteNum /\
         level support = String code "" /\
         note support = footnote f noteNum) \/
     ((forall code noteNum, ~ isSupportValue raw code noteNum) /\
      level support = UNKNOWN /\ note support = None)).
Proof.
  intros H. split; [by eapply getSupportLevel_level|].
  apply getSupportLevel_cases in H as (raw & Hl & Hv & Hcase).
  exists raw. split; [done|]. split; [done|].
  destruct Hcase as [?|(He & ? & ?)]; [by left|]. right. split; [|done].
  intros code noteNum (ws & -> & Hc & Hws & Hn).
  destruct (levelRegex_parses code ws noteNum Hc Hws Hn) as (m & Hm & _). congruence.
Qed.

Lemma support_level_origin_witness :
  getSupportLevel withNote "gmail" "desktop-webmail" = Some partialWithNote /\
  level partialWithNote ∈ [YES; NO; PARTIAL; UNKNOWN] /\
  exists raw,
    latestRawValue withNote "gmail" "desktop-webmail"
      = Some (version partialWithNote, raw) /\
    version partialWithNote <> "" /\
    ((exists code noteNum,
         isSupportValue raw code noteNum /\
         level partialWithNote = String code "" /\
         note partialWithNote = footnote withNote noteNum) \/
     ((forall code noteNum, ~ isSupportValue raw code noteNum) /\
      level partialWithNote = UNKNOWN /\ note partialWithNote = None)).
Proof.
  assert (H : getSupportLevel withNote "gmail" "desktop-webmail" = Some partialWithNote)
    by (vm_compute; reflexivity).
  split; [exact H|].
  exact (support_level_origin withNote "gmail" "desktop-webmail" partialWithNote H).
Defined.

(** *** The buckets *)

Lemma summaryStep_filters f r c :
  supported (summaryStep f r c) = supported r ++ List.filter (hasLevel f YES) [c] /\
  partial (summaryStep f r c) = partial r ++ List.filter (hasLevel f PARTIAL) [c] /\
  unsupported (summaryStep f r c) = unsupported r ++ List.filter (hasLevel f NO) [c] /\
  unknown (summaryStep f r c) = unknown r ++ List.filter (hasNoLevel f) [c].
Proof.
  unfold summaryStep, hasLevel, hasNoLevel. cbn [List.filter].
  destruct (getSupportLevel f (family c) (platform c)) as [support|] eqn:E.
  - apply getSupportLevel_level in E.
    unfold YES, NO, PARTIAL, UNKNOWN in *. rewrite !elem_of_cons, elem_of_nil in E.
    destruct E as [->|[->|[->|[->|[]]]]]; cbn [String.eqb Ascii.eqb Bool.eqb andb];
      cbn [supported partial unsupported unknown]; by rewrite ?app_nil_r.
  - cbn [supported partial unsupported unknown]. by rewrite ?app_nil_r.
Qed.

Lemma summary_fold_filters f l : forall r,
  let s := foldl (summaryStep f) r l in
  supported s = supported r ++ List.filter (hasLevel f YES) l /\
  partial s = partial r ++ List.filter (hasLevel f PARTIAL) l /\
  unsupported s = unsupported r ++ List.filter (hasLevel f NO) l /\
  unknown s = unknown r ++ List.filter (hasNoLevel f) l.
Proof.
  induction l as [|c l IH]; intros r; cbn [foldl].
  - cbn [List.filter]. by rewrite !app_nil_r.
  - destruct (IH (summaryStep f r c)) as (-> & -> & -> & ->).
    destruct (summaryStep_filters f r c) as (-> & -> & -> & ->).
    change (c :: l) with ([c] ++ l). rewrite !List.filter_app, <- !app_assoc. done.
Qed.

(** Property X4. The four lists of the support summary are the panel
    filtered by the latest level of each client, in the order of the
    panel: [supported] holds the clients whose level is y, [partial]
    those with a, [unsupported] those with n, and [unknown] those
    with no result or the level u. *)
Theorem summary_lists_by_level (f : CanIEmailFeature) :
  supported (getFeatureSupportSummary f) = List.filter (hasLevel f YES) MAJOR_CLIENTS /\
  partial (getFeatureSupportSummary f) = List.filter (hasLevel f PARTIAL) MAJOR_CLIENTS /\
  unsupported (getFeatureSupportSummary f) = List.filter (hasLevel f NO) MAJOR_CLIENTS /\
  unknown (getFeatureSupportSummary f) = List.filter (hasNoLevel f) MAJOR_CLIENTS.
Proof.
  unfold getFeatureSupportSummary.
  apply (summary_fold_filters f MAJOR_CLIENTS emptySummary).
Qed.

End SupportProofs.

(* ===================================================================== *)
(** ** More about the classifier                                          *)
(* ===================================================================== *)

Module ClassifierMore.
Import JsString RegExp Caniemail FeatureMaps RegExpFacts ClassifierProofs Examples.

Lemma emit_sublist l : issues (foldl emit start l) `sublist_of` l.
Proof.
  induction l as [|x l IH] using rev_ind; [done|].
  rewrite emit_snoc. unfold emit. case_bool_decide.
  - by apply sublist_inserts_r.
  - cbn [issues]. by apply sublist_app.
Qed.

Lemma emit_first x l : x ∈ issues (foldl emit start (x :: l)).
Proof.
  apply (emit_invariant (x :: l)). exists [], l. split; [done|].
  intros j Hj. by apply elem_of_nil in Hj.
Qed.

Lemma emit_nil l : issues (foldl emit start l) = [] <-> l = [].
Proof.
  split; [|by intros ->].
  destruct l as [|x l]; [done|]. intros H. pose proof (emit_first x l) as Hin.
  rewrite H in Hin. by apply elem_of_nil in Hin.
Qed.

Lemma resolved_length items m ft fmt : length (resolved items m ft fmt) <= length items.
Proof.
  unfold resolved. induction items as [|item items IH]; simpl; [done|].
  destruct (m !! item); simpl; [apply le_n_S, IH|apply Nat.le_le_succ_r, IH].
Qed.

Lemma resolved_nil items (m : gmap string CanIEmailFeature) ft fmt :
  resolved items m ft fmt = [] <-> forall item, item ∈ items -> m !! item = None.
Proof.
  unfold resolved. induction items as [|item items IH]; simpl.
  - split; [|done]. intros _ item H. by apply elem_of_nil in H.
  - destruct (m !! item) as [f|] eqn:E; simpl.
    + split; [done|]. intros H. specialize (H item ltac:(left)). congruence.
    + rewrite IH. split.
      * intros H x [->|Hx]%elem_of_cons; auto.
      * intros H x Hx. apply H. by right.
Qed.

Lemma resolved_elem items (m : gmap string CanIEmailFeature) ft fmt i :
  i ∈ resolved items m ft fmt <->
  exists item f, item ∈ items /\ m !! item = Some f /\ i = issueOf ft fmt item f.
Proof.
  unfold resolved. rewrite list_elem_of_omap. split.
  - intros (item & Hin & H). destruct (m !! item) as [f|] eqn:E; [|done].
    injection H as <-. eauto.
  - intros (item & f & Hin & E & ->). exists item. rewrite E. done.
Qed.

(** Property X5. The issues come out in processing order: the list is
    a subsequence of the issues the identifiers resolve to, taken
    category after category (CSS properties, at-rules, elements,
    attributes) and in the order of the identifiers in a category; so
    there are at most as many issues as identifiers. *)
Theorem issues_in_processing_order ps ars es ats cm em am :
  createCompatibilityIssues ps ars es ats cm em am
    `sublist_of` candidates ps ars es ats cm em am /\
  length (createCompatibilityIssues ps ars es ats cm em am)
    <= length ps + length ars + length es + length ats.
Proof.
  rewrite createCompatibilityIssues_emit.
  pose proof (emit_sublist (candidates ps ars es ats cm em am)) as H.
  split; [exact H|]. apply sublist_length in H. etrans; [exact H|].
  unfold candidates. rewrite !length_app.
  pose proof (resolved_length ps cm FtCss id).
  pose proof (resolved_length ars cm FtCssAtRule id).
  pose proof (resolved_length es em FtHtmlElement (fun el => "<" +:+ el +:+ ">")).
  pose proof (resolved_length ats am FtHtmlAttribute id).
  lia.
Qed.

(** Property X6. The classifier returns no issue exactly when no
    identifier is a key of the index of its category. *)
Theorem no_issue_iff_nothing_resolves ps ars es ats cm em am :
  createCompatibilityIssues ps ars es ats cm em am = [] <->
  (forall item, item ∈ ps -> cm !! item = None) /\
  (forall item, item ∈ ars -> cm !! item = None) /\
  (forall item, item ∈ es -> em !! item = None) /\
  (forall item, item ∈ ats -> am !! item = None).
Proof.
  rewrite createCompatibilityIssues_emit, emit_nil. unfold candidates.
  rewrite <- !resolved_nil.
  split.
  - intros H. apply app_eq_nil in H as [-> H]. apply app_eq_nil in H as [-> H].
    apply app_eq_nil in H as [-> ->]. done.
  - intros (-> & -> & -> & ->). done.
Qed.

(** Property X7. Every issue comes from an identifier of the category
    of its feature type that the index of the category maps to the
    feature of the issue; the property of the issue is the
    identifier, written between angle brackets for an element. *)
Theorem issue_provenance ps ars es ats cm em am i :
  i ∈ createCompatibilityIssues ps ars es ats cm em am ->
  match featureType i with
  | FtCss => property i ∈ ps /\ cm !! property i = Some (feature i)
  | FtCssAtRule => property i ∈ ars /\ cm !! property i = Some (feature i)
  | FtHtmlElement =>
      exists el, el ∈ es /\ property i = "<" +:+ el +:+ ">" /\
                 em !! el = Some (feature i)
  | FtHtmlAttribute => property i ∈ ats /\ am !! property i = Some (feature i)
  end.
Proof.
  rewrite createCompatibilityIssues_emit.
  intros H%emit_invariant%firstWithSlug_In. revert H. unfold candidates.
  rewrite !elem_of_app, !resolved_elem.
  intros [H|[H|[H|H]]]; destruct H as (item & f & Hin & E & ->);
    cbn [issueOf featureType property feature]; eauto.
Qed.

Lemma issue_provenance_witness :
  let i := issueOf FtHtmlElement (fun el => "<" +:+ el +:+ ">") "video" htmlVideo in
  let out := createCompatibilityIssues ["color"] [] ["video"] []
               ∅ (buildHtmlElementMap [htmlVideo]) ∅ in
  i ∈ out /\
  exists el, el ∈ ["video"] /\ property i = "<" +:+ el +:+ ">" /\
             buildHtmlElementMap [htmlVideo] !! el = Some (feature i).
Proof.
  intros i out.
  assert (H : i ∈ out) by (vm_compute; left).
  split; [exact H|].
  exact (issue_provenance ["color"] [] ["video"] [] ∅ (buildHtmlElementMap [htmlVideo]) ∅ i H).
Defined.

End ClassifierMore.

(* ===================================================================== *)
(** ** The report                                                         *)
(* ===================================================================== *)

Module ReportProofs.
Import JsString Caniemail RegExpFacts.
Import CompatibilityReport.

Lemma insertSorted_skip (x : CompatibilityIssue) l1 l2 :
  (forall y, y ∈ l1 -> (0 < compareSeverity x y)%Z) ->
  insertSorted compareSeverity x (l1 ++ l2) = l1 ++ insertSorted compareSeverity x l2.
Proof.
  induction l1 as [|y l1 IH]; intros H; simpl; [done|].
  destruct (Z.leb_spec (compareSeverity x y) 0) as [Hle|_].
  - specialize (H y ltac:(left)). lia.
  - rewrite IH; [done|]. intros z Hz. apply H. by right.
Qed.

Lemma insertSorted_here (x : CompatibilityIssue) l :
  (forall y, y ∈ l -> (compareSeverity x y <= 0)%Z) ->
  insertSorted compareSeverity x l = x :: l.
Proof.
  destruct l as [|y l]; intros H; simpl; [done|].
  destruct (Z.leb_spec (compareSeverity x y) 0) as [_|Hlt]; [done|].
  specialize (H y ltac:(left)). lia.
Qed.

Lemma ofSeverity_elem s l i : i ∈ ofSeverity s l -> severity i = s.
Proof.
  unfold ofSeverity. rewrite list_elem_of_In, filter_In. intros [_ H].
  by destruct (severity i), s.
Qed.

Lemma ofSeverity_cons s x l :
  ofSeverity s (x :: l) =
    if sameSeverity (severity x) s then x :: ofSeverity s l else ofSeverity s l.
Proof. done. Qed.

(** Sorting by severity groups the issues by severity and keeps the
    order within each group. *)
Lemma sort_by_severity l :
  sort compareSeverity l =
    ofSeverity SevError l ++ ofSeverity SevWarning l ++ ofSeverity SevSuccess l.
Proof.
  induction l as [|x l IH]; [done|].
  change (sort compareSeverity (x :: l))
    with (insertSorted compareSeverity x (sort compareSeverity l)).
  rewrite IH, !ofSeverity_cons.
  destruct (severity x) eqn:Ex; cbn [sameSeverity].
  - apply insertSorted_here. intros y Hy. unfold compareSeverity. rewrite Ex.
    destruct (severity y); simpl; lia.
  - rewrite insertSorted_skip.
    + f_equal. apply insertSorted_here. intros y Hy. unfold compareSeverity. rewrite Ex.
      apply elem_of_app in Hy as [Hy|Hy]; apply ofSeverity_elem in Hy; rewrite Hy; simpl; lia.
    + intros y Hy%ofSeverity_elem. unfold compareSeverity. rewrite Ex, Hy. simpl. lia.
  - rewrite app_assoc, insertSorted_skip.
    + rewrite <- app_assoc. do 2 f_equal. apply insertSorted_here.
      intros y Hy%ofSeverity_elem. unfold compareSeverity. rewrite Ex, Hy. simpl. lia.
    + intros y Hy. unfold compareSeverity. rewrite Ex.
      apply elem_of_app in Hy as [Hy|Hy]; apply ofSeverity_elem in Hy; rewrite Hy; simpl; lia.
Qed.

Lemma ofSeverity_app s l1 l2 : ofSeverity s (l1 ++ l2) = ofSeverity s l1 ++ ofSeverity s l2.
Proof. apply List.filter_app. Qed.

Lemma ofSeverity_same s l : ofSeverity s (ofSeverity s l) = ofSeverity s l.
Proof.
  induction l as [|x l IH]; [done|]. rewrite ofSeverity_cons.
  destruct (sameSeverity (severity x) s) eqn:E; [|done].
  rewrite ofSeverity_cons, E. by rewrite IH.
Qed.

Lemma ofSeverity_other s s' l : s <> s' -> ofSeverity s' (ofSeverity s l) = [].
Proof.
  intros Hne. induction l as [|x l IH]; [done|]. rewrite ofSeverity_cons.
  destruct (sameSeverity (severity x) s) eqn:E; [|done].
  rewrite ofSeverity_cons. destruct (sameSeverity (severity x) s') eqn:E'; [|done].
  exfalso. apply Hne. by destruct (severity x), s, s'.
Qed.

Lemma ofSeverity_partition l :
  ofSeverity SevError l ++ ofSeverity SevWarning l ++ ofSeverity SevSuccess l ≡ₚ l.
Proof.
  induction l as [|x l IH]; [done|]. rewrite !ofSeverity_cons.
  destruct (severity x); cbn [sameSeverity].
  - simpl. by rewrite IH.
  - simpl. rewrite <- Permutation_middle. by rewrite IH.
  - rewrite !app_assoc, <- Permutation_middle, <- !app_assoc. by rewrite IH.
Qed.

Lemma filteredIssues_eq issues filter :
  filteredIssues (reportLists issues filter) =
    match filter with
    | FilterAll =>
        ofSeverity SevError issues ++ ofSeverity SevWarning issues ++
        ofSeverity SevSuccess issues
    | FilterErrors => ofSeverity SevError issues
    | FilterWarnings => ofSeverity SevError issues ++ ofSeverity SevWarning issues
    end.
Proof.
  unfold reportLists. cbn [filteredIssues].
  change (fun a b => (order (severity a) - order (severity b))%Z) with compareSeverity.
  fold (ofSeverity SevError issues). fold (ofSeverity SevWarning issues).
  rewrite sort_by_severity. destruct filter.
  - done.
  - rewrite ofSeverity_same, !ofSeverity_other by done. by rewrite !app_nil_r.
  - rewrite !ofSeverity_app, !ofSeverity_same, !ofSeverity_other by done.
    by rewrite !app_nil_r.
Qed.

(** Property X8. The three lists the header counts (errors, warnings,
    successes) split the issues, whatever the filter: put one after
    the other they are a rearrangement of the issues, and their
    lengths add up to the number of issues. *)
Theorem report_lists_partition issues filter :
  let lists := reportLists issues filter in
  errors lists ++ warnings lists ++ successes lists ≡ₚ issues /\
  length (errors lists) + length (warnings lists) + length (successes lists)
    = length issues.
Proof.
  intros lists.
  assert (H : errors lists ++ warnings lists ++ successes lists ≡ₚ issues)
    by apply ofSeverity_partition.
  split; [exact H|]. apply Permutation_length in H. rewrite !length_app in H. lia.
Qed.

(** Property X9. The cards are shown by severity, the errors first,
    then the warnings, then the successes, each group in the order of
    the issues: the three groups for the filter [all], the errors for
    [errors], the errors and the warnings for [warnings]. *)
Theorem cards_by_severity issues filter :
  let lists := reportLists issues filter in
  filteredIssues lists =
    match filter with
    | FilterAll => errors lists ++ warnings lists ++ successes lists
    | FilterErrors => errors lists
    | FilterWarnings => errors lists ++ warnings lists
    end.
Proof. intros lists. unfold lists. rewrite filteredIssues_eq. by destruct filter. Qed.

(** Property X10. The number a filter button shows (the issues; the
    errors; the errors plus the warnings) is the number of cards
    shown when that filter is selected. *)
Theorem button_counts_cards issues filter :
  length (filteredIssues (reportLists issues filter))
    = buttonCount issues (reportLists issues filter) filter.
Proof.
  rewrite filteredIssues_eq. destruct filter; cbn [buttonCount].
  - by rewrite ofSeverity_partition.
  - done.
  - by rewrite length_app.
Qed.

(** *** The helper of the component and the classifier *)

Lemma processProperty_processItem cm st property_ :
  processProperty cm
    (withoutFeatureType <$> Caniemail.issues st, Caniemail.processedSlugs st) property_ =
  (withoutFeatureType <$>
     Caniemail.issues (Caniemail.processItem cm FtCss id st property_),
   Caniemail.processedSlugs (Caniemail.processItem cm FtCss id st property_)).
Proof.
  unfold processProperty, Caniemail.processItem.
  destruct (cm !! property_) as [f|]; [|reflexivity].
  case_bool_decide; [reflexivity|].
  generalize (severityOf (getFeatureSupportSummary f)) (getFeatureSupportSummary f).
  intros sev s.
  cbn [Caniemail.issues Caniemail.processedSlugs]. rewrite fmap_app.
  reflexivity.
Qed.

Lemma legacy_fold cm items : forall st,
  foldl (processProperty cm)
    (withoutFeatureType <$> Caniemail.issues st, Caniemail.processedSlugs st) items =
  (withoutFeatureType <$>
     Caniemail.issues (Caniemail.processFeatures items cm FtCss id st),
   Caniemail.processedSlugs (Caniemail.processFeatures items cm FtCss id st)).
Proof.
  unfold Caniemail.processFeatures.
  induction items as [|item items IH]; intros st; cbn [foldl]; [done|].
  by rewrite processProperty_processItem, IH.
Qed.

Lemma legacy_eq extractedProperties cssPropertyMap htmlElementMap htmlAttributeMap :
  createCompatibilityIssues extractedProperties cssPropertyMap =
    withoutFeatureType <$>
      Caniemail.createCompatibilityIssues extractedProperties [] [] []
        cssPropertyMap htmlElementMap htmlAttributeMap.
Proof.
  unfold createCompatibilityIssues, Caniemail.createCompatibilityIssues.
  pose proof (legacy_fold cssPropertyMap extractedProperties
                {| Caniemail.issues := []; Caniemail.processedSlugs := [] |}) as H.
  change (foldl (processProperty cssPropertyMap) ([], []) extractedProperties =
          (withoutFeatureType <$>
             Caniemail.issues
               (Caniemail.processFeatures extractedProperties cssPropertyMap FtCss id
                  {| Caniemail.issues := []; Caniemail.processedSlugs := [] |}),
           Caniemail.processedSlugs
             (Caniemail.processFeatures extractedProperties cssPropertyMap FtCss id
                {| Caniemail.issues := []; Caniemail.processedSlugs := [] |}))) in H.
  by rewrite H.
Qed.

(** Property X11. The helper [createCompatibilityIssues] of the
    component returns what the classifier of [src/lib/caniemail.ts]
    returns for the same CSS properties and index and no at-rules,
    elements and attributes, each issue without its feature type. *)
Theorem component_helper_agrees extractedProperties cssPropertyMap
    htmlElementMap htmlAttributeMap :
  createCompatibilityIssues extractedProperties cssPropertyMap =
    withoutFeatureType <$>
      Caniemail.createCompatibilityIssues extractedProperties [] [] []
        cssPropertyMap htmlElementMap htmlAttributeMap.
Proof. apply legacy_eq. Qed.

Lemma cardKey_issueSlug (l : list Caniemail.CompatibilityIssue) :
  cardKey <$> (withoutFeatureType <$> l) = Caniemail.issueSlug <$> l.
Proof. rewrite <- list_fmap_compose. by apply list_fmap_ext. Qed.

Lemma classifier_keys_NoDup ps ars es ats cm em am :
  NoDup (Caniemail.issueSlug <$> Caniemail.createCompatibilityIssues ps ars es ats cm em am).
Proof.
  rewrite ClassifierProofs.createCompatibilityIssues_emit.
  destruct (ClassifierProofs.emit_invariant (Caniemail.candidates ps ars es ats cm em am))
    as (Hp & Hnd & _ & _).
  by rewrite <- Hp.
Qed.

Lemma filtered_keys_NoDup issues filter :
  NoDup (cardKey <$> issues) ->
  NoDup (cardKey <$> filteredIssues (reportLists issues filter)).
Proof.
  intros H. rewrite filteredIssues_eq.
  assert (Hall : NoDup (cardKey <$> (ofSeverity SevError issues ++
            ofSeverity SevWarning issues ++ ofSeverity SevSuccess issues))).
  { by rewrite ofSeverity_partition. }
  destruct filter; [done| |].
  - rewrite fmap_app in Hall. by apply NoDup_app in Hall as (? & _ & _).
  - rewrite app_assoc, fmap_app in Hall. by apply NoDup_app in Hall as (? & _ & _).
Qed.

(** Property X12. The cards made from the issues of the helper have
    pairwise different keys (the key of a card is the slug of the
    feature of its issue), for every filter. *)
Theorem card_keys_unique extractedProperties cssPropertyMap filter :
  NoDup (cardKey <$>
    filteredIssues
      (reportLists (createCompatibilityIssues extractedProperties cssPropertyMap) filter)).
Proof.
  apply filtered_keys_NoDup.
  rewrite (legacy_eq _ _ ∅ ∅), cardKey_issueSlug. apply classifier_keys_NoDup.
Qed.

(** *** The embed address *)

Lemma append_inj_l p : forall a b, p +:+ a = p +:+ b -> a = b.
Proof.
  induction p as [|c p IH]; intros a b H; [done|].
  rewrite !append_cons in H. injection H as H. by apply IH.
Qed.

Lemma append_inj_r_char c : forall a b,
  a +:+ String c "" = b +:+ String c "" -> a = b.
Proof.
  induction a as [|x a IH]; intros [|y b] H; try done.
  - rewrite append_cons in H. simpl in H. injection H as _ H. by destruct b.
  - rewrite append_cons in H. simpl in H. injection H as _ H. by destruct a.
  - rewrite !append_cons in H. injection H as -> H. f_equal. by apply IH.
Qed.

(** Property X13. [getEmbedUrl] gives different addresses for
    different slugs. *)
Theorem embed_url_injective slug1 slug2 :
  getEmbedUrl slug1 = getEmbedUrl slug2 <-> slug1 = slug2.
Proof.
  split; [|by intros ->]. unfold getEmbedUrl.
  intros H%append_inj_l. by apply append_inj_r_char in H.
Qed.

End ReportProofs.

(* ===================================================================== *)
(** ** More about the reference index                                     *)
(* ===================================================================== *)

Module IndexMore.
Import JsString RegExp Caniemail FeatureMaps IndexProofs.

Lemma resolveKey_from cat setKeys kws features key f :
  resolveKey cat setKeys kws features key = Some f ->
  f ∈ features /\ category f = cat.
Proof.
  unfold resolveKey.
  destruct (List.find (claims cat setKeys key) (List.rev features)) as [g|] eqn:E.
  - intros [= <-]. apply find_some in E as [Hin Hc].
    apply in_rev, list_elem_of_In in Hin. split; [done|].
    unfold claims in Hc. apply andb_prop in Hc as [Hc _]. by apply bool_decide_eq_true in Hc.
  - intros [Hin Hc]%find_some. apply list_elem_of_In in Hin. split; [done|].
    unfold claims in Hc. apply andb_prop in Hc as [Hc _]. by apply bool_decide_eq_true in Hc.
Qed.

Lemma css_lookup features key :
  buildCssPropertyMap features !! key
    = resolveKey CatCss cssSetKeys (keywordKeys anyKeyword) features key.
Proof.
  unfold buildCssPropertyMap.
  rewrite (foldl_ext_step _ _ cssPropertyStep_registerKeys). apply build_lookup.
Qed.

Lemma element_lookup features key :
  buildHtmlElementMap features !! key
    = resolveKey CatHtml elementSetKeys (keywordKeys singleWord) features key.
Proof.
  unfold buildHtmlElementMap.
  rewrite (foldl_ext_step _ _ htmlElementStep_registerKeys). apply build_lookup.
Qed.

Lemma attribute_lookup features key :
  buildHtmlAttributeMap features !! key
    = resolveKey CatHtml attributeSetKeys (keywordKeys singleWord) features key.
Proof.
  unfold buildHtmlAttributeMap.
  rewrite (foldl_ext_step _ _ htmlAttributeStep_registerKeys). apply build_lookup.
Qed.

(** Property X14. An index only holds features of the dataset, of the
    category it is built for: the CSS index features of the category
    css, the element index and the attribute index features of the
    category html. *)
Theorem index_entries_from_dataset (features : list CanIEmailFeature) (key : string)
    (f : CanIEmailFeature) :
  (buildCssPropertyMap features !! key = Some f ->
   f ∈ features /\ category f = CatCss) /\
  (buildHtmlElementMap features !! key = Some f ->
   f ∈ features /\ category f = CatHtml) /\
  (buildHtmlAttributeMap features !! key = Some f ->
   f ∈ features /\ category f = CatHtml).
Proof.
  rewrite css_lookup, element_lookup, attribute_lookup.
  split; [|split]; apply resolveKey_from.
Qed.

End IndexMore.

(* ===================================================================== *)
(** ** More about the extractor                                           *)
(* ===================================================================== *)

Module ExtractorMore.
Import JsString RegExp RegExpFacts FeatureExtractor Examples ExtractorProofs.
Import RegExpNotions CaptureFacts ExtractorNotions.

(** What [exec] returns is a match at some index of the subject. *)
Lemma execFrom_sound icase r : forall s i m,
  execFrom icase r i s = Some m ->
  exists u v, s = u +:+ v /\ matchAt icase r (i + String.length u) v = Some m.
Proof.
  induction s as [|c s IH]; intros i m; rewrite execFrom_unfold.
  - destruct (matchAt icase r i "") as [m'|] eqn:E; [|done].
    intros [= ->]. exists "", "". simpl. by rewrite Nat.add_0_r.
  - destruct (matchAt icase r i (String c s)) as [m'|] eqn:E.
    + intros [= ->]. exists "", (String c s). simpl. by rewrite Nat.add_0_r.
    + intros (u & v & -> & Hm)%IH. exists (String c u), v. rewrite append_cons.
      split; [done|]. simpl. by rewrite <- Nat.add_succ_comm.
Qed.

(** Every match of the loop is a match at some index of the subject. *)
Lemma execAllFrom_sound icase r : forall fuel i s ms m,
  execAllFrom fuel icase r i s = Some ms -> m ∈ ms ->
  exists u v, s = u +:+ v /\ matchAt icase r (i + String.length u) v = Some m.
Proof.
  induction fuel as [|fuel IH]; intros i s ms m; [done|].
  rewrite execAllFrom_unfold.
  destruct (execFrom icase r i s) as [m0|] eqn:E.
  - destruct (execAllFrom fuel icase r (lastIndex m0) (after m0)) as [ms'|] eqn:E'; [|done].
    simpl. intros [= <-] [->|Hin]%elem_of_cons.
    + by apply execFrom_sound.
    + apply execFrom_sound in E as (u0 & v0 & -> & Hm0).
      apply matchAt_sound in Hm0 as (_ & Hv0 & _ & Hlast).
      destruct (IH _ _ _ _ E' Hin) as (u' & v' & Hafter & Hm).
      exists (u0 +:+ text m0 +:+ u'), v'.
      rewrite Hv0, Hafter, !append_assoc. split; [done|].
      rewrite !append_length. rewrite Hlast in Hm.
      replace (i + (String.length u0 + (String.length (text m0) + String.length u')))
        with (i + String.length u0 + String.length (text m0) + String.length u') by lia.
      done.
  - intros [= <-] H. by apply elem_of_nil in H.
Qed.

Lemma execAll_sound icase r s ms m :
  execAll icase r s = Some ms -> m ∈ ms ->
  exists u v, s = u +:+ v /\ matchAt icase r (String.length u) v = Some m.
Proof. intros H Hin. exact (execAllFrom_sound icase r _ 0 s ms m H Hin). Qed.

Lemma letterClass_spec c : classMatches true false [CRange "a" "z"] c = isLetter c.
Proof. by destruct c as [[] [] [] [] [] [] [] []]. Qed.

Lemma tagClass_spec c :
  classMatches true false [CRange "a" "z"; CRange "0" "9"; CChar "-"] c = isTagChar c.
Proof. by destruct c as [[] [] [] [] [] [] [] []]. Qed.

Lemma stripLit_char icase (a : ascii) w :
  stripLit icase (String a "") w = Some "" ->
  exists b, w = String b "" /\ sameChar icase a b = true.
Proof. apply stripLit_one. Qed.

Lemma sameChar_lt b : sameChar true "<" b = true -> b = "<"%char.
Proof. by destruct b as [[] [] [] [] [] [] [] []]. Qed.

Lemma sameChar_eq_sign b : sameChar true "=" b = true -> b = "="%char.
Proof. by destruct b as [[] [] [] [] [] [] [] []]. Qed.

(** The name a tag pattern captures. *)
Lemma tagName_lang w :
  lang true (RSeq (RClass false [CRange "a" "z"])
                  (RStar true false [CRange "a" "z"; CRange "0" "9"; CChar "-"])) w ->
  isTagName w = true.
Proof.
  intros (w1 & w2 & -> & (c & -> & Hc) & Hw). cbn [lang] in Hw.
  rewrite letterClass_spec in Hc. rewrite (allChars_ext _ _ _ tagClass_spec) in Hw.
  change (String c "" +:+ w2) with (String c w2). simpl. by rewrite Hc, Hw.
Qed.

(** A match of the pattern of tags: [<], then the name it captures. *)
Lemma tagRegex_match i v m :
  matchAt true tagRegex i v = Some m ->
  exists name,
    v = "<" +:+ name +:+ after m /\ group' 1 m = name /\ isTagName name = true.
Proof.
  unfold matchAt. destruct (run true tagRegex _ Some) as [st|] eqn:Hrun; [|done].
  intros [= <-]. unfold group', group. cbn [groups after].
  unfold tagRegex in Hrun. cbn [RCat] in Hrun. rewrite run_seq in Hrun.
  apply run_plain_at in Hrun as (h & s1 & -> & (b & -> & Hb%sameChar_lt)%stripLit_char & Hrun);
    [|done]. subst b.
  apply run_group_at in Hrun as (name & s2 & -> & Hname%tagName_lang & Hrun); [|done].
  injection Hrun as <-. cbn [rest caps lookupGroup Nat.eqb]. exists name. done.
Qed.

Lemma tagName_no_lt name : isTagName name = true -> noneIs "<" name = true.
Proof.
  destruct name as [|c w]; [done|]. simpl. intros [Hc Hw]%andb_prop.
  apply andb_true_intro. split.
  - clear Hw. by destruct c as [[] [] [] [] [] [] [] []].
  - revert Hw. apply allChars_impl. intros x Hx.
    by destruct x as [[] [] [] [] [] [] [] []].
Qed.

Lemma tagRegex_shape w :
  lang true tagRegex w -> exists c w', w = String c w' /\ noneIs "<" w' = true.
Proof.
  unfold tagRegex. cbn [RCat lang].
  intros (w1 & w2 & -> & (b & -> & _)%stripLit_char & Hname%tagName_lang).
  exists b, w2. split; [done|]. by apply tagName_no_lt.
Qed.

(** A greedy repetition after a first character of another class. *)
Lemma run_group_first_star_max icase n inv1 items1 inv2 items2 c w s st k res :
  rest st = String c w +:+ s ->
  classMatches icase inv1 items1 c = true ->
  allChars (classMatches icase inv2 items2) w = true ->
  stopsAt (classMatches icase inv2 items2) s ->
  k {| pos := pos st + String.length (String c w); rest := s;
       caps := (n, String c w) :: caps st |} = Some res ->
  run icase (RGroup n (RSeq (RClass inv1 items1) (RStar true inv2 items2))) st k
    = Some res.
Proof.
  intros E Hc Hw Hs Hk.
  cbn [run]. rewrite E, append_cons, Hc. cbn [rest pos caps].
  apply starGreedy_max; [done|done|]. cbn [rest pos caps].
  replace (S (pos st) + (0 + String.length w) - pos st) with (String.length (String c w))
    by (simpl; lia).
  rewrite <- append_cons, take_append.
  replace (S (pos st) + (0 + String.length w)) with (pos st + String.length (String c w))
    by (simpl; lia).
  exact Hk.
Qed.

Lemma tagRegex_token i name post :
  isTagName name = true ->
  stopsAt isTagChar post ->
  exists m,
    matchAt true tagRegex i ("<" +:+ name +:+ post) = Some m /\ group' 1 m = name.
Proof.
  intros Hname Hpost. destruct name as [|c w]; [done|].
  simpl in Hname. apply andb_prop in Hname as [Hc Hw].
  assert (exists st,
    run true tagRegex {| pos := i; rest := "<" +:+ String c w +:+ post; caps := [] |} Some
      = Some st /\ lookupGroup 1 (caps st) = Some (String c w)) as (st & Hrun & Hcap).
  { eexists. split.
    - unfold tagRegex. cbn [RCat]. rewrite run_seq.
      rewrite (run_lit true "<" (String c w +:+ post)) by done.
      eapply (run_group_first_star_max true 1 false _ false _ c w post); [done| | | |].
      + by rewrite letterClass_spec.
      + by rewrite (allChars_ext _ _ _ tagClass_spec).
      + by apply (stopsAt_ext _ _ _ tagClass_spec).
      + reflexivity.
    - done. }
  unfold matchAt. rewrite Hrun. eexists. split; [done|].
  unfold group', group. simpl. by rewrite Hcap.
Qed.

(** What [extractHtmlElements] returns: the names, in lower case, of
    the tags of the document. *)
Lemma extractHtmlElements_exact html :
  exists ms elements,
    execAll true tagRegex html = Some ms /\
    extractHtmlElements html = Some elements /\
    forall e, e ∈ elements <-> e ∈ (fun m => toLowerCase (group' 1 m)) <$> ms.
Proof.
  unfold extractHtmlElements.
  destruct (whileExec_collect_all tagRegex html
    (fun m => toLowerCase (group' 1 m))
    (fun m elements => Some (setAdd (toLowerCase (group' 1 m)) elements)) [])
    as (ms & acc' & H1 & H2 & _ & H4); [cbv; lia|done|].
  exists ms, acc'. split; [done|]. split; [done|].
  intros e. rewrite H4, elem_of_nil. tauto.
Qed.

Lemma extractHtmlElements_tags html elements :
  extractHtmlElements html = Some elements ->
  (forall e, e ∈ elements ->
     exists before name after_,
       html = before +:+ "<" +:+ name +:+ after_ /\
       isTagName name = true /\ e = toLowerCase name) /\
  (forall before name after_,
     html = before +:+ "<" +:+ name +:+ after_ ->
     isTagName name = true -> stopsAt isTagChar after_ ->
     toLowerCase name ∈ elements).
Proof.
  destruct (extractHtmlElements_exact html) as (ms & elements' & Hms & -> & Hel).
  intros [= <-]. split.
  - intros e (m & -> & Hm)%Hel%list_elem_of_fmap.
    destruct (execAll_sound _ _ _ _ _ Hms Hm) as (u & v & -> & Hmatch).
    apply tagRegex_match in Hmatch as (name & -> & <- & Hname).
    exists u, (group' 1 m), (after m). done.
  - intros before name after_ -> Hname Hstop. apply Hel.
    destruct (tagRegex_token (0 + String.length before) name after_ Hname Hstop)
      as (m & Hm & Hg).
    unfold execAll in Hms.
    destruct (execAllFrom_finds true tagRegex _ m ltac:(cbv; lia)
                (S (String.length (before +:+ "<" +:+ name +:+ after_)))
                before 0 (Nat.lt_succ_diag_r _) Hm) as (ms' & Hms' & Hin).
    + intros u1 u2 m' -> Hu2 Hm'.
      apply matchAt_sound in Hm' as (_ & Hsplit & Hlang & _).
      apply tagRegex_shape in Hlang as (c & w' & Hw & Hnone).
      by apply (stops_before_char "<" _ c w' u2 _ (after m') Hw Hnone Hu2 Hsplit).
    + rewrite Hms in Hms'. injection Hms' as <-. rewrite <- Hg.
      by apply (list_elem_of_fmap_2 (fun m => toLowerCase (group' 1 m))).
Qed.

(** A greedy repetition whose continuation always succeeds takes the
    whole run of characters. *)
Lemma starGreedy_whole {R} p (k : nat -> string -> option R) :
  (forall n s, is_Some (k n s)) ->
  forall s n res,
    starGreedy p n s k = Some res ->
    exists w s', s = w +:+ s' /\ allChars p w = true /\ stopsAt p s' /\
                 k (n + String.length w) s' = Some res.
Proof.
  intros Hk. induction s as [|c s IH]; intros n res; simpl.
  - intros H. exists "", "". by rewrite Nat.add_0_r.
  - destruct (p c) eqn:E.
    + destruct (starGreedy p (S n) s k) as [r|] eqn:E'.
      * intros [= ->]. apply IH in E' as (w & s' & -> & Hw & Hs & Hres).
        exists (String c w), s'. rewrite append_cons. simpl. rewrite E.
        split; [done|]. split; [done|]. split; [done|]. by rewrite <- Nat.add_succ_comm.
      * exfalso. clear IH. revert n E'. induction s as [|c' s IHs]; intros n; simpl.
        -- by destruct (Hk (S n) "") as [r ->].
        -- destruct (p c'); [|by destruct (Hk (S n) (String c' s)) as [r ->]].
           destruct (starGreedy p (S (S n)) s k) eqn:E2; [done|].
           by destruct (Hk (S n) (String c' s)) as [r ->].
    + intros H. exists "", (String c s). rewrite Nat.add_0_r. done.
Qed.

(** A match of the pattern of tags takes the whole name. *)
Lemma tagRegex_match_whole i v m :
  matchAt true tagRegex i v = Some m ->
  exists name,
    v = "<" +:+ name +:+ after m /\ group' 1 m = name /\ isTagName name = true /\
    stopsAt isTagChar (after m).
Proof.
  unfold matchAt. destruct (run true tagRegex _ Some) as [st|] eqn:Hrun; [|done].
  intros [= <-]. unfold group', group. cbn [groups after].
  unfold tagRegex in Hrun. cbn [RCat] in Hrun. rewrite run_seq in Hrun.
  apply run_plain_at in Hrun as (h & s1 & -> & (b & -> & Hb%sameChar_lt)%stripLit_char & Hrun);
    [|done]. subst b.
  cbn [run rest pos caps] in Hrun.
  destruct s1 as [|c s2]; [done|].
  destruct (classMatches true false [CRange "a" "z"] c) eqn:Hc; [|done].
  rewrite letterClass_spec in Hc.
  apply starGreedy_whole in Hrun as (w & s' & -> & Hw & Hs & Hrun); [|by eauto].
  rewrite (allChars_ext _ _ _ tagClass_spec) in Hw.
  apply (stopsAt_ext _ _ _ (fun c => eq_sym (tagClass_spec c))) in Hs.
  injection Hrun as <-. cbn [rest caps lookupGroup Nat.eqb pos].
  replace (S (i + 1 + String.length w) - (i + 1))
    with (String.length (String c w)) by (simpl; lia).
  change (String c (w +:+ s')) with (String c w +:+ s'). rewrite take_append.
  exists (String c w). split; [done|]. split; [done|]. split; [|done].
  simpl. by rewrite Hc, Hw.
Qed.

(** *** Attributes *)

Lemma tagChar_not_space c : isTagChar c = true -> isSpace c = false.
Proof. by destruct c as [[] [] [] [] [] [] [] []]. Qed.

Lemma space_not_tagChar c : isSpace c = true -> isTagChar c = false.
Proof. by destruct c as [[] [] [] [] [] [] [] []]. Qed.

Lemma letter_tagChar c : isLetter c = true -> isTagChar c = true.
Proof. unfold isTagChar. by intros ->. Qed.

Lemma spaceOnly_spec c : classMatches true false [CSpace] c = isSpace c.
Proof. apply spaceClass_spec. Qed.

(** A match of the pattern of attributes: a white space character,
    the name it captures, optional white space and [=]. *)
Lemma attrRegex_match i v m :
  matchAt true attrRegex i v = Some m ->
  exists sp name ws,
    v = String sp (name +:+ ws +:+ "=" +:+ after m) /\
    isSpace sp = true /\ isTagName name = true /\ allChars isSpace ws = true /\
    group' 1 m = name.
Proof.
  unfold matchAt. destruct (run true attrRegex _ Some) as [st|] eqn:Hrun; [|done].
  intros [= <-]. unfold group', group. cbn [groups after].
  unfold attrRegex in Hrun. cbn [RCat] in Hrun. rewrite run_seq in Hrun.
  apply run_plain_at in Hrun as (h & s1 & -> & (sp & -> & Hsp) & Hrun); [|done].
  rewrite spaceOnly_spec in Hsp. rewrite run_seq in Hrun.
  apply run_group_at in Hrun as (name & s2 & -> & Hname%tagName_lang & Hrun); [|done].
  rewrite run_seq in Hrun.
  apply run_plain_at in Hrun as (ws & s3 & -> & Hws & Hrun); [|done].
  cbn [lang spaces0] in Hws. rewrite (allChars_ext _ _ _ spaceOnly_spec) in Hws.
  apply run_plain_at in Hrun as (e & s4 & -> & (b & -> & Hb%sameChar_eq_sign)%stripLit_char & Hrun);
    [|done]. subst b.
  injection Hrun as <-. cbn [rest caps lookupGroup Nat.eqb].
  exists sp, name, ws. done.
Qed.

Lemma run_class icase inv items c s st k :
  rest st = String c s ->
  classMatches icase inv items c = true ->
  run icase (RClass inv items) st k
    = k {| pos := S (pos st); rest := s; caps := caps st |}.
Proof. intros E Hc. simpl. by rewrite E, Hc. Qed.

Lemma attrRegex_token i sp name ws post :
  isSpace sp = true -> isTagName name = true -> allChars isSpace ws = true ->
  exists m,
    matchAt true attrRegex i (String sp (name +:+ ws +:+ "=" +:+ post)) = Some m /\
    group' 1 m = name.
Proof.
  intros Hsp Hname Hws. destruct name as [|c w]; [done|].
  simpl in Hname. apply andb_prop in Hname as [Hc Hw].
  assert (exists st,
    run true attrRegex
      {| pos := i; rest := String sp (String c w +:+ ws +:+ "=" +:+ post); caps := [] |} Some
      = Some st /\ lookupGroup 1 (caps st) = Some (String c w)) as (st & Hrun & Hcap).
  { eexists. split.
    - unfold attrRegex. cbn [RCat]. rewrite run_seq.
      rewrite (run_class true false [CSpace] sp
                 (String c w +:+ ws +:+ "=" +:+ post)); [|done|by rewrite spaceOnly_spec].
      cbn [pos rest caps]. rewrite run_seq.
      eapply (run_group_first_star_max true 1 false _ false _ c w (ws +:+ "=" +:+ post));
        [done| | | |].
      + by rewrite letterClass_spec.
      + by rewrite (allChars_ext _ _ _ tagClass_spec).
      + apply (stopsAt_ext _ _ _ tagClass_spec).
        destruct ws as [|x ws]; [done|]. rewrite append_cons. apply stopsAt_cons.
        simpl in Hws. apply andb_prop in Hws as [Hx _]. by apply space_not_tagChar.
      + cbv beta. rewrite run_seq.
        eapply (run_star_max true false [CSpace] ws); [done| |done|].
        { by rewrite (allChars_ext _ _ _ spaceOnly_spec). }
        cbv beta. cbn [pos rest caps]. reflexivity.
    - done. }
  unfold matchAt. rewrite Hrun. eexists. split; [done|].
  unfold group', group. simpl. by rewrite Hcap.
Qed.

Lemma append_last_inj a : forall b (x y : ascii),
  a +:+ String x "" = b +:+ String y "" -> x = y.
Proof.
  induction a as [|c a IH]; intros [|d b] x y H.
  - by injection H.
  - rewrite append_cons in H. injection H as _ H. by destruct b.
  - rewrite append_cons in H. injection H as _ H. by destruct a.
  - rewrite !append_cons in H. injection H as _ H. by apply (IH b).
Qed.

(** A match made of a first character, characters of a class and then
    other characters, the last of them [e], does not reach over a
    character [b] that is not [e] and is followed by a character of
    the class. *)
Lemma stops_before_pair p c0 n x' e u2 b c v' rest_ :
  allChars p n = true ->
  allChars (fun c => negb (p c)) (x' +:+ String e "") = true ->
  b <> e -> p b = false -> p c = true ->
  u2 <> "" ->
  u2 +:+ String b (String c v') = String c0 (n +:+ x' +:+ String e "") +:+ rest_ ->
  String.length (String c0 (n +:+ x' +:+ String e "")) <= String.length u2.
Proof.
  intros Hn Hx Hbe Hb Hc Hne E.
  set (w := String c0 (n +:+ x' +:+ String e "")) in *.
  destruct (le_lt_dec (String.length w) (String.length u2)) as [|Hlt]; [done|].
  exfalso. symmetry in E.
  destruct (append_split _ _ _ _ E ltac:(lia)) as (y & Ey & Ex).
  destruct y as [|b' y].
  { rewrite append_nil_r in Ey. rewrite Ey in Hlt. lia. }
  rewrite append_cons in Ex. injection Ex as <- Ex.
  destruct u2 as [|z u2]; [done|]. unfold w in Ey. rewrite append_cons in Ey.
  injection Ey as _ Ey.
  destruct y as [|c' y].
  - apply Hbe. symmetry.
    apply (append_last_inj (n +:+ x') u2).
    by rewrite append_assoc.
  - rewrite append_cons in Ex. injection Ex as <- _.
    by apply (run_then_others p n (x' +:+ String e "") u2 b c y).
Qed.

Lemma attrRegex_shape w :
  lang true attrRegex w ->
  exists c0 n x',
    w = String c0 (n +:+ x' +:+ String "=" "") /\
    allChars isTagChar n = true /\
    allChars (fun c => negb (isTagChar c)) (x' +:+ String "=" "") = true.
Proof.
  unfold attrRegex, spaces0. cbn [RCat lang].
  intros (w1 & w2 & -> & (c0 & -> & _) &
          w3 & w4 & -> & Hname &
          w5 & w6 & -> & Hws & (b & -> & Hb%sameChar_eq_sign)%stripLit_char).
  subst b. fold (lang true (RSeq (RClass false [CRange "a" "z"])
    (RStar true false [CRange "a" "z"; CRange "0" "9"; CChar "-"])) w3) in Hname.
  apply tagName_lang in Hname.
  rewrite (allChars_ext _ _ _ spaceOnly_spec) in Hws.
  exists c0, w3, w5. split; [done|]. split.
  - destruct w3 as [|c w]; [done|]. simpl in Hname. apply andb_prop in Hname as [Hc Hw].
    simpl. by rewrite (letter_tagChar _ Hc), Hw.
  - rewrite allChars_app. apply andb_true_intro. split; [|done].
    revert Hws. apply allChars_impl. intros x Hx. by rewrite space_not_tagChar.
Qed.

Lemma extractHtmlAttributes_exact html :
  exists ms attributes,
    execAll true attrRegex html = Some ms /\
    extractHtmlAttributes html = Some attributes /\
    forall a, a ∈ attributes <-> a ∈ (fun m => toLowerCase (group' 1 m)) <$> ms.
Proof.
  unfold extractHtmlAttributes.
  destruct (whileExec_collect_all attrRegex html
    (fun m => toLowerCase (group' 1 m))
    (fun m attributes => Some (setAdd (toLowerCase (group' 1 m)) attributes)) [])
    as (ms & acc' & H1 & H2 & _ & H4); [cbv; lia|done|].
  exists ms, acc'. split; [done|]. split; [done|].
  intros e. rewrite H4, elem_of_nil. tauto.
Qed.

Lemma extractHtmlAttributes_names html attributes a :
  extractHtmlAttributes html = Some attributes ->
  a ∈ attributes <->
  exists before sp name ws after_,
    html = before +:+ String sp (name +:+ ws +:+ "=" +:+ after_) /\
    isSpace sp = true /\ isTagName name = true /\ allChars isSpace ws = true /\
    a = toLowerCase name.
Proof.
  destruct (extractHtmlAttributes_exact html) as (ms & attributes' & Hms & -> & Hel).
  intros [= <-]. rewrite Hel. split.
  - intros (m & -> & Hm)%list_elem_of_fmap.
    destruct (execAll_sound _ _ _ _ _ Hms Hm) as (u & v & -> & Hmatch).
    apply attrRegex_match in Hmatch as (sp & name & ws & -> & Hsp & Hname & Hws & <-).
    exists u, sp, (group' 1 m), ws, (after m). done.
  - intros (before & sp & name & ws & after_ & -> & Hsp & Hname & Hws & ->).
    destruct (attrRegex_token (0 + String.length before) sp name ws after_ Hsp Hname Hws)
      as (m & Hm & Hg).
    unfold execAll in Hms.
    destruct (execAllFrom_finds true attrRegex _ m ltac:(cbv; lia)
                (S (String.length (before +:+ String sp (name +:+ ws +:+ "=" +:+ after_))))
                before 0 (Nat.lt_succ_diag_r _) Hm) as (ms' & Hms' & Hin).
    + intros u1 u2 m' -> Hu2 Hm'.
      apply matchAt_sound in Hm' as (_ & Hsplit & Hlang & _).
      apply attrRegex_shape in Hlang as (c0 & n & x' & Hw & Hn & Hx).
      rewrite Hw in Hsplit |- *.
      destruct name as [|c w]; [done|]. simpl in Hname. apply andb_prop in Hname as [Hc _].
      rewrite append_cons in Hsplit.
      apply (stops_before_pair isTagChar c0 n x' "=" u2 sp c
               (w +:+ ws +:+ "=" +:+ after_) (after m')); try done.
      * intros ->. done.
      * by apply space_not_tagChar.
      * by apply letter_tagChar.
    + rewrite Hms in Hms'. injection Hms' as <-. rewrite <- Hg.
      by apply (list_elem_of_fmap_2 (fun m => toLowerCase (group' 1 m))).
Qed.

Lemma extractHtmlElements_names html elements e :
  extractHtmlElements html = Some elements ->
  e ∈ elements <->
  exists before name after_,
    html = before +:+ "<" +:+ name +:+ after_ /\
    isTagName name = true /\ stopsAt isTagChar after_ /\ e = toLowerCase name.
Proof.
  intros H. split.
  - destruct (extractHtmlElements_exact html) as (ms & elements' & Hms & He & Hel).
    rewrite H in He. injection He as <-.
    intros (m & -> & Hm)%Hel%list_elem_of_fmap.
    destruct (execAll_sound _ _ _ _ _ Hms Hm) as (u & v & -> & Hmatch).
    apply tagRegex_match_whole in Hmatch as (name & -> & <- & Hname & Hstop).
    exists u, (group' 1 m), (after m). done.
  - intros (before & name & after_ & Hhtml & Hname & Hstop & ->).
    by apply (proj2 (extractHtmlElements_tags html elements H) before name after_).
Qed.

Lemma lower_canon c : lowerChar (canonChar c) = lowerChar c.
Proof. by destruct c as [[] [] [] [] [] [] [] []]. Qed.

Lemma canon_lower c : canonChar (lowerChar c) = canonChar c.
Proof. by destruct c as [[] [] [] [] [] [] [] []]. Qed.

Lemma sameChar_lower a b :
  sameChar true a b = Ascii.eqb (lowerChar a) (lowerChar b).
Proof.
  unfold sameChar.
  destruct (Ascii.eqb_spec (canonChar a) (canonChar b)) as [E|E];
    destruct (Ascii.eqb_spec (lowerChar a) (lowerChar b)) as [E'|E']; try done.
  - exfalso. apply E'. by rewrite <- (lower_canon a), <- (lower_canon b), E.
  - exfalso. apply E. by rewrite <- (canon_lower a), <- (canon_lower b), E'.
Qed.

(** A literal under the [i] flag starts the text exactly when it
    starts the lower-case form of the text. *)
Lemma stripLit_lower l : forall s,
  isLowerCase l ->
  match stripLit true l s with Some _ => true | None => false end
    = startsWith (toLowerCase s) l.
Proof.
  unfold startsWith, isLowerCase.
  induction l as [|a l IH]; intros s Hl; [done|].
  simpl in Hl. injection Hl as Ha Hl.
  destruct s as [|b s]; [done|]. cbn [stripLit toLowerCase stripPrefix].
  rewrite sameChar_lower, Ha.
  destruct (Ascii.eqb a (lowerChar b)); [by apply IH|done].
Qed.

Lemma matchAt_literal l i s :
  match matchAt true (RLit l) i s with Some _ => true | None => false end
    = match stripLit true l s with Some _ => true | None => false end.
Proof. unfold matchAt. cbn [run rest]. by destruct (stripLit true l s). Qed.

Lemma execFrom_literal l : forall s i,
  isLowerCase l ->
  match execFrom true (RLit l) i s with Some _ => true | None => false end
    = includes (toLowerCase s) l.
Proof.
  induction s as [|c s IH]; intros i Hl; rewrite execFrom_unfold.
  - pose proof (matchAt_literal l i "") as Hm. rewrite (stripLit_lower l "" Hl) in Hm.
    cbn [toLowerCase includes]. cbn [toLowerCase] in Hm. rewrite <- Hm.
    by destruct (matchAt true (RLit l) i "").
  - pose proof (matchAt_literal l i (String c s)) as Hm.
    rewrite (stripLit_lower l _ Hl) in Hm.
    cbn [toLowerCase includes]. cbn [toLowerCase] in Hm. rewrite <- Hm.
    destruct (matchAt true (RLit l) i (String c s)); [done|].
    cbn [orb]. by apply IH.
Qed.

(** [/text/i.test(s)] for a lower-case text: [s], in lower case,
    includes the text. *)
Lemma test_literal l s :
  isLowerCase l -> test true (RLit l) s = includes (toLowerCase s) l.
Proof. intros Hl. unfold test, exec. by apply execFrom_literal. Qed.

Lemma startsWith_app s p : forall q,
  startsWith s (q +:+ p) = true -> exists t, s = q +:+ t /\ startsWith t p = true.
Proof.
  unfold startsWith. revert s. intros s q. revert s.
  induction q as [|a q IH]; intros s.
  - intros H. by exists s.
  - rewrite append_cons. simpl. destruct s as [|b s]; [done|].
    destruct (Ascii.eqb_spec a b) as [->|]; [|done].
    intros (t & -> & Ht)%IH. by exists t.
Qed.

Lemma includes_here s p : startsWith s p = true -> includes s p = true.
Proof. intros H. destruct s; simpl; by rewrite H. Qed.

Lemma includes_skip q : forall t p, includes t p = true -> includes (q +:+ t) p = true.
Proof.
  induction q as [|a q IH]; intros t p H; [done|].
  rewrite append_cons. simpl. rewrite (IH _ _ H). by rewrite orb_true_r.
Qed.

(** A text that includes [q ++ p] includes [p]. *)
Lemma includes_suffix q p : forall s,
  includes s (q +:+ p) = true -> includes s p = true.
Proof.
  induction s as [|c s IH]; intros H.
  - simpl in H. rewrite orb_false_r in H. apply startsWith_app in H as (t & E & Ht).
    rewrite E. by apply includes_skip, includes_here.
  - simpl in H. apply orb_prop in H as [H|H].
    + apply startsWith_app in H as (t & E & Ht).
      rewrite E. by apply includes_skip, includes_here.
    + simpl. rewrite (IH H). by rewrite orb_true_r.
Qed.

Lemma named_entry feature entry :
  feature ∈ namedFeatures -> entry ∈ cssFeatures -> feature = fst entry ->
  snd entry = RLit feature.
Proof.
  unfold namedFeatures, cssFeatures. rewrite !elem_of_cons, !elem_of_nil.
  intros Hf He ->.
  repeat (destruct He as [->|He]; [cbn [fst snd] in *; first [reflexivity|
    repeat (destruct Hf as [Hf|Hf]; [discriminate|]); done]|]).
  done.
Qed.

Lemma named_in_catalogue feature :
  feature ∈ namedFeatures -> (feature, RLit feature) ∈ cssFeatures.
Proof.
  unfold namedFeatures, cssFeatures. rewrite !elem_of_cons, !elem_of_nil.
  intros H. repeat (destruct H as [->|H]; [tauto|]). done.
Qed.

Lemma named_lowerCase feature : feature ∈ namedFeatures -> isLowerCase feature.
Proof.
  unfold namedFeatures. rewrite !elem_of_cons, !elem_of_nil.
  intros H. repeat (destruct H as [->|H]; [reflexivity|]). done.
Qed.

Lemma named_feature_elem feature value properties :
  feature ∈ namedFeatures ->
  feature ∈ extractValueFeatures value properties <->
  feature ∈ properties \/ includes (toLowerCase value) feature = true.
Proof.
  intros Hf. rewrite extractValueFeatures_elem. split.
  - intros [?|(entry & He & Hfst & Ht)]; [by left|]. right.
    rewrite (named_entry feature entry Hf He Hfst) in Ht.
    by rewrite test_literal in Ht by by apply named_lowerCase.
  - intros [?|H]; [by left|]. right. exists (feature, RLit feature).
    split; [by apply named_in_catalogue|]. split; [done|]. cbn [snd].
    by rewrite test_literal by by apply named_lowerCase.
Qed.

Lemma propertiesStep_sound st node x :
  x ∈ (propertiesStep st node).1 ->
  x ∈ st.1 \/
  match node with
  | Decl p v => declKey p v x
  | _ => False
  end.
Proof.
  destruct st as [properties values]. unfold propertiesStep.
  destruct node as [p v| | |]; try (by left).
  rewrite propertiesCallback_Decl. cbn [fst].
  intros [[->|?]%setAdd_elem|(entry & He & -> & Ht)]%extractValueFeatures_elem.
  - right. by left.
  - by left.
  - right. right. exists (snd entry). split; [by destruct entry|done].
Qed.

Lemma propertiesFold_sound l : forall st x,
  x ∈ (foldl propertiesStep st l).1 ->
  x ∈ st.1 \/ exists p v, Decl p v ∈ l /\ declKey p v x.
Proof.
  induction l as [|node l IH]; intros st x; cbn [foldl]; [by left|].
  intros [Hx|(p & v & Hin & Hk)]%IH.
  - apply propertiesStep_sound in Hx as [?|Hk]; [by left|].
    right. destruct node as [p v| | |]; try done. exists p, v. split; [left|done].
  - right. exists p, v. split; [by right|done].
Qed.

Lemma extractPropertiesFromAst_sound root properties values x :
  x ∈ (extractPropertiesFromAst root properties values).1 ->
  x ∈ properties \/ exists p v, Decl p v ∈ allNodes root /\ declKey p v x.
Proof.
  unfold extractPropertiesFromAst. rewrite walk_allNodes.
  change (fun acc n => propertiesCallback n acc) with propertiesStep.
  apply propertiesFold_sound.
Qed.

Lemma declarationsRecorded_key root properties values p v x :
  declarationsRecorded root properties values ->
  Decl p v ∈ allNodes root -> declKey p v x -> x ∈ properties.
Proof.
  intros Hrec Hin [->|(pattern & He & Ht)].
  - by apply (Hrec _ _ Hin).
  - destruct (Hrec _ _ Hin) as (_ & _ & H). by apply (H _ pattern).
Qed.

Section WithParser.
Variable safeParser : string -> option Root.

Lemma extractInlineStyles_sound html properties values :
  exists ms properties' values',
    execAll true inlineStyleRegex html = Some ms /\
    extractInlineStyles safeParser html properties values
      = Some (properties', values') /\
    forall x, x ∈ properties' ->
      x ∈ properties \/ exists m, m ∈ ms /\ fromStyleAttribute safeParser m x.
Proof.
  unfold extractInlineStyles.
  destruct (whileExec_rule
    (fun ms (st : list string * gmap string (list string)) =>
       forall x, x ∈ st.1 ->
         x ∈ properties \/ exists m, m ∈ ms /\ fromStyleAttribute safeParser m x)
    true inlineStyleRegex
    (fun m '(properties, values) =>
       let styleContent := group' 1 m in
       let wrappedCss := "* { " +:+ styleContent +:+ " }" in
       match safeParser wrappedCss with
       | Some root => Some (extractPropertiesFromAst root properties values)
       | None =>
           match extractPropertiesSimple styleContent properties with
           | Some properties => Some (properties, values)
           | None => None
           end
       end)
    html (properties, values))
    as (ms & [ps' vs'] & H1 & H2 & H3); [cbv; lia| | |].
  - cbn [fst]. by left.
  - intros ms m [ps vs] Hinv. cbn [fst] in *.
    assert (Hold : forall x, x ∈ ps ->
              x ∈ properties \/
              exists m0, m0 ∈ ms ++ [m] /\ fromStyleAttribute safeParser m0 x).
    { intros x [?|(m' & Hm' & Hf)]%Hinv; [by left|]. right. exists m'.
      split; [|done]. apply elem_of_app. by left. }
    assert (Hm : m ∈ ms ++ [m]) by (apply elem_of_app; right; left).
    destruct (safeParser ("* { " +:+ group' 1 m +:+ " }")) as [root|] eqn:Hp.
    + eexists. split; [done|]. intros x Hx.
      apply extractPropertiesFromAst_sound in Hx as [?|(p & v & Hin & Hk)];
        [by apply Hold|].
      right. exists m. split; [done|].
      unfold fromStyleAttribute, fromCss. rewrite Hp. eauto.
    + destruct (extractPropertiesSimple_spec (group' 1 m) ps)
        as (names & ps' & Hn & -> & _ & Hel).
      eexists. split; [done|]. cbn [fst]. intros x [?|Hx]%Hel; [by apply Hold|].
      right. exists m. split; [done|].
      unfold fromStyleAttribute, fromCss. rewrite Hp. eauto.
  - exists ms, ps', vs'. done.
Qed.

Lemma extractStyleTags_properties_sound html properties atRules values :
  exists ms properties' atRules' values',
    execAll true styleTagRegex html = Some ms /\
    extractStyleTags safeParser html properties atRules values
      = Some (properties', atRules', values') /\
    forall x, x ∈ properties' ->
      x ∈ properties \/ exists m, m ∈ ms /\ fromStyleBlockCss safeParser m x.
Proof.
  unfold extractStyleTags.
  destruct (whileExec_rule
    (fun ms (st : list string * list string * gmap string (list string)) =>
       forall x, x ∈ st.1.1 ->
         x ∈ properties \/ exists m, m ∈ ms /\ fromStyleBlockCss safeParser m x)
    true styleTagRegex
    (fun m '(properties, atRules, values) =>
       let cssContent := group' 1 m in
       match safeParser cssContent with
       | Some root =>
           let '(properties, values) :=
             extractPropertiesFromAst root properties values in
           match extractAtRulesFromAst root atRules with
           | Some atRules => Some (properties, atRules, values)
           | None => None
           end
       | None =>
           match extractPropertiesSimple cssContent properties with
           | Some properties =>
               match extractAtRulesSimple cssContent atRules with
               | Some atRules => Some (properties, atRules, values)
               | None => None
               end
           | None => None
           end
       end)
    html (properties, atRules, values))
    as (ms & [[ps' ars'] vs'] & H1 & H2 & H3); [cbv; lia| | |].
  - cbn [fst]. by left.
  - intros ms m [[ps ars] vs] Hinv. cbn [fst] in *.
    assert (Hold : forall x, x ∈ ps ->
              x ∈ properties \/
              exists m0, m0 ∈ ms ++ [m] /\ fromStyleBlockCss safeParser m0 x).
    { intros x [?|(m' & Hm' & Hf)]%Hinv; [by left|]. right. exists m'.
      split; [|done]. apply elem_of_app. by left. }
    assert (Hm : m ∈ ms ++ [m]) by (apply elem_of_app; right; left).
    destruct (safeParser (group' 1 m)) as [root|] eqn:Hp.
    + pose proof (extractPropertiesFromAst_sound root ps vs) as Hs.
      destruct (extractPropertiesFromAst root ps vs) as [ps' vs'].
      destruct (extractAtRulesFromAst_spec root ars) as (ars' & -> & _).
      eexists. split; [done|]. cbn [fst] in *. intros x Hx.
      apply Hs in Hx as [?|(p & v & Hin & Hk)]; [by apply Hold|].
      right. exists m. split; [done|].
      unfold fromStyleBlockCss, fromCss. rewrite Hp. eauto.
    + destruct (extractPropertiesSimple_spec (group' 1 m) ps)
        as (names & ps' & Hn & -> & _ & Hel).
      destruct (extractAtRulesSimple_spec (group' 1 m) ars)
        as (rules & ars' & _ & -> & _).
      eexists. split; [done|]. cbn [fst]. intros x [?|Hx]%Hel; [by apply Hold|].
      right. exists m. split; [done|].
      unfold fromStyleBlockCss, fromCss. rewrite Hp. eauto.
  - exists ms, ps', ars', vs'. done.
Qed.

(** The parts of the result of [extractFeatures]. *)
Lemma extractFeatures_parts html r :
  extractFeatures safeParser html = Some r ->
  extractHtmlElements html = Some (htmlElements r) /\
  extractHtmlAttributes html = Some (htmlAttributes r).
Proof.
  unfold extractFeatures.
  destruct (extractInlineStyles safeParser html [] ∅) as [[ps1 vs1]|]; [|done].
  destruct (extractStyleTags safeParser html ps1 [] vs1) as [[[ps2 ars2] vs2]|]; [|done].
  destruct (extractHtmlAttributes html) as [attrs|]; [|done].
  destruct (extractHtmlElements html) as [els|]; [|done].
  by intros [= <-].
Qed.

Lemma extractFeatures_properties html :
  exists inl blocks r,
    execAll true inlineStyleRegex html = Some inl /\
    execAll true styleTagRegex html = Some blocks /\
    extractFeatures safeParser html = Some r /\
    forall name,
      name ∈ cssProperties r <->
      (exists m, m ∈ inl /\ fromStyleAttribute safeParser m name) \/
      (exists m, m ∈ blocks /\ fromStyleBlockCss safeParser m name).
Proof.
  destruct (extractFeatures_spec safeParser html)
    as (inl & blocks & r & Hinl & Hbl & Hr & _ & _ & _ & _ & _ & Hi & Hb).
  exists inl, blocks, r. split; [done|]. split; [done|]. split; [done|].
  intros name. split.
  - revert Hr. unfold extractFeatures.
    destruct (extractInlineStyles_sound html [] ∅)
      as (inl' & ps1 & vs1 & Hinl' & -> & Hs1).
    destruct (extractStyleTags_properties_sound html ps1 [] vs1)
      as (blocks' & ps2 & ars2 & vs2 & Hbl' & -> & Hs2).
    rewrite Hinl in Hinl'. injection Hinl' as <-.
    rewrite Hbl in Hbl'. injection Hbl' as <-.
    destruct (extractHtmlAttributes html) as [attrs|]; [|done].
    destruct (extractHtmlElements html) as [els|]; [|done].
    intros [= <-]. cbn [cssProperties].
    intros [[Hx|?]%Hs1|?]%Hs2; [by apply elem_of_nil in Hx|by left|by right].
  - intros [(m & Hm & Hf)|(m & Hm & Hf)].
    + specialize (Hi m Hm). unfold inlineStyleRecorded in Hi.
      unfold fromStyleAttribute, fromCss in Hf.
      destruct (safeParser ("* { " +:+ group' 1 m +:+ " }")) as [root|].
      * destruct Hf as (p & v & Hin & Hk).
        by apply (declarationsRecorded_key root _ (cssValues r) p v).
      * destruct Hf as (names & Hn & Hin). destruct Hi as (names' & Hn' & Hsub).
        rewrite Hn in Hn'. injection Hn' as <-. by apply Hsub.
    + specialize (Hb m Hm). unfold styleBlockRecorded in Hb.
      unfold fromStyleBlockCss, fromCss in Hf.
      destruct (safeParser (group' 1 m)) as [root|].
      * destruct Hf as (p & v & Hin & Hk). destruct Hb as [Hb _].
        by apply (declarationsRecorded_key root _ (cssValues r) p v).
      * destruct Hf as (names & Hn & Hin). destruct Hb as [(names' & Hn' & Hsub) _].
        rewrite Hn in Hn'. injection Hn' as <-. by apply Hsub.
Qed.

End WithParser.

(** Property X15. Extraction returns as element set what
    [extractHtmlElements] finds, and that is exactly the lower-case
    names of the tags of the document: the texts, after a [<], made
    of a letter and then letters, digits and dashes, taken up to the
    first other character. *)
Theorem html_elements_are_the_tags safeParser html :
  exists r,
    extractFeatures safeParser html = Some r /\
    extractHtmlElements html = Some (htmlElements r) /\
    forall e,
      e ∈ htmlElements r <->
      exists before name after_,
        html = before +:+ "<" +:+ name +:+ after_ /\
        isTagName name = true /\ stopsAt isTagChar after_ /\
        e = toLowerCase name.
Proof.
  destruct (extractFeatures_spec safeParser html) as (inl & blocks & r & _ & _ & Hr & _).
  exists r. split; [done|].
  destruct (extractFeatures_parts safeParser html r Hr) as [He _].
  split; [done|]. intros e. by apply extractHtmlElements_names.
Qed.

(** Property X16. Extraction returns as attribute set what
    [extractHtmlAttributes] finds, and that is exactly the lower-case
    names (a letter, then letters, digits and dashes) that follow a
    white space character and are followed by optional white space
    and [=]. *)
Theorem html_attributes_are_the_names safeParser html :
  exists r,
    extractFeatures safeParser html = Some r /\
    extractHtmlAttributes html = Some (htmlAttributes r) /\
    forall a,
      a ∈ htmlAttributes r <->
      exists before sp name ws after_,
        html = before +:+ String sp (name +:+ ws +:+ "=" +:+ after_) /\
        isSpace sp = true /\ isTagName name = true /\ allChars isSpace ws = true /\
        a = toLowerCase name.
Proof.
  destruct (extractFeatures_spec safeParser html) as (inl & blocks & r & _ & _ & Hr & _).
  exists r. split; [done|].
  destruct (extractFeatures_parts safeParser html r Hr) as [_ Ha].
  split; [done|]. intros a. by apply extractHtmlAttributes_names.
Qed.

(** Property X17. The property set holds exactly what the style
    attributes and the style blocks of the document give: for a piece
    of CSS the parser accepts, the name recorded for each declaration
    of its tree and the features of the catalogue found in the
    lower-case value of the declaration; for a piece the parser
    throws on, the names the lenient scan keeps. *)
Theorem css_properties_sources safeParser html :
  exists inl blocks r,
    execAll true inlineStyleRegex html = Some inl /\
    execAll true styleTagRegex html = Some blocks /\
    extractFeatures safeParser html = Some r /\
    forall name,
      name ∈ cssProperties r <->
      (exists m, m ∈ inl /\ fromStyleAttribute safeParser m name) \/
      (exists m, m ∈ blocks /\ fromStyleBlockCss safeParser m name).
Proof. apply extractFeatures_properties. Qed.

(** Property X18. For the eight features of the catalogue whose
    pattern is their own name, [extractValueFeatures] ends with the
    feature in the set exactly when it was there before or the value,
    in lower case, includes the name. *)
Theorem named_value_features feature value properties :
  feature ∈ namedFeatures ->
  (feature, RLit feature) ∈ cssFeatures /\
  (feature ∈ extractValueFeatures value properties <->
   feature ∈ properties \/ includes (toLowerCase value) feature = true).
Proof.
  intros Hf. split; [by apply named_in_catalogue|by apply named_feature_elem].
Qed.

Lemma named_value_features_witness :
  "linear-gradient" ∈ namedFeatures /\
  ("linear-gradient", RLit "linear-gradient") ∈ cssFeatures /\
  ("linear-gradient" ∈ extractValueFeatures "Linear-Gradient(red, blue)" [] <->
   "linear-gradient" ∈ [] \/
   includes (toLowerCase "Linear-Gradient(red, blue)") "linear-gradient" = true).
Proof.
  assert (H : "linear-gradient" ∈ namedFeatures) by left.
  split; [exact H|].
  exact (named_value_features "linear-gradient" "Linear-Gradient(red, blue)" [] H).
Defined.

(** Property X19. A value that includes, in any case,
    repeating-linear-gradient (or repeating-radial-gradient) is
    recorded under that name and also as linear-gradient (or
    radial-gradient), whose name it includes. *)
Theorem repeating_gradient_is_gradient kind value properties :
  kind ∈ ["linear-gradient"; "radial-gradient"] ->
  includes (toLowerCase value) ("repeating-" +:+ kind) = true ->
  ("repeating-" +:+ kind) ∈ extractValueFeatures value properties /\
  kind ∈ extractValueFeatures value properties.
Proof.
  intros Hk Hin.
  assert (H1 : ("repeating-" +:+ kind) ∈ namedFeatures).
  { rewrite !elem_of_cons, elem_of_nil in Hk. unfold namedFeatures.
    destruct Hk as [->|[->|[]]].
    - change ("repeating-" +:+ "linear-gradient") with "repeating-linear-gradient".
      do 3 right. left.
    - change ("repeating-" +:+ "radial-gradient") with "repeating-radial-gradient".
      do 4 right. left. }
  assert (H2 : kind ∈ namedFeatures).
  { rewrite !elem_of_cons, elem_of_nil in Hk. unfold namedFeatures.
    destruct Hk as [->|[->|[]]]; [left|right; left]. }
  split.
  - apply named_feature_elem; [done|]. by right.
  - apply named_feature_elem; [done|]. right. by apply (includes_suffix "repeating-").
Qed.

Lemma repeating_gradient_is_gradient_witness :
  "linear-gradient" ∈ ["linear-gradient"; "radial-gradient"] /\
  includes (toLowerCase "repeating-linear-gradient(red, blue 10px)")
    ("repeating-" +:+ "linear-gradient") = true /\
  ("repeating-" +:+ "linear-gradient")
    ∈ extractValueFeatures "repeating-linear-gradient(red, blue 10px)" [] /\
  "linear-gradient" ∈ extractValueFeatures "repeating-linear-gradient(red, blue 10px)" [].
Proof.
  assert (H1 : "linear-gradient" ∈ ["linear-gradient"; "radial-gradient"]) by left.
  assert (H2 : includes (toLowerCase "repeating-linear-gradient(red, blue 10px)")
                 ("repeating-" +:+ "linear-gradient") = true) by (vm_compute; reflexivity).
  split; [exact H1|]. split; [exact H2|].
  exact (repeating_gradient_is_gradient "linear-gradient"
           "repeating-linear-gradient(red, blue 10px)" [] H1 H2).
Defined.

End ExtractorMore.

(* ===================================================================== *)
(** ** The end-to-end scenario of the specification                       *)
(* ===================================================================== *)

Module EndToEnd.
Import JsString RegExp Caniemail FeatureMaps FeatureExtractor Examples.

(** With a dataset that holds the feature css-border-radius, not
    supported by Outlook on Windows and supported by Gmail, the
    document [<div style="border-radius:4px">] gives exactly one issue:
    for border-radius, with severity error, Outlook Windows among the
    unsupported clients and Gmail among the supported ones. *)
Example border_radius_scenario :
  let html := "<div style=" +:+ dq +:+ "border-radius:4px" +:+ dq +:+ ">" in
  let safeParser :=
    parserOfTable [("* { border-radius:4px }", [Rule "*" [Decl "border-radius" "4px"]])] in
  let dataset := [borderRadius] in
  exists r issue,
    extractFeatures safeParser html = Some r /\
    createCompatibilityIssues
      (cssProperties r) (cssAtRules r) (htmlElements r) (htmlAttributes r)
      (buildCssPropertyMap dataset) (buildHtmlElementMap dataset)
      (buildHtmlAttributeMap dataset) = [issue] /\
    property issue = "border-radius" /\
    severity issue = SevError /\
    outlookWindows ∈ unsupported (summary issue) /\
    gmail ∈ supported (summary issue).
Proof.
  eexists _, _. split; [vm_compute; reflexivity|].
  split; [vm_compute; reflexivity|].
  repeat split; try reflexivity; left.
Qed.

End EndToEnd.
